(** * web2pdf: a shallow embedding of [src/web2pdf.py]

    The development follows the layout of the Python module:

    - [Text]      Python [str] values and the string methods the module uses;
    - [Regex]     the backtracking semantics of the [re] patterns it compiles;
    - [Naming]    [sanitize_filename_component], [urlparse], [url_to_filename];
    - [Captcha]   the in-page classifier evaluated by [detect_captcha];
    - [Raster]    the two PDF builders of screenshot mode;
    - [SiteRules] [parse_site_rules] and [match_rules_for_host];
    - [Capture]   the control flow of [capture_one] over an abstract browser;
    - [Batch]     [run_batch]: one browser, the URLs in turn, the teardown;
    - [Urls]      the URL list of the window, [_collect_urls];
    - [Prepare]   [prepare_page_for_capture] and the helpers it calls.

    [CaptureTrace], [RuleText], [NameShape] and [Bands] add vocabulary for
    statements about [Capture], [SiteRules], [Naming] and [Raster].

    Part I holds the definitions, Part II the statements proved about them.

    Conventions.  A Python [int] is a [Z]; a Python [float] is a primitive
    binary64 [float]; a [str] is the list of its code points, restricted to
    U+0000..U+00FF so that a code point is an [ascii].  A Python exception is
    a value of an error type, and a loop that Python runs until its condition
    fails is a fixpoint on a step budget that answers [None] when the budget
    runs out before the condition does. *)

From Stdlib Require Import ZArith Bool Ascii String List Lia Floats.
Import ListNotations.

(* ================================================================== *)
(** * Part I: definitions                                              *)
(* ================================================================== *)

(** ** Results of calls that may raise *)

Inductive exn : Type :=
| ZeroDivisionError
| OverflowError
| ValueError.

Inductive outcome (A : Type) : Type :=
| Ret (a : A)
| Raise (e : exn).

Arguments Ret {A} a.
Arguments Raise {A} e.

Definition obind {A B : Type} (m : outcome A) (k : A -> outcome B) : outcome B :=
  match m with
  | Ret a => k a
  | Raise e => Raise e
  end.

Declare Scope outcome_scope.
Delimit Scope outcome_scope with outcome.
Notation "x <- m ;; k" := (obind m (fun x => k))
  (at level 61, m at next level, right associativity) : outcome_scope.

(* ------------------------------------------------------------------ *)
(** ** Text: Python [str]                                               *)
(* ------------------------------------------------------------------ *)

Module Text.

Definition str : Type := list ascii.

(** A string literal of the source. *)
Definition lit (s : string) : str := list_ascii_of_string s.
Arguments lit s%_string.

Definition code (c : ascii) : N := N_of_ascii c.

Definition between (lo hi : N) (c : ascii) : bool :=
  ((lo <=? code c) && (code c <=? hi))%N.

Definition is_char (a : ascii) (c : ascii) : bool := Ascii.eqb a c.

(** [c.isspace()], which is also the class [\s] of [re] on [str]: TAB..CR,
    FS..US, SPACE, NEL and NBSP. *)
Definition isspace (c : ascii) : bool :=
  between 9 13 c || between 28 31 c || (code c =? 32)%N
  || (code c =? 133)%N || (code c =? 160)%N.

(** [c.lower()] (and JavaScript's [toLowerCase]) on one code point: A-Z and
    the capital letters U+00C0..U+00DE, the sign U+00D7 excepted. *)
Definition lower_char (c : ascii) : ascii :=
  if between 65 90 c || (between 192 222 c && negb (code c =? 215)%N)
  then ascii_of_N (code c + 32)
  else c.

Definition lower (s : str) : str := map lower_char s.

Fixpoint dropwhile (p : ascii -> bool) (s : str) : str :=
  match s with
  | c :: s' => if p c then dropwhile p s' else s
  | [] => []
  end.

Fixpoint takewhile (p : ascii -> bool) (s : str) : str :=
  match s with
  | c :: s' => if p c then c :: takewhile p s' else []
  | [] => []
  end.

(** [s.lstrip(...)], [s.rstrip(...)], [s.strip(...)] for the set of
    characters [p]. *)
Definition lstrip_of (p : ascii -> bool) (s : str) : str := dropwhile p s.
Definition rstrip_of (p : ascii -> bool) (s : str) : str :=
  rev (dropwhile p (rev s)).
Definition strip_of (p : ascii -> bool) (s : str) : str :=
  rstrip_of p (lstrip_of p s).

(** [s.strip()]. *)
Definition strip (s : str) : str := strip_of isspace s.

(** [c in chars]. *)
Definition char_in (chars : str) (c : ascii) : bool := existsb (is_char c) chars.

(** [s.replace(old, new)] for a one-character [old]. *)
Definition replace (old : ascii) (new : str) (s : str) : str :=
  flat_map (fun c => if is_char old c then new else [c]) s.

Fixpoint startswith (prefix s : str) : bool :=
  match prefix, s with
  | [], _ => true
  | a :: prefix', c :: s' => Ascii.eqb a c && startswith prefix' s'
  | _ :: _, [] => false
  end.

Definition endswith (suffix s : str) : bool := startswith (rev suffix) (rev s).

(** [sub in s] (JavaScript: [s.includes(sub)]). *)
Fixpoint contains (sub s : str) : bool :=
  startswith sub s
  || match s with
     | _ :: s' => contains sub s'
     | [] => false
     end.

(** [s.find(c)]: the index of the first [c], if any. *)
Fixpoint find (c : ascii) (s : str) : option nat :=
  match s with
  | [] => None
  | a :: s' => if is_char c a then Some O else option_map S (find c s')
  end.

(** [s[:-1]]. *)
Definition chop (s : str) : str := removelast s.

(** [s or default]. *)
Definition or_else (s default : str) : str :=
  match s with
  | [] => default
  | _ :: _ => s
  end.

Definition str_eqb (a b : str) : bool :=
  if list_eq_dec ascii_dec a b then true else false.

(** [t] is [s] without some of its first characters: [s[i:]]. *)
Definition suffix (t s : str) : Prop := exists pre, s = pre ++ t.

End Text.

(* ------------------------------------------------------------------ *)
(** ** Regex: the patterns compiled with [re]                           *)
(* ------------------------------------------------------------------ *)

Module Regex.
Import Text.

(** The fragment of the pattern language the module uses.  Repetition only
    ever applies to a one-character class. *)
Inductive re : Type :=
| Chars (l : str)                                   (* literal text *)
| Rep (greedy : bool) (least : nat) (cls : ascii -> bool)
                                                    (* c*, c+, c*?, c+? *)
| Cat (r1 r2 : re)                                  (* r1 r2 *)
| Opt (r : re)                                      (* (?:r)? *)
| Grp (name : string) (r : re).                     (* (?P<name>r) *)

(** Group bindings, latest first. *)
Definition groups : Type := list (string * str).

(** [m.group(name)]: [None] for a group that took no part in the match. *)
Fixpoint group (name : string) (g : groups) : option str :=
  match g with
  | [] => None
  | (n, v) :: g' => if String.eqb n name then Some v else group name g'
  end.

(** What [s] lost in becoming its suffix [rest]. *)
Definition consumed (s rest : str) : str := firstn (length s - length rest) s.

Section Exec.
Variable R : Type.
(** [re.IGNORECASE]. *)
Variable ignorecase : bool.

Definition same_char (a c : ascii) : bool :=
  if ignorecase then Ascii.eqb (lower_char a) (lower_char c) else Ascii.eqb a c.

(** A literal against the head of the subject. *)
Fixpoint chars (l : str) (s : str) : option str :=
  match l, s with
  | [], _ => Some s
  | a :: l', c :: s' => if same_char a c then chars l' s' else None
  | _ :: _, [] => None
  end.

(** The first alternative that succeeds. *)
Definition orelse (a : option R) (b : option R) : option R :=
  match a with
  | Some x => Some x
  | None => b
  end.

(** Greedy repetition: one more character first, stopping here second;
    stopping is allowed once [least] characters have been taken. *)
Fixpoint rep_greedy (cls : ascii -> bool) (least : nat) (s : str)
  (k : str -> option R) : option R :=
  let stop := match least with O => k s | S _ => None end in
  match s with
  | c :: s' => if cls c then orelse (rep_greedy cls (pred least) s' k) stop
               else stop
  | [] => stop
  end.

(** Lazy repetition: stopping here first, one more character second. *)
Fixpoint rep_lazy (cls : ascii -> bool) (least : nat) (s : str)
  (k : str -> option R) : option R :=
  let stop := match least with O => k s | S _ => None end in
  match s with
  | c :: s' => if cls c then orelse stop (rep_lazy cls (pred least) s' k)
               else stop
  | [] => stop
  end.

(** The backtracking matcher in continuation-passing style: [exec r g s k]
    matches [r] at the head of [s] and hands the bindings and the rest of
    the subject to [k]; when [k] fails the next way of matching [r] is
    tried, in the order of preference of [re]. *)
Fixpoint exec (r : re) (g : groups) (s : str)
  (k : groups -> str -> option R) : option R :=
  match r with
  | Chars l =>
      match chars l s with
      | Some rest => k g rest
      | None => None
      end
  | Rep true least cls => rep_greedy cls least s (k g)
  | Rep false least cls => rep_lazy cls least s (k g)
  | Cat r1 r2 => exec r1 g s (fun g1 s1 => exec r2 g1 s1 k)
  | Opt r1 => orelse (exec r1 g s k) (k g s)
  | Grp name r1 =>
      exec r1 g s (fun g1 s1 => k ((name, consumed s s1) :: g1) s1)
  end.

End Exec.

Arguments orelse {R} a b.
Arguments rep_greedy {R} cls least s k.
Arguments rep_lazy {R} cls least s k.
Arguments exec {R} ignorecase r g s k.

(** A match object: the text matched, its groups, the rest of the subject. *)
Record Match : Type := mkMatch {
  matched : str;
  bindings : groups;
  after : str
}.

(** [pattern.match(s)] at the head of [s]. *)
Definition match_here (ignorecase : bool) (r : re) (s : str) : option Match :=
  exec ignorecase r [] s (fun g rest => Some (mkMatch (consumed s rest) g rest)).

(** [pattern.finditer(s)]: leftmost matches, each search starting where the
    previous match ended; after an empty match the scan moves one character
    on.  The budget bounds the number of scan steps. *)
Fixpoint finditer_from (fuel : nat) (ignorecase : bool) (r : re) (s : str)
  : list Match :=
  match fuel with
  | O => []
  | S fuel' =>
      match match_here ignorecase r s with
      | Some m =>
          match matched m with
          | _ :: _ => m :: finditer_from fuel' ignorecase r (after m)
          | [] => m :: match s with
                       | _ :: s' => finditer_from fuel' ignorecase r s'
                       | [] => []
                       end
          end
      | None =>
          match s with
          | _ :: s' => finditer_from fuel' ignorecase r s'
          | [] => []
          end
      end
  end.

Definition finditer (ignorecase : bool) (r : re) (s : str) : list Match :=
  finditer_from (S (length s)) ignorecase r s.

(** [re.sub(pattern, repl, s)] for a literal replacement. *)
Fixpoint sub_from (fuel : nat) (ignorecase : bool) (r : re) (repl s : str)
  : str :=
  match fuel with
  | O => s
  | S fuel' =>
      match match_here ignorecase r s with
      | Some m =>
          match matched m with
          | _ :: _ => repl ++ sub_from fuel' ignorecase r repl (after m)
          | [] => repl ++ match s with
                          | c :: s' => c :: sub_from fuel' ignorecase r repl s'
                          | [] => []
                          end
          end
      | None =>
          match s with
          | c :: s' => c :: sub_from fuel' ignorecase r repl s'
          | [] => []
          end
      end
  end.

Definition sub (ignorecase : bool) (r : re) (repl s : str) : str :=
  sub_from (S (length s)) ignorecase r repl s.

(** Classes. *)
Definition any_char (_ : ascii) : bool := true.          (* . with DOTALL *)
Definition not_space (c : ascii) : bool := negb (isspace c).   (* [^\s] *)

End Regex.

(* ------------------------------------------------------------------ *)
(** ** Naming: output file names                                        *)
(* ------------------------------------------------------------------ *)

Module Naming.
Import Text Regex.

Definition quote_char : ascii := ascii_of_N 34.

(** The character class of the first [re.sub] of
    [sanitize_filename_component]: the nine punctuation marks (less-than,
    greater-than, colon, double quote, slash, backslash, bar, question
    mark, star) and the code points 0x00..0x1F. *)
Definition illegal (c : ascii) : bool :=
  char_in (lit "<>:/\|?*") c || is_char quote_char c || between 0 31 c.

Definition underscore (c : ascii) : bool := is_char "_" c.

Definition sanitize_filename_component (s : str) : str :=
  let s := strip s in
  let s := sub false (Rep true 1 illegal) (lit "_") s in
  let s := sub false (Rep true 1 underscore) (lit "_") s in
  let s := strip_of underscore s in
  or_else s (lit "file").

(** *** [urllib.parse.urlparse]

    The standard library function, as CPython 3.11 and 3.12 define it for a
    [str] argument with the default [scheme] and [allow_fragments].  Not
    modelled: [_checknetloc], which raises only for a netloc whose NFKC
    normal form gains one of [/?#@:], and no code point below U+0100 has
    such a normal form. *)

Record ParseResult : Type := mkParse {
  scheme : str;
  netloc : str;
  path : str;
  params : str;
  query : str;
  fragment : str
}.

Definition c0_control_or_space (c : ascii) : bool := between 0 32 c.
Definition unsafe_to_remove (c : ascii) : bool :=
  (code c =? 9)%N || (code c =? 13)%N || (code c =? 10)%N.

Definition ascii_alpha (c : ascii) : bool := between 65 90 c || between 97 122 c.
Definition scheme_char (c : ascii) : bool :=
  ascii_alpha c || between 48 57 c || char_in (lit "+-.") c.

Definition uses_params : list str :=
  map lit [""; "ftp"; "hdl"; "prospero"; "http"; "imap"; "https"; "shttp";
           "rtsp"; "rtspu"; "sip"; "sips"; "mms"; "sftp"; "tel"]%string.

(** [s.split(c, 1)] when [c] occurs in [s]: the text before the first [c]
    and the text after it. *)
Fixpoint split_first (c : ascii) (s : str) : option (str * str) :=
  match s with
  | [] => None
  | a :: s' =>
      if is_char c a then Some ([], s')
      else match split_first c s' with
           | Some (before, rest) => Some (a :: before, rest)
           | None => None
           end
  end.

(** The longest prefix free of the characters [p], and what follows it. *)
Fixpoint break (p : ascii -> bool) (s : str) : str * str :=
  match s with
  | [] => ([], [])
  | a :: s' =>
      if p a then ([], s)
      else let '(before, rest) := break p s' in (a :: before, rest)
  end.

(** [_splitnetloc(url, 2)]: the netloc runs from index 2 to the first of
    [/], [?], [#]. *)
Definition splitnetloc (url : str) : str * str :=
  break (char_in (lit "/?#")) (skipn 2 url).

(** [_splitparams]: the parameters follow the first [;] of the last path
    segment. *)
Definition last_segment (url : str) : str :=
  rev (fst (break (is_char "/") (rev url))).

Definition splitparams (url : str) : str * str :=
  let seg := last_segment url in
  let dir := firstn (length url - length seg) url in
  match split_first ";" seg with
  | Some (before, rest) => (dir ++ before, rest)
  | None => (url, [])
  end.

(** The first lines of [urlsplit]: leading C0 controls and spaces are
    stripped, then TAB, CR and LF are removed everywhere. *)
Definition preprocess (url : str) : str :=
  filter (fun c => negb (unsafe_to_remove c)) (lstrip_of c0_control_or_space url).

(** The scheme: the text before the first [:] when it starts with a letter
    and holds scheme characters only. *)
Definition split_scheme (url : str) : str * str :=
  match find ":" url, url with
  | Some (S i), c :: _ =>
      if ascii_alpha c && forallb scheme_char (firstn (S i) url)
      then (lower (firstn (S i) url), skipn (S (S i)) url)
      else ([], url)
  | _, _ => ([], url)
  end.

(** Fragment, then query: what is left is the path. *)
Definition split_tail (url : str) : str * str * str :=
  let '(url, fragment) :=
    match split_first "#" url with
    | Some (before, rest) => (before, rest)
    | None => (url, [])
    end in
  let '(url, query) :=
    match split_first "?" url with
    | Some (before, rest) => (before, rest)
    | None => (url, [])
    end in
  (url, query, fragment).

Section Urlparse.

(** [_check_bracketed_netloc] validates the bracketed host as an IP literal
    (CPython 3.11.4 and later; earlier versions accept any).  The check is a
    parameter: [true] when it passes. *)
Variable bracketed_netloc_ok : str -> bool.

(** The netloc, for a URL that goes on with [//]; square brackets must come
    in pairs. *)
Definition locate (url : str) : outcome (str * str) :=
  if startswith (lit "//") url then
    let '(netloc, rest) := splitnetloc url in
    let opens := char_in netloc "[" in
    let closes := char_in netloc "]" in
    if (opens && negb closes) || (closes && negb opens)
    then Raise ValueError
    else if opens && closes && negb (bracketed_netloc_ok netloc)
    then Raise ValueError
    else Ret (netloc, rest)
  else Ret ([], url).

Definition urlsplit (url : str) : outcome (str * str * str * str * str) :=
  let url := preprocess url in
  let '(scheme, url) := split_scheme url in
  (located <- locate url ;;
   let '(netloc, url) := located in
   let '(url, query, fragment) := split_tail url in
   Ret (scheme, netloc, url, query, fragment))%outcome.

Definition urlparse (url : str) : outcome ParseResult :=
  (parts <- urlsplit url ;;
   let '(scheme, netloc, url, query, fragment) := parts in
   let '(url, params) :=
     if existsb (str_eqb scheme) uses_params && char_in url ";"
     then splitparams url
     else (url, []) in
   Ret (mkParse scheme netloc url params query fragment))%outcome.

(** *** [url_to_filename] *)

(** The body of [url_to_filename] below the call of [urlparse]. *)
Definition filename_of (netloc path : str) : str :=
  let host := replace "." (lit "_") (or_else netloc (lit "site")) in
  let path := or_else path (lit "/") in
  let path := if endswith (lit "/") path then chop path else path in
  let path := or_else path (lit "/index.html") in
  let path := lstrip_of (is_char "/") path in
  let path_part := replace "." (lit "_") (replace "/" (lit "_") path) in
  let base := match path_part with
              | [] => host
              | _ :: _ => host ++ lit "_" ++ path_part
              end in
  let base := sanitize_filename_component base in
  if endswith (lit ".pdf") (lower base) then base else base ++ lit ".pdf".

Definition url_to_filename (url : str) : outcome str :=
  (parsed <- urlparse url ;;
   Ret (filename_of (netloc parsed) (path parsed)))%outcome.

End Urlparse.

(** [default_timestamped_name], given the text of
    [datetime.now().strftime("%Y%m%d_%H%M%S")]. *)
Definition default_timestamped_name (ts : str) (url : str) : str :=
  sanitize_filename_component url ++ lit "_" ++ ts ++ lit ".pdf".

(** [host_of]. *)
Definition host_of (bracketed_netloc_ok : str -> bool) (url : str) : outcome str :=
  (parsed <- urlparse bracketed_netloc_ok url ;; Ret (lower (netloc parsed)))%outcome.

(** The two characters that end the part of a URL the name is made of. *)
Definition is_mark (c : ascii) : bool := char_in (lit "?#") c.

(** A URL up to its first [?] or [#]: what is left of it without query
    string and fragment. *)
Definition stem (url : str) : str := fst (break is_mark url).

(** Text free of [?] and [#], and text that is empty or starts with one. *)
Definition clean (s : str) : Prop := Forall (fun c => is_mark c = false) s.

Definition tail_ok (rest : str) : Prop :=
  match rest with
  | [] => True
  | d :: _ => is_mark d = true
  end.

(** The most permissive check of a bracketed host. *)
Definition any_bracketed_host (_ : str) : bool := true.

Definition no_stop (s : str) : Prop := Forall (fun c => c <> "."%char) s.

(** The characters a file name must not hold. *)
Definition legal_name (name : str) : Prop :=
  Forall (fun c => illegal c = false) name.

End Naming.

(* ------------------------------------------------------------------ *)
(** ** Captcha: the challenge classifier                                *)
(* ------------------------------------------------------------------ *)

Module Captcha.
Import Text.

(** What the script of [detect_captcha] reads of the page: [d.title || ""],
    [d.body ? d.body.innerText : ""], and whether [d.querySelector(s)]
    finds an element. *)
Record Document : Type := mkDocument {
  title : str;
  body_text : str;
  querySelector : str -> bool
}.

Record Detection : Type := mkDetection {
  found : bool;
  provider : str;
  signals : list str
}.

(** [if (cond) signals.push(name)]. *)
Definition push_if (cond : bool) (name : str) : list str :=
  if cond then [name] else [].

(** The three provider conditions of the script. *)
Definition cloudflare_marks (sel : str -> bool) (bodyText : str) : bool :=
  sel (lit "#cf-challenge") || sel (lit "#challenge-form")
  || sel (lit "#challenge-stage")
  || sel (lit "iframe[src*='challenges.cloudflare.com']")
  || contains (lit "cloudflare") bodyText.

Definition recaptcha_marks (sel : str -> bool) (bodyText : str) : bool :=
  sel (lit "iframe[src*='www.google.com/recaptcha']") || sel (lit ".g-recaptcha")
  || contains (lit "recaptcha") bodyText.

Definition hcaptcha_marks (sel : str -> bool) (bodyText : str) : bool :=
  sel (lit "iframe[src*='hcaptcha.com']") || contains (lit "hcaptcha") bodyText.

(** The signals in the order the script pushes them. *)
Definition collect_signals (d : Document) : list str :=
  let title := lower (title d) in
  let bodyText := lower (body_text d) in
  let sel := querySelector d in
  push_if (contains (lit "verify you are human") bodyText)
          (lit "text: verify you are human")
  ++ push_if (contains (lit "i'm not a robot") bodyText
              || contains (lit "im not a robot") bodyText)
             (lit "text: i'm not a robot")
  ++ push_if (contains (lit "checking your browser before accessing") bodyText)
             (lit "text: checking your browser")
  ++ push_if (contains (lit "complete the security check") bodyText)
             (lit "text: security check")
  ++ push_if (contains (lit "just a moment") title) (lit "title: just a moment")
  ++ push_if (contains (lit "attention required") title)
             (lit "title: attention required")
  ++ push_if (cloudflare_marks sel bodyText) (lit "cloudflare selectors")
  ++ push_if (recaptcha_marks sel bodyText) (lit "recaptcha selectors")
  ++ push_if (hcaptcha_marks sel bodyText) (lit "hcaptcha selectors").

(** [signals.some(s => s.includes(word))]. *)
Definition some_includes (word : str) (signals : list str) : bool :=
  existsb (contains word) signals.

(** The value the script returns. *)
Definition classify (d : Document) : Detection :=
  let signals := collect_signals d in
  let found := (0 <? length signals)%nat in
  let provider :=
    if some_includes (lit "cloudflare") signals then lit "cloudflare"
    else if some_includes (lit "recaptcha") signals then lit "recaptcha"
    else if some_includes (lit "hcaptcha") signals then lit "hcaptcha"
    else if found then lit "generic"
    else lit "unknown" in
  mkDetection found provider signals.

(** [page.evaluate(js)]: the script ran on a document, or the call raised. *)
Inductive Evaluation : Type :=
| Evaluated (d : Document)
| EvaluationFailed.

Definition detect_captcha (e : Evaluation) : Detection :=
  match e with
  | Evaluated d => classify d
  | EvaluationFailed => mkDetection false (lit "unknown") []
  end.

(** Some collected signal includes [word]. *)
Definition mentions (word : str) (signals : list str) : Prop :=
  exists s, In s signals /\ contains word s = true.

(** A page of the scenario: the interstitial text and nothing else. *)
Definition interstitial : Document :=
  mkDocument (lit "Please wait")
             (lit "Checking your browser before accessing example.com.")
             (fun _ => false).

End Captcha.

(* ------------------------------------------------------------------ *)
(** ** Raster: screenshot bitmaps to PDF pages                          *)
(* ------------------------------------------------------------------ *)

Module Raster.

Local Open Scope Z_scope.

(** *** Python numbers *)

(** [float(n)] for an [int] [n]: round to nearest even.  (Python raises
    [OverflowError] beyond 1.8e308; the side of an image is nowhere near.) *)
Definition float_of_int (n : Z) : float :=
  SF2Prim (binary_normalize prec emax n 0 false).

(** [int(x)] for a [float] [x]: truncation toward zero; infinities raise
    [OverflowError] and NaN raises [ValueError]. *)
Definition py_int (x : float) : outcome Z :=
  match Prim2SF x with
  | S754_zero _ => Ret 0
  | S754_finite s m e =>
      let mag := if 0 <=? e then Z.pos m * 2 ^ e else Z.pos m / 2 ^ (- e) in
      Ret (if s then - mag else mag)
  | S754_infinity _ => Raise OverflowError
  | S754_nan => Raise ValueError
  end.

(** [a / b] on floats: Python raises on a zero divisor where IEEE 754
    would answer an infinity or NaN. *)
Definition py_div (a b : float) : outcome float :=
  if PrimFloat.eqb b 0%float then Raise ZeroDivisionError else Ret (a / b)%float.

(** *** Constants *)

Definition CSS_PX_PER_INCH : float := 96.0%float.
Definition PDF_POINTS_PER_INCH : float := 72.0%float.

(** reportlab's [inch] and [letter]. *)
Definition inch : float := 72.0%float.
Definition letter : float * float := (612.0%float, 792.0%float).

(** [csspx_to_pdfpt]: the quotient of two float constants is a float and
    cannot raise. *)
Definition csspx_to_pdfpt (px : float) : float :=
  (px * (PDF_POINTS_PER_INCH / CSS_PX_PER_INCH))%float.

(** *** Images (PIL)

    The builders are followed from [img.size] on: [img] is the bitmap that
    [Image.open(BytesIO(png_bytes)).convert("RGB")] gave.  Decoding and its
    errors are not part of the model, so the statements are about bitmaps
    at least 1 px wide. *)

Definition RGB : Type := (N * N * N)%type.

Record Image : Type := mkImage {
  width_px : Z;
  height_px : Z;
  getpixel : Z -> Z -> RGB
}.

(** [img.crop((left, upper, right, lower))]. *)
Definition crop (img : Image) (box : Z * Z * Z * Z) : Image :=
  let '(x0, y0, x1, y1) := box in
  mkImage (x1 - x0) (y1 - y0) (fun x y => getpixel img (x + x0) (y + y0)).

(** *** The PDF canvas (reportlab) *)

Record DrawImage : Type := mkDraw {
  drawn : Image;
  at_x : float;
  at_y : float;
  drawn_width : float;
  drawn_height : float
}.

Record Page : Type := mkPage {
  page_size : float * float;
  page_content : list DrawImage
}.

(** A canvas holds the pages already emitted and the drawing operations of
    the page under construction. *)
Record Canvas : Type := mkCanvas {
  pagesize : float * float;
  pending : list DrawImage;
  emitted : list Page
}.

Definition new_canvas (size : float * float) : Canvas := mkCanvas size [] [].

Definition drawImage (c : Canvas) (img : Image) (x y w h : float) : Canvas :=
  mkCanvas (pagesize c) (pending c ++ [mkDraw img x y w h]) (emitted c).

(** [showPage] closes the page under construction, drawn on or not. *)
Definition showPage (c : Canvas) : Canvas :=
  mkCanvas (pagesize c) [] (emitted c ++ [mkPage (pagesize c) (pending c)]).

(** [save] first closes a page that has pending operations. *)
Definition save (c : Canvas) : list Page :=
  match pending c with
  | [] => emitted c
  | _ :: _ => emitted (showPage c)
  end.

(** *** [screenshot_to_singlepage_pdf] *)

Definition screenshot_to_singlepage_pdf (img : Image) : list Page :=
  let width_pt := csspx_to_pdfpt (float_of_int (width_px img)) in
  let height_pt := csspx_to_pdfpt (float_of_int (height_px img)) in
  let c := new_canvas (width_pt, height_pt) in
  let c := drawImage c img 0%float 0%float width_pt height_pt in
  let c := showPage c in
  save c.

(** *** [screenshot_to_paginated_letter_pdf] *)

(** The page geometry computed before the loop. *)
Record Layout : Type := mkLayout {
  page_h_pt : float;
  margin_pt : float;
  content_w_pt : float;
  scale : float;
  native_px_per_page : Z
}.

Definition layout (width : Z) (margin_in : float) : outcome Layout :=
  (let '(page_w, page_h) := letter in
   let margin := (margin_in * inch)%float in
   let content_w := (page_w - 2 * margin)%float in
   let content_h := (page_h - 2 * margin)%float in
   let width_pt_native := csspx_to_pdfpt (float_of_int width) in
   sc <- py_div content_w width_pt_native ;;
   native_pt_per_page <- py_div content_h sc ;;
   n <- py_int (native_pt_per_page * (CSS_PX_PER_INCH / PDF_POINTS_PER_INCH))%float ;;
   Ret (mkLayout page_h margin content_w sc (Z.max 1 n)))%outcome.

(** One iteration of the [while y_top_px < height_px] body: the new value
    of [y_top_px] and the canvas after [drawImage] and [showPage]. *)
Definition slice_step (img : Image) (g : Layout) (y_top : Z) (c : Canvas)
  : Z * Canvas :=
  let y_bottom := Z.min (height_px img) (y_top + native_px_per_page g) in
  let tile := crop img (0, y_top, width_px img, y_bottom) in
  let tile_h_pt := (csspx_to_pdfpt (float_of_int (height_px tile)) * scale g)%float in
  let x_pt := margin_pt g in
  let y_pt := (page_h_pt g - margin_pt g - tile_h_pt)%float in
  (y_bottom, showPage (drawImage c tile x_pt y_pt (content_w_pt g) tile_h_pt)).

(** [y_bottom_px] of the band that starts at [y]: the next [y_top_px]. *)
Definition next_top (img : Image) (g : Layout) (y : Z) : Z :=
  Z.min (height_px img) (y + native_px_per_page g).

(** The loop, on a budget of iterations; [None]: the budget ran out while
    the loop condition still held. *)
Fixpoint slice_loop (fuel : nat) (img : Image) (g : Layout) (y_top : Z)
  (c : Canvas) : option Canvas :=
  if y_top <? height_px img then
    match fuel with
    | O => None
    | S fuel' =>
        let '(y_next, c') := slice_step img g y_top c in
        slice_loop fuel' img g y_next c'
    end
  else Some c.

Definition screenshot_to_paginated_letter_pdf (fuel : nat) (img : Image)
  (margin_in : float) : option (outcome (list Page)) :=
  match layout (width_px img) margin_in with
  | Raise e => Some (Raise e)
  | Ret g =>
      match slice_loop fuel img g 0 (new_canvas letter) with
      | None => None
      | Some c => Some (Ret (save c))
      end
  end.

(** The default [margin_in=0.5]. *)
Definition default_margin_in : float := 0.5%float.

(** *** Vocabulary of the statements *)

(** Pixel height of the band drawn on a page (pages of this module carry
    one image each). *)
Definition band_height (p : Page) : Z :=
  match page_content p with
  | d :: _ => height_px (drawn d)
  | [] => 0
  end.

Definition sum_Z (l : list Z) : Z := fold_right Z.add 0 l.

(** [ceil(h / b)] for [b > 0]. *)
Definition ceil_div (h b : Z) : Z := (h + b - 1) / b.

(** The bands stacked top to bottom, read as one pixel map: row [y] of the
    stack is row [y - (heights above)] of the band it falls in. *)
Fixpoint stacked (bands : list Image) (x y : Z) : option RGB :=
  match bands with
  | [] => None
  | b :: rest =>
      if y <? height_px b then Some (getpixel b x y)
      else stacked rest x (y - height_px b)
  end.

Definition page_image (p : Page) : list Image := map drawn (page_content p).

Definition tiles (pages : list Page) : list Image := flat_map page_image pages.

(** What a page of the paginated output looks like: the canvas page size,
    and one image as wide as the source and between 1 and the band height
    tall. *)
Definition band_page (img : Image) (g : Layout) (size : float * float)
  (p : Page) : Prop :=
  page_size p = size /\
  exists d, page_content p = [d]
            /\ width_px (drawn d) = width_px img
            /\ 1 <= height_px (drawn d) <= native_px_per_page g.

(** A sample bitmap: 1366 x 5000 px, a vertical gradient. *)
Definition tall_screenshot : Image :=
  mkImage 1366 5000 (fun _ y => (Z.to_N (y mod 256), 0%N, 0%N)).

Definition tall_layout : outcome Layout :=
  Eval vm_compute in layout 1366 default_margin_in.

End Raster.

(* ------------------------------------------------------------------ *)
(** ** SiteRules: per-site override blocks                              *)
(* ------------------------------------------------------------------ *)

Module SiteRules.
Import Text Regex.

Record SiteRule : Type := mkRule {
  domain : str;
  css : str;
  js : str
}.

Declare Scope re_scope.
Delimit Scope re_scope with re.
Infix "+>" := Cat (at level 60, right associativity) : re_scope.

(** The pattern of [parse_site_rules], piece by piece as it is written:
<<
    @domain\s+(?P<domain>[^\s]+)\s+
    (?:CSS:\s*(?P<css>.*?))?
    (?:\s+JS:\s*(?P<js>.*?))?
    \s*@end
>>
    compiled with [re.IGNORECASE | re.DOTALL]. *)
Definition css_section : re :=
  (Chars (lit "CSS:") +> Rep true 0 isspace +> Grp "css" (Rep false 0 any_char))%re.

Definition js_section : re :=
  (Rep true 1 isspace +> Chars (lit "JS:") +> Rep true 0 isspace
   +> Grp "js" (Rep false 0 any_char))%re.

Definition terminator : re :=
  (Rep true 0 isspace +> Chars (lit "@end"))%re.

(** The end of a block: the optional JS section, then the terminator. *)
Definition block_end : re := (Opt js_section +> terminator)%re.

Definition pattern : re :=
  (Chars (lit "@domain") +> Rep true 1 isspace
   +> Grp "domain" (Rep true 1 not_space) +> Rep true 1 isspace
   +> Opt css_section
   +> Opt js_section
   +> terminator)%re.

(** [m.group(name) or ""]. *)
Definition group_or_empty (name : string) (m : Match) : str :=
  match group name (bindings m) with
  | Some v => v
  | None => []
  end.

Definition rule_of_match (m : Match) : SiteRule :=
  mkRule (lower (strip (group_or_empty "domain" m)))
         (strip (group_or_empty "css" m))
         (strip (group_or_empty "js" m)).

Definition parse_site_rules (text : str) : list SiteRule :=
  match strip text with
  | [] => []
  | _ :: _ => map rule_of_match (finditer true pattern text)
  end.

(** The test of the loop body of [match_rules_for_host], on the lower-cased
    host. *)
Definition rule_applies (host : str) (r : SiteRule) : bool :=
  let d := lstrip_of (is_char ".") (domain r) in
  str_eqb host d || endswith (lit "." ++ d) host.

Definition match_rules_for_host (rules : list SiteRule) (host : str)
  : list SiteRule :=
  let host := lower host in
  filter (rule_applies host) rules.

(** *** Vocabulary of the statements *)

(** [a] is [b] with some elements left out, order kept. *)
Inductive subseq {A : Type} : list A -> list A -> Prop :=
| subseq_nil : subseq [] []
| subseq_skip (x : A) (a b : list A) : subseq a b -> subseq a (x :: b)
| subseq_keep (x : A) (a b : list A) : subseq a b -> subseq (x :: a) (x :: b).

(** The host test as the code computes it: [d] is the rule's domain
    without leading dots, [h] the lower-cased host. *)
Definition host_matches (h : str) (r : SiteRule) : Prop :=
  let d := lstrip_of (is_char ".") (domain r) in
  h = d \/ exists front, h = front ++ lit "." ++ d.

Definition spaces (s : str) : Prop := Forall (fun c => isspace c = true) s.

Definition word (s : str) : Prop :=
  s <> [] /\ Forall (fun c => isspace c = false) s.

(** Text without white space at either end. *)
Definition trimmed (s : str) : Prop :=
  s = [] \/ exists c0 mid front z,
             s = c0 :: mid /\ isspace c0 = false
             /\ s = front ++ [z] /\ isspace z = false.

(** [sub.lower() in s.lower()]. *)
Definition contains_ci (sub s : str) : bool := contains (lower sub) (lower s).

Definition example_rule : SiteRule := mkRule (lit "example.com") (lit "a{}") [].
Definition dotted_rule : SiteRule := mkRule (lit ".example.com") (lit "a{}") [].

Definition newline : str := [ascii_of_N 10].






End SiteRules.

(* ------------------------------------------------------------------ *)
(** ** Capture: the control flow of [capture_one]                       *)
(* ------------------------------------------------------------------ *)

Module Capture.
Import Text.

(** *** The browser, the human and the clock

    [capture_one] drives two browser sessions and waits for a human.  All
    of that is outside the program: a [World] answers every call, and may
    let its answer depend on everything that happened before.  A run is
    the history of the calls with the answers they got, newest first, and
    the way the function ended. *)

Inductive Session : Type :=
| Primary    (* the headless [page] the batch reuses *)
| Visible.   (* [aux_browser], [aux_ctx], [aux_page] *)

Inductive Mode : Type := Screenshot | Print.

Record Path : Type := mkPath { folder : str; file_name : str }.

Record CaptureOptions : Type := mkOptions {
  mode : Mode;
  exact_single_page : bool;
  filename_from_url : bool;
  output_dir : str
}.

Definition Cookie : Type := str.

Inductive Error : Type :=
| PlaywrightTimeout            (* playwright's TimeoutError *)
| PlaywrightError              (* any other exception of a browser call *)
| PythonError (e : exn).       (* raised by the program's own helpers *)

(** Calls that return nothing the program looks at. *)
Inductive Op : Type :=
| Goto (s : Session)                      (* page.goto(url, ...) *)
| Launch                                  (* chromium.launch(headless=False) *)
| NewContext                              (* aux_browser.new_context(...) *)
| NewPage                                 (* aux_ctx.new_page() *)
| AddCookies (s : Session) (cs : list Cookie)
| Prompt                                  (* prompt_captcha_dialog(...) *)
| Prepare (s : Session)                   (* prepare_page_for_capture *)
| EmulateMedia                            (* page.emulate_media *)
| MeasureHeight                           (* page.evaluate(content height) *)
| PrintPdf (out : Path)                   (* page.pdf(path=out_path, ...) *)
| TakeScreenshot (s : Session)            (* page.screenshot(full_page=True) *)
| BuildPdf (single : bool) (out : Path)   (* screenshot_to_*_pdf(png, out_path) *)
| CloseContext                            (* aux_ctx.close() *)
| CloseBrowser.                           (* aux_browser.close() *)

Inductive Result : Type :=
| Done
| Raises (e : Error).

(** What [event.wait] ends with: the button the human clicked, which is
    the value of [decision["action"]], or nothing, ever. *)
Inductive Reply : Type :=
| Clicked (action : str)
| Silent.

Inductive LogLine : Type :=
| LogNavigate | LogNavigationTimedOut | LogCaptchaDetected | LogWindowOpened
| LogSkipped | LogImported | LogImportFailed | LogPrintFailedInHandoff
| LogFallbackError | LogCaptureScreenshot | LogCapturePrint
| LogPrintFailed | LogSaved.

Inductive Event : Type :=
| Called (op : Op) (r : Result)
| Evaluated (s : Session) (found : bool)          (* detect_captcha *)
| ReadCookies (s : Session) (cs : option (list Cookie))
| Waited (r : Reply)
| ReadClock (ts : str)
| Logged (l : LogLine).

Definition History : Type := list Event.

Record World : Type := mkWorld {
  call : History -> Op -> Result;
  evaluate : History -> Session -> Captcha.Evaluation;
  cookies : History -> Session -> option (list Cookie);   (* [None]: raised *)
  human : History -> Reply;
  clock : History -> str
}.

(** How a computation ends. *)
Inductive Res (A : Type) : Type :=
| Returns (a : A)
| Raised (e : Error)
| Blocked.                      (* waits for ever *)

Arguments Returns {A} a.
Arguments Raised {A} e.
Arguments Blocked {A}.

Definition M (A : Type) : Type := History -> History * Res A.

Definition ret {A : Type} (a : A) : M A := fun h => (h, Returns a).

Definition raise {A : Type} (e : Error) : M A := fun h => (h, Raised e).

Definition bind {A B : Type} (m : M A) (k : A -> M B) : M B :=
  fun h =>
    let '(h1, r) := m h in
    match r with
    | Returns a => k a h1
    | Raised e => (h1, Raised e)
    | Blocked => (h1, Blocked)
    end.

(** [try: m  except Exception as e: handler(e)]. *)
Definition try_except {A : Type} (m : M A) (handler : Error -> M A) : M A :=
  fun h =>
    let '(h1, r) := m h in
    match r with
    | Raised e => handler e h1
    | _ => (h1, r)
    end.

(** [try: m  except PlaywrightTimeout: handler]. *)
Definition try_except_timeout {A : Type} (m : M A) (handler : M A) : M A :=
  fun h =>
    let '(h1, r) := m h in
    match r with
    | Raised PlaywrightTimeout => handler h1
    | _ => (h1, r)
    end.

Declare Scope run_scope.
Delimit Scope run_scope with run.
Notation "x <- m ;; k" := (bind m (fun x => k))
  (at level 61, m at next level, right associativity) : run_scope.
Notation "m ;; k" := (bind m (fun _ => k))
  (at level 61, right associativity) : run_scope.

Section Program.

Variable w : World.
(** The check of bracketed hosts inside [urlparse]. *)
Variable bracketed_netloc_ok : str -> bool.
(** Whether a [prompt_captcha_dialog] was passed. *)
Variable has_dialog : bool.

Local Open Scope run_scope.

Definition do (op : Op) : M unit :=
  fun h =>
    match call w h op with
    | Done => (Called op Done :: h, Returns tt)
    | Raises e => (Called op (Raises e) :: h, Raised e)
    end.

(** [logcb(...)], taken to return normally. *)
Definition log (l : LogLine) : M unit := fun h => (Logged l :: h, Returns tt).

(** [detect_captcha(page)]: its [found]. *)
Definition detect (s : Session) : M bool :=
  fun h =>
    if Captcha.found (Captcha.detect_captcha (evaluate w h s))
    then (Evaluated s true :: h, Returns true)
    else (Evaluated s false :: h, Returns false).

(** [context.cookies()] and [aux_ctx.storage_state()]. *)
Definition read_cookies (s : Session) : M (list Cookie) :=
  fun h =>
    match cookies w h s with
    | Some l => (ReadCookies s (Some l) :: h, Returns l)
    | None => (ReadCookies s None :: h, Raised PlaywrightError)
    end.

(** [loop.run_in_executor(None, event.wait)]: without a dialog nobody sets
    the event. *)
Definition wait_for_human : M str :=
  fun h =>
    if has_dialog then
      match human w h with
      | Clicked action => (Waited (Clicked action) :: h, Returns action)
      | Silent => (Waited Silent :: h, Blocked)
      end
    else (Waited Silent :: h, Blocked).

Definition now : M str :=
  fun h => let ts := clock w h in (ReadClock ts :: h, Returns ts).

Definition when (b : bool) (m : M unit) : M unit := if b then m else ret tt.

(** [try: await aux_ctx.close(); await aux_browser.close()
     except Exception: pass]. *)
Definition close_visible : M unit :=
  try_except (do CloseContext ;; do CloseBrowser) (fun _ => ret tt).

(** The first lines: the output path. *)
Definition out_path_of (url : str) (opts : CaptureOptions) : M Path :=
  if filename_from_url opts then
    match Naming.url_to_filename bracketed_netloc_ok url with
    | Ret name => ret (mkPath (output_dir opts) name)
    | Raise e => raise (PythonError e)
    end
  else
    ts <- now ;;
    ret (mkPath (output_dir opts) (Naming.default_timestamped_name ts url)).

(** [emulate_media], the height measurement of single-page mode, then the
    arguments of [page.pdf] (not modelled) and the call. *)
Definition before_pdf (opts : CaptureOptions) : M unit :=
  do EmulateMedia ;;
  when (exact_single_page opts) (do MeasureHeight).

(** [page.screenshot] and the PDF builder of the layout. *)
Definition raster (s : Session) (opts : CaptureOptions) (out : Path) : M unit :=
  do (TakeScreenshot s) ;;
  do (BuildPdf (exact_single_page opts) out).

(** [apply_storage_state_to_context]. *)
Definition apply_storage_state (state : list Cookie) : M unit :=
  match state with
  | [] => ret tt
  | _ :: _ =>
      try_except (do (AddCookies Primary state) ;; log LogImported)
                 (fun _ => log LogImportFailed)
  end.

(** Step 1 and 2 of the episode: the visible window, the dialog, the
    wait. *)
Definition open_and_ask : M str :=
  do Launch ;;
  do NewContext ;;
  try_except (cs <- read_cookies Primary ;;
              match cs with
              | [] => ret tt
              | _ :: _ => do (AddCookies Visible cs)
              end)
             (fun _ => ret tt) ;;
  do NewPage ;;
  try_except (do (Goto Visible)) (fun _ => ret tt) ;;
  when has_dialog (do Prompt) ;;
  log LogWindowOpened ;;
  wait_for_human.

(** Step 3: in print mode, the headless page again. [Some out]: the
    function returned [out_path] from here. *)
Definition print_after_solve (opts : CaptureOptions) (out : Path)
  : M (option Path) :=
  match mode opts with
  | Screenshot => ret None
  | Print =>
      found2 <- try_except (do (Goto Primary) ;; detect Primary)
                           (fun _ => ret true) ;;
      if found2 then ret None
      else
        try_except
          (do (Prepare Primary) ;;
           before_pdf opts ;;
           do (PrintPdf out) ;;
           log LogSaved ;;
           close_visible ;;
           ret (Some out))
          (fun _ => log LogPrintFailedInHandoff ;; ret None)
  end.

(** Step 4: the screenshot of the solved visible page. *)
Definition raster_from_visible (opts : CaptureOptions) (out : Path)
  : M (option Path) :=
  try_except
    (do (Prepare Visible) ;;
     raster Visible opts out ;;
     log LogSaved ;;
     close_visible ;;
     ret (Some out))
    (fun _ => log LogFallbackError ;; close_visible ;; ret None).

(** The [else] branch of the decision: steps 3 and 4. *)
Definition after_solve (opts : CaptureOptions) (out : Path) : M (option Path) :=
  state <- try_except (read_cookies Visible) (fun _ => ret []) ;;
  apply_storage_state state ;;
  printed <- print_after_solve opts out ;;
  match printed with
  | Some p => ret (Some p)
  | None => raster_from_visible opts out
  end.

(** The branch of a decision other than "continue". *)
Definition after_skip : M (option Path) :=
  log LogSkipped ;;
  close_visible ;;
  ret None.

(** The [if det.get("found")] block. [None]: control falls through to the
    normal headless path. *)
Definition handoff (opts : CaptureOptions) (out : Path) : M (option Path) :=
  action <- open_and_ask ;;
  if str_eqb action (lit "continue") then after_solve opts out
  else after_skip.

(** The end of the normal headless path: prepare and capture on the
    headless page. *)
Definition headless (opts : CaptureOptions) (out : Path) : M Path :=
  do (Prepare Primary) ;;
  match mode opts with
  | Screenshot =>
      log LogCaptureScreenshot ;;
      raster Primary opts out
  | Print =>
      log LogCapturePrint ;;
      before_pdf opts ;;
      try_except (do (PrintPdf out))
                 (fun _ => log LogPrintFailed ;; raster Primary opts out)
  end ;;
  log LogSaved ;;
  ret out.

(** [h = (urlparse(url).netloc or "").lower()]: nothing reads [h], but
    [urlparse] may raise. *)
Definition site_host (url : str) : M str :=
  match Naming.host_of bracketed_netloc_ok url with
  | Ret host => ret host
  | Raise e => raise (PythonError e)
  end.

(** The normal headless path, from its first comment to [return out_path]. *)
Definition normal_path (url : str) (opts : CaptureOptions) (out : Path)
  : M Path :=
  site_host url ;;
  headless opts out.

(** From [det = await detect_captcha(page)] on. *)
Definition after_navigation (url : str) (opts : CaptureOptions) (out : Path)
  : M Path :=
  found <- detect Primary ;;
  early <- (if found then log LogCaptchaDetected ;; handoff opts out
            else ret None) ;;
  match early with
  | Some p => ret p
  | None => normal_path url opts out
  end.

(** [capture_one].  ([page.set_viewport_size] is called without [await] and
    [page.set_default_timeout] only stores a number: neither is a call to
    the world.) *)
Definition capture_one (url : str) (opts : CaptureOptions) : M Path :=
  out <- out_path_of url opts ;;
  log LogNavigate ;;
  try_except_timeout (do (Goto Primary)) (log LogNavigationTimedOut) ;;
  after_navigation url opts out.

End Program.

(** *** Vocabulary of the statements *)

Definition count (p : Event -> bool) (h : History) : nat := length (filter p h).

Definition closes_context (e : Event) : bool :=
  match e with Called CloseContext _ => true | _ => false end.

Definition closes_browser (e : Event) : bool :=
  match e with Called CloseBrowser _ => true | _ => false end.

Definition launches (e : Event) : bool :=
  match e with Called Launch Done => true | _ => false end.

Definition waits (e : Event) : bool :=
  match e with Waited _ => true | _ => false end.

Definition navigates_primary (e : Event) : bool :=
  match e with Called (Goto Primary) _ => true | _ => false end.

(** Calls that prepare or capture a page. *)
Definition captures (e : Event) : bool :=
  match e with
  | Called (Prepare _) _ | Called EmulateMedia _ | Called MeasureHeight _
  | Called (PrintPdf _) _ | Called (TakeScreenshot _) _
  | Called (BuildPdf _ _) _ => true
  | _ => false
  end.


Definition context_close_failed (e : Event) : bool :=
  match e with Called CloseContext (Raises _) => true | _ => false end.

(** The decision an event records, if it is the end of a wait. *)
Definition decision (e : Event) : list str :=
  match e with
  | Waited (Clicked action) => [action]
  | _ => []
  end.

(** The decisions of the human recorded in a history. *)
Definition decisions (h : History) : list str := flat_map decision h.

(** The output path handed to [page.pdf] or to a PDF builder. *)
Definition target (e : Event) : list Path :=
  match e with
  | Called (PrintPdf p) _ | Called (BuildPdf _ p) _ => [p]
  | _ => []
  end.

Definition targets (h : History) : list Path := flat_map target h.

(** What the normal headless path may add to a history: log lines and
    calls that prepare or capture the primary page. *)
Definition headless_event (e : Event) : bool :=
  match e with
  | Logged _ => true
  | Called (Prepare Primary) _ | Called EmulateMedia _ | Called MeasureHeight _
  | Called (PrintPdf _) _ | Called (TakeScreenshot Primary) _
  | Called (BuildPdf _ _) _ => true
  | _ => false
  end.

(** A call that wrote a PDF file. *)
Definition wrote (e : Event) : bool :=
  match e with
  | Called (PrintPdf _) Done | Called (BuildPdf _ _) Done => true
  | _ => false
  end.

Definition printed (e : Event) : bool :=
  match e with Called (PrintPdf _) Done => true | _ => false end.

Definition print_raised (e : Event) : bool :=
  match e with Called (PrintPdf _) (Raises _) => true | _ => false end.

(** The calls of a raster attempt: preparing the visible page, the
    screenshot, the PDF builder. *)
Definition raster_op (op : Op) : bool :=
  match op with
  | Prepare Visible | TakeScreenshot _ | BuildPdf _ _ => true
  | _ => false
  end.

Definition raster_tried (e : Event) : bool :=
  match e with Called op _ => raster_op op | _ => false end.

Definition raster_raised (e : Event) : bool :=
  match e with Called op (Raises _) => raster_op op | _ => false end.

Definition print_succeeded (h : History) : bool := existsb printed h.

Definition print_failed (h : History) : bool := existsb print_raised h.

Definition raster_attempted (h : History) : bool := existsb raster_tried h.

Definition raster_failed (h : History) : bool := existsb raster_raised h.

(** The newest event is a call that raised [e]. *)
Definition raised_by_last_call (e : Error) (h : History) : Prop :=
  match h with
  | Called _ (Raises e') :: _ => e' = e
  | _ => False
  end.

(** How a block that ends in a written file or an exception ended, read
    against the events [new] it added. *)
Definition wrote_or_raised (out : Path) (new : History) (r : Res Path) : Prop :=
  match r with
  | Returns p => p = out /\ existsb wrote new = true
  | Raised e => raised_by_last_call e new
                /\ print_succeeded new = false
                /\ implb (print_failed new) (raster_failed new) = true
  | Blocked => False
  end.

(** A world in which navigation fails with an error that is no timeout. *)
Definition navigation_fails : World :=
  mkWorld (fun _ op => match op with
                       | Goto Primary => Raises PlaywrightError
                       | _ => Done
                       end)
          (fun _ _ => Captcha.EvaluationFailed)
          (fun _ _ => Some [])
          (fun _ => Silent)
          (fun _ => lit "20250101_000000").

(** A world in which navigation times out, no challenge shows, and
    [page.pdf] fails while everything else works. *)
Definition slow_page_no_print : World :=
  mkWorld (fun _ op => match op with
                       | Goto Primary => Raises PlaywrightTimeout
                       | PrintPdf _ => Raises PlaywrightError
                       | _ => Done
                       end)
          (fun _ _ => Captcha.EvaluationFailed)
          (fun _ _ => Some [])
          (fun _ => Silent)
          (fun _ => lit "20250101_000000").

(** A world in which the page shows a challenge and the human skips. *)
Definition human_skips : World :=
  mkWorld (fun _ _ => Done)
          (fun _ _ => Captcha.Evaluated Captcha.interstitial)
          (fun _ _ => Some [])
          (fun _ => Clicked (lit "skip"))
          (fun _ => lit "20250101_000000").



(** A world in which the page shows a challenge, the visible browser
    starts, and its context cannot be created. *)
Definition context_fails : World :=
  mkWorld (fun _ op => match op with
                       | NewContext => Raises PlaywrightError
                       | _ => Done
                       end)
          (fun _ _ => Captcha.Evaluated Captcha.interstitial)
          (fun _ _ => Some [])
          (fun _ => Clicked (lit "continue"))
          (fun _ => lit "20250101_000000").

Definition sample_url : str := lit "https://example.com/a/b.html?x=1".

Definition sample_options (m : Mode) : CaptureOptions :=
  mkOptions m true true (lit "out").

Definition sample_path : Path :=
  mkPath (lit "out") (lit "example_com_a_b_html.pdf").

(** [capture_one] on the sample URL with a dialog, from an empty history;
    [urlparse] meets no bracketed host there. *)
Definition sample_run (w : World) (m : Mode) : History * Res Path :=
  capture_one w (fun _ => true) true sample_url (sample_options m) [].

End Capture.

(* ------------------------------------------------------------------ *)
(** ** CaptureTrace: more to read off a run of [capture_one]            *)
(* ------------------------------------------------------------------ *)

Module CaptureTrace.
Import Text Capture.

(** [detect_captcha] found a challenge. *)
Definition challenged (e : Event) : bool :=
  match e with Evaluated _ true => true | _ => false end.

(** A call of the print pipeline: [page.emulate_media], the height
    measurement, [page.pdf]. *)
Definition print_engine (e : Event) : bool :=
  match e with
  | Called EmulateMedia _ | Called MeasureHeight _ | Called (PrintPdf _) _ => true
  | _ => false
  end.

Definition measures (e : Event) : bool :=
  match e with Called MeasureHeight _ => true | _ => false end.

Definition prompts (e : Event) : bool :=
  match e with Called Prompt _ => true | _ => false end.

(** A call that touches the visible session. *)
Definition visible_call (e : Event) : bool :=
  match e with
  | Called Launch _ | Called NewContext _ | Called NewPage _
  | Called (Goto Visible) _ | Called (AddCookies Visible _) _
  | Called (Prepare Visible) _ | Called (TakeScreenshot Visible) _
  | Called CloseContext _ | Called CloseBrowser _
  | ReadCookies Visible _ => true
  | _ => false
  end.

(** Which PDF builder a call ran: [true] for
    [screenshot_to_singlepage_pdf]. *)
Definition build_flag (e : Event) : list bool :=
  match e with
  | Called (BuildPdf single _) _ => [single]
  | _ => []
  end.

Definition build_flags (h : History) : list bool := flat_map build_flag h.

(** Whether some call wrote a PDF file. *)
Definition wrote_file (h : History) : bool := existsb wrote h.

End CaptureTrace.

(* ------------------------------------------------------------------ *)
(** ** Batch: [run_batch]                                               *)
(* ------------------------------------------------------------------ *)

Module Batch.
Import Text Capture.

(** The calls of [run_batch] itself. *)
Inductive BatchOp : Type :=
| StartPlaywright          (* entering [async with async_playwright()] *)
| LaunchHeadless           (* p.chromium.launch, headless *)
| NewPrimaryContext        (* browser.new_context *)
| NewPrimaryPage           (* context.new_page() *)
| ClosePrimaryContext      (* context.close() *)
| ClosePrimaryBrowser      (* browser.close() *)
| StopPlaywright.          (* leaving the [async with] block *)

Inductive BatchEvent : Type :=
| Did (op : BatchOp) (r : Result)
| Announced (i n : nat) (url : str)      (* logcb("=== [i/n] url") *)
| Page (e : Event)                       (* an event of a [capture_one] *)
| Reported (url : str) (e : Error).      (* logcb("[ERROR] url: e") *)

Definition BatchHistory : Type := list BatchEvent.

(** The world of a batch answers the calls of [run_batch] and, for each
    URL, is the world of its [capture_one]; both may depend on all that
    happened in the batch so far. *)
Record BatchWorld : Type := mkBatchWorld {
  answer : BatchHistory -> BatchOp -> Result;
  page_world : BatchHistory -> World
}.

Definition BM (A : Type) : Type := BatchHistory -> BatchHistory * Res A.

Definition bret {A : Type} (a : A) : BM A := fun bh => (bh, Returns a).

Definition bbind {A B : Type} (m : BM A) (k : A -> BM B) : BM B :=
  fun bh =>
    let '(bh1, r) := m bh in
    match r with
    | Returns a => k a bh1
    | Raised e => (bh1, Raised e)
    | Blocked => (bh1, Blocked)
    end.

(** [try: m finally: f], and [async with]: [f] runs however [m] ended,
    and an exception of [f] replaces the end of [m]. *)
Definition finally {A : Type} (m : BM A) (f : BM unit) : BM A :=
  fun bh =>
    let '(bh1, r) := m bh in
    match r with
    | Blocked => (bh1, Blocked)
    | _ =>
        let '(bh2, rf) := f bh1 in
        match rf with
        | Returns _ => (bh2, r)
        | Raised e => (bh2, Raised e)
        | Blocked => (bh2, Blocked)
        end
    end.

Section Program.

Variable bw : BatchWorld.
Variable bracketed_netloc_ok : str -> bool.
Variable has_dialog : bool.
Variable opts : CaptureOptions.

Definition bdo (op : BatchOp) : BM unit :=
  fun bh =>
    match answer bw bh op with
    | Done => (Did op Done :: bh, Returns tt)
    | Raises e => (Did op (Raises e) :: bh, Raised e)
    end.

(** The [for i, url in enumerate(urls, 1)] loop with its [try] and
    [except Exception]; [n] is [len(urls)] of the whole list. *)
Fixpoint capture_all (urls : list str) (i n : nat) : BM unit :=
  fun bh =>
    match urls with
    | [] => (bh, Returns tt)
    | url :: rest =>
        let bh1 := Announced i n url :: bh in
        let '(h, r) := capture_one (page_world bw bh1) bracketed_netloc_ok
                         has_dialog url opts [] in
        let bh2 := map Page h ++ bh1 in
        match r with
        | Returns _ => capture_all rest (S i) n bh2
        | Raised e => capture_all rest (S i) n (Reported url e :: bh2)
        | Blocked => (bh2, Blocked)
        end
    end.

Definition run_batch (urls : list str) : BM unit :=
  bbind (bdo StartPlaywright) (fun _ =>
  finally
    (bbind (bdo LaunchHeadless) (fun _ =>
     bbind (bdo NewPrimaryContext) (fun _ =>
     bbind (bdo NewPrimaryPage) (fun _ =>
     finally (capture_all urls 1 (length urls))
             (bbind (bdo ClosePrimaryContext) (fun _ =>
              bdo ClosePrimaryBrowser))))))
    (bdo StopPlaywright)).

End Program.

(** *** Vocabulary of the statements *)

Definition announcement (e : BatchEvent) : list (nat * nat * str) :=
  match e with
  | Announced i n url => [(i, n, url)]
  | _ => []
  end.

(** The announcements of a batch, oldest first. *)
Definition announcements (bh : BatchHistory) : list (nat * nat * str) :=
  rev (flat_map announcement bh).

(** What [run_batch] announces for a list of URLs:
    [(1, n, u1); (2, n, u2); ...]. *)
Definition numbered (urls : list str) : list (nat * nat * str) :=
  map (fun iu => (fst iu, length urls, snd iu))
      (combine (seq 1 (length urls)) urls).

Definition bcount (p : BatchEvent -> bool) (bh : BatchHistory) : nat :=
  length (filter p bh).

Definition did (op : BatchOp) (e : BatchEvent) : bool :=
  match e, op with
  | Did StartPlaywright _, StartPlaywright
  | Did LaunchHeadless _, LaunchHeadless
  | Did NewPrimaryContext _, NewPrimaryContext
  | Did NewPrimaryPage _, NewPrimaryPage
  | Did ClosePrimaryContext _, ClosePrimaryContext
  | Did ClosePrimaryBrowser _, ClosePrimaryBrowser
  | Did StopPlaywright _, StopPlaywright => true
  | _, _ => false
  end.

Definition did_ok (op : BatchOp) (e : BatchEvent) : bool :=
  match e with
  | Did op' Done => did op e
  | _ => false
  end.

Definition reports (e : BatchEvent) : bool :=
  match e with Reported _ _ => true | _ => false end.

(** The exception [e] was raised by a call of [run_batch] itself. *)
Definition raised_by_batch (e : Error) (bh : BatchHistory) : Prop :=
  exists op, In (Did op (Raises e)) bh.

(** A batch world in which every call of [run_batch] succeeds and every
    page behaves as in [w]. *)
Definition steady (w : World) : BatchWorld :=
  mkBatchWorld (fun _ _ => Done) (fun _ => w).

(** The same, but [context.close()] of the teardown raises. *)
Definition teardown_fails (w : World) : BatchWorld :=
  mkBatchWorld (fun _ op => match op with
                            | ClosePrimaryContext => Raises PlaywrightError
                            | _ => Done
                            end)
               (fun _ => w).

(** What the batch records of one attempt, newest first: the
    announcement, the events of the run of [capture_one], and the error
    line when the run raised. *)
Definition attempt_events (i n : nat) (url : str) (h : History)
  (r : Res Path) : BatchHistory :=
  match r with Raised e => [Reported url e] | _ => [] end
  ++ map Page h ++ [Announced i n url].

(** [bh] holds attempt [i] of [n], on [url]: the announcement, then a
    whole run of [capture_one] on [url] that ended in [r], run on the page
    as the batch had left it, then the error line if [r] is an
    exception. *)
Definition attempt_of (bw : BatchWorld) (ok : str -> bool) (dlg : bool)
  (opts : CaptureOptions) (n i : nat) (url : str) (bh : BatchHistory)
  (r : Res Path) : Prop :=
  exists before after h,
    bh = after ++ attempt_events i n url h r ++ before
    /\ capture_one (page_world bw (Announced i n url :: before)) ok dlg url
         opts [] = (h, r).

(** The announcements of the URLs [l], numbered from [i], of [n]. *)
Definition numbered_from (i n : nat) (l : list str) : list (nat * nat * str) :=
  map (fun iu => (fst iu, n, snd iu)) (combine (seq i (length l)) l).

Definition two_urls : list str :=
  [sample_url; lit "https://example.org/"].

End Batch.

(* ------------------------------------------------------------------ *)
(** ** Urls: the URL list of the window, [App._collect_urls]            *)
(* ------------------------------------------------------------------ *)

Module Urls.
Import Text.

(** The line boundaries of [str.splitlines] below U+0100: LF, VT, FF, CR,
    FS, GS, RS and NEL. *)
Definition linebreak (c : ascii) : bool :=
  between 10 13 c || between 28 30 c || (code c =? 133)%N.

Definition CR : ascii := ascii_of_N 13.
Definition LF : ascii := ascii_of_N 10.

(** [s.splitlines()], with the line being read in [cur], newest character
    first: a line ends at a boundary, CR LF counts as one boundary, and a
    boundary at the very end opens no further line. *)
Fixpoint splitlines_from (cur : str) (s : str) : list str :=
  match s with
  | [] =>
      match cur with
      | [] => []
      | _ :: _ => [rev cur]
      end
  | c :: rest =>
      if linebreak c then
        rev cur ::
        match rest with
        | c' :: rest' =>
            if is_char CR c && is_char LF c'
            then splitlines_from [] rest'
            else splitlines_from [] rest
        | [] => []
        end
      else splitlines_from (c :: cur) rest
  end.

Definition splitlines (s : str) : list str := splitlines_from [] s.

Definition nonempty (s : str) : bool :=
  match s with
  | [] => false
  | _ :: _ => true
  end.

(** [_collect_urls], given the text of the URL box:
    [[u.strip() for u in raw.splitlines() if u.strip()]] with
    [raw = text.strip()]. *)
Definition collect_urls (text : str) : list str :=
  let raw := strip text in
  map strip (filter (fun u => nonempty (strip u)) (splitlines raw)).

(** [linesep.join(urls)]. *)
Fixpoint join (sep : str) (l : list str) : str :=
  match l with
  | [] => []
  | [u] => u
  | u :: rest => u ++ sep ++ join sep rest
  end.

(** Text without a line boundary. *)
Definition unbroken (s : str) : Prop := Forall (fun c => linebreak c = false) s.

End Urls.

(* ------------------------------------------------------------------ *)
(** ** RuleText: site rules written out as the help text shows          *)
(* ------------------------------------------------------------------ *)

Module RuleText.
Import Text SiteRules.

(** A rule in the layout of the docstring of [parse_site_rules]: one item
    per line, both sections present. *)
Definition render (r : SiteRule) : str :=
  lit "@domain " ++ domain r ++ newline
  ++ lit "CSS:" ++ newline ++ css r ++ newline
  ++ lit "JS:" ++ newline ++ js r ++ newline
  ++ lit "@end" ++ newline.

(** The same without its last line break: the text the pattern matches. *)
Definition block_of (r : SiteRule) : str :=
  lit "@domain " ++ domain r ++ newline
  ++ lit "CSS:" ++ newline ++ css r ++ newline
  ++ lit "JS:" ++ newline ++ js r ++ newline
  ++ lit "@end".

Definition render_all (rules : list SiteRule) : str := concat (map render rules).

(** What a rule must look like to be written out and read back: a
    lower-case domain without white space, CSS that is not blank, no white
    space around either text, no terminator inside them and no [JS:]
    inside the CSS. *)
Definition well_formed (r : SiteRule) : Prop :=
  word (domain r) /\ lower (domain r) = domain r
  /\ trimmed (css r) /\ css r <> []
  /\ trimmed (js r)
  /\ contains_ci (lit "@end") (css r) = false
  /\ contains_ci (lit "js:") (css r) = false
  /\ contains_ci (lit "@end") (js r) = false.

Definition two_rules : list SiteRule :=
  [mkRule (lit "example.com") (lit "header { display: none }")
          (lit "document.title = 'x';");
   mkRule (lit "news.example.org") (lit ".ad, .banner { display: none }") []].

End RuleText.

(* ------------------------------------------------------------------ *)
(** ** NameShape: vocabulary for the shape of file names                *)
(* ------------------------------------------------------------------ *)

Module NameShape.
Import Text Naming.

(** Some two neighbours of [s] are both in [p]. *)
Fixpoint paired (p : ascii -> bool) (s : str) : bool :=
  match s with
  | a :: t =>
      match t with
      | b :: _ => (p a && p b) || paired p t
      | [] => false
      end
  | [] => false
  end.

(** Characters the sanitizer has no reason to touch. *)
Definition plain (c : ascii) : bool := negb (illegal c) && negb (underscore c).

End NameShape.



(* ------------------------------------------------------------------ *)
(** ** Bands: vocabulary for the pages of the paginated builder         *)
(* ------------------------------------------------------------------ *)

Module Bands.
Import Raster.
Local Open Scope Z_scope.

(** The band of rows a page [i] (counted from 0) shows, for a band height
    of [b] rows. *)
Definition band_of (img : Image) (b : Z) (i : nat) : Image :=
  crop img (0, Z.of_nat i * b, width_px img,
            Z.min (height_px img) ((Z.of_nat i + 1) * b)).

(** How the loop places a band on its page: from the left margin, as wide
    as the content area, hanging from the top margin. *)
Definition placed (g : Layout) (d : DrawImage) : Prop :=
  at_x d = margin_pt g
  /\ drawn_width d = content_w_pt g
  /\ drawn_height d
     = (csspx_to_pdfpt (float_of_int (height_px (drawn d))) * scale g)%float
  /\ at_y d = (page_h_pt g - margin_pt g - drawn_height d)%float.

(** The band height is what is left of [4 * width / 3] after the float
    arithmetic: that, or one row less. *)
Definition band_height_near (w : Z) : bool :=
  match layout w default_margin_in with
  | Ret g => (4 * w / 3 - 1 <=? native_px_per_page g)
             && (native_px_per_page g <=? 4 * w / 3)
  | Raise _ => false
  end.

End Bands.

(* ------------------------------------------------------------------ *)
(** ** Prepare: [prepare_page_for_capture] and the helpers it calls     *)
(* ------------------------------------------------------------------ *)

Module Prepare.
Import Text.
Local Open Scope Z_scope.

(** The fields of [CaptureOptions] that are in scope while a page is
    prepared. *)
Record CaptureOptions : Type := mkOptions {
  delay_ms : Z;
  timeout_ms : Z;
  hide_cookie_banners : bool;
  unstick_bars : bool;
  global_css : str;
  global_js : str;
  site_rules : list SiteRules.SiteRule
}.

(** *** The page

    The helpers talk to one Playwright [page].  Every call either raises
    or gives a value; the values the helpers look at are numbers
    ([scrollHeight], the counts the two clean-up scripts return, the number
    of handles of a locator) or a truth value ([is_visible]), which is
    given as a number that is zero for [False]. *)

Inductive Call : Type :=
| FontsReady (timeout : Z)        (* page.evaluate(document.fonts.ready, timeout=...) *)
| ImagesComplete (timeout : Z)    (* page.wait_for_function(images complete, timeout=...) *)
| ScrollHeight                    (* page.evaluate(documentElement.scrollHeight) *)
| ScrollBy (step : Z)             (* page.evaluate(window.scrollBy(0, s), step) *)
| ScrollToTop                     (* page.evaluate(window.scrollTo(0, 0)) *)
| WaitForTimeout (ms : Z)         (* page.wait_for_timeout(ms) *)
| LocatorAll (xpath : str)        (* page.locator(xpath).all() *)
| IsVisible (xpath : str) (i : nat)   (* b.is_visible(), b the i-th handle *)
| Click (xpath : str) (i : nat)       (* b.click(timeout=1500) *)
| RemoveOverlays                  (* page.evaluate(script) of dismiss_cookie_banners *)
| AddStyleTag (content : str)     (* page.add_style_tag(content=...) *)
| Evaluate (script : str)         (* page.evaluate(opts.global_js) *)
| Unstick.                        (* page.evaluate(js) of unstick_headers_and_footers *)

Inductive Answer : Type :=
| Gives (v : Z)
| Fails (e : Capture.Error).

Inductive LogLine : Type :=
| LogWait | LogScroll | LogClean | LogClicked
| LogRemoved (n : Z)
| LogAppliedCss | LogCssFailed (e : Capture.Error)
| LogExecutedJs | LogJsFailed (e : Capture.Error)
| LogUnstick | LogConverted (n : Z)
| LogDelay (ms : Z).

Inductive Event : Type :=
| Called (c : Call) (a : Answer)
| Logged (l : LogLine).

(** Newest first. *)
Definition History : Type := list Event.

Definition World : Type := History -> Call -> Answer.

Inductive Res (A : Type) : Type :=
| Returns (a : A)
| Raised (e : Capture.Error)
| Unfinished.                   (* the step budget of a loop ran out *)

Arguments Returns {A} a.
Arguments Raised {A} e.
Arguments Unfinished {A}.

Definition M (A : Type) : Type := History -> History * Res A.

Definition ret {A : Type} (a : A) : M A := fun h => (h, Returns a).

Definition bind {A B : Type} (m : M A) (k : A -> M B) : M B :=
  fun h =>
    let '(h1, r) := m h in
    match r with
    | Returns a => k a h1
    | Raised e => (h1, Raised e)
    | Unfinished => (h1, Unfinished)
    end.

(** [try: m  except Exception as e: handler(e)]. *)
Definition try_except {A : Type} (m : M A) (handler : Capture.Error -> M A)
  : M A :=
  fun h =>
    let '(h1, r) := m h in
    match r with
    | Raised e => handler e h1
    | _ => (h1, r)
    end.

Declare Scope page_scope.
Delimit Scope page_scope with page.
Notation "x <- m ;; k" := (bind m (fun x => k))
  (at level 61, m at next level, right associativity) : page_scope.
Notation "m ;; k" := (bind m (fun _ => k))
  (at level 61, right associativity) : page_scope.

(** [if v:] on a number. *)
Definition truthy (v : Z) : bool := negb (v =? 0).

(** [if s.strip():]. *)
Definition nonblank (s : str) : bool :=
  match strip s with
  | [] => false
  | _ :: _ => true
  end.

Definition BUTTON_XPATHS : list str :=
  [ lit "//button[.//text()[matches(., '(?i)accept( all)?|agree|got it|i understand|continue')]]";
    lit "//a[.//text()[matches(., '(?i)accept( all)?|agree|got it|i understand|continue')]]";
    lit "//*[@id='onetrust-accept-btn-handler']";
    lit "//*[@id='onetrust-reject-all-handler']";
    lit "//*[@data-action='accept']";
    lit "//*[@data-didomi-accept-button]";
    lit "//*[@class[contains(., 'qc-cmp')]]" ].

Section Program.

Variable w : World.

Local Open Scope page_scope.

Definition call (c : Call) : M Z :=
  fun h =>
    match w h c with
    | Gives v => (Called c (Gives v) :: h, Returns v)
    | Fails e => (Called c (Fails e) :: h, Raised e)
    end.

(** [logcb(...)], taken to return normally. *)
Definition log (l : LogLine) : M unit := fun h => (Logged l :: h, Returns tt).

(** [try: m  except Exception: pass]. *)
Definition swallow (m : M unit) : M unit := try_except m (fun _ => ret tt).

(** [try: x = m  except Exception: <no x>]. *)
Definition attempt {A : Type} (m : M A) : M (option A) :=
  try_except (x <- m ;; ret (Some x)) (fun _ => ret None).

Definition wait_for_fonts_and_images (timeout : Z) : M unit :=
  swallow (call (FontsReady timeout) ;; ret tt) ;;
  swallow (call (ImagesComplete timeout) ;; ret tt).

(** The [while elapsed < max_ms] loop of [gentle_autoscroll], on a budget
    of iterations; a [break] is a return from the loop. *)
Fixpoint scroll_loop (fuel : nat) (step stall_ms max_ms : Z)
  (last_h : option Z) (elapsed : Z) : M unit :=
  if elapsed <? max_ms then
    match fuel with
    | O => fun h => (h, Unfinished)
    | S fuel' =>
        scrolled <- attempt (call (ScrollBy step)) ;;
        match scrolled with
        | None => ret tt
        | Some _ =>
            call (WaitForTimeout stall_ms) ;;
            let elapsed := elapsed + stall_ms in
            read <- attempt (call ScrollHeight) ;;
            match read with
            | None => ret tt
            | Some new_h =>
                if match last_h with
                   | Some l => new_h <=? l
                   | None => false
                   end
                then call (WaitForTimeout 500) ;; ret tt
                else scroll_loop fuel' step stall_ms max_ms (Some new_h) elapsed
            end
        end
    end
  else ret tt.

Definition gentle_autoscroll (fuel : nat) (step stall_ms max_ms : Z) : M unit :=
  last_h <- attempt (call ScrollHeight) ;;
  scroll_loop fuel step stall_ms max_ms last_h 0 ;;
  swallow (call ScrollToTop ;; ret tt).

(** The body of [for b in btns], for the [i]-th handle of [xp]. *)
Definition press (xp : str) (i : nat) : M unit :=
  swallow
    (v <- call (IsVisible xp i) ;;
     if truthy v then
       call (Click xp i) ;;
       log LogClicked ;;
       call (WaitForTimeout 250) ;;
       ret tt
     else ret tt).

(** [for b in btns], from handle [i] on, [n] handles left. *)
Fixpoint press_all (xp : str) (i n : nat) : M unit :=
  match n with
  | O => ret tt
  | S n' => press xp i ;; press_all xp (S i) n'
  end.

(** The body of [for xp in BUTTON_XPATHS]. *)
Definition press_xpath (xp : str) : M unit :=
  swallow (n <- call (LocatorAll xp) ;; press_all xp 0 (Z.to_nat n)).

Fixpoint press_xpaths (xps : list str) : M unit :=
  match xps with
  | [] => ret tt
  | xp :: rest => press_xpath xp ;; press_xpaths rest
  end.

Definition dismiss_cookie_banners : M unit :=
  press_xpaths BUTTON_XPATHS ;;
  swallow
    (removed <- call RemoveOverlays ;;
     if truthy removed then log (LogRemoved removed) else ret tt).

Definition unstick_headers_and_footers : M unit :=
  swallow
    (count <- call Unstick ;;
     if truthy count then log (LogConverted count) else ret tt).

(** [gentle_autoscroll(page, logcb=logcb)]: the defaults of its
    signature. *)
Definition default_step : Z := 1200.
Definition default_stall_ms : Z := 400.
Definition default_max_ms : Z := 20000.

Definition prepare_page_for_capture (fuel : nat) (opts : CaptureOptions)
  : M unit :=
  log LogWait ;;
  wait_for_fonts_and_images (Z.min 15000 (timeout_ms opts)) ;;
  log LogScroll ;;
  gentle_autoscroll fuel default_step default_stall_ms default_max_ms ;;
  (if hide_cookie_banners opts
   then log LogClean ;; dismiss_cookie_banners
   else ret tt) ;;
  (if nonblank (global_css opts)
   then try_except
          (call (AddStyleTag (global_css opts)) ;; log LogAppliedCss)
          (fun e => log (LogCssFailed e))
   else ret tt) ;;
  (if nonblank (global_js opts)
   then try_except
          (call (Evaluate (global_js opts)) ;; log LogExecutedJs)
          (fun e => log (LogJsFailed e))
   else ret tt) ;;
  (if unstick_bars opts
   then log LogUnstick ;; unstick_headers_and_footers
   else ret tt) ;;
  call (WaitForTimeout 250) ;;
  if 0 <? delay_ms opts
  then log (LogDelay (delay_ms opts)) ;; call (WaitForTimeout (delay_ms opts)) ;; ret tt
  else ret tt.

End Program.

(** *** Vocabulary of the statements *)

Fixpoint count (p : Event -> bool) (h : History) : nat :=
  match h with
  | [] => O
  | e :: h' => (if p e then 1 else 0) + count p h'
  end.

Definition scrolls (e : Event) : bool :=
  match e with Called (ScrollBy _) _ => true | _ => false end.

Definition styles (e : Event) : bool :=
  match e with Called (AddStyleTag _) _ => true | _ => false end.

Definition scripts (e : Event) : bool :=
  match e with Called (Evaluate _) _ => true | _ => false end.

Definition to_top (e : Event) : bool :=
  match e with Called ScrollToTop _ => true | _ => false end.

(** Milliseconds asked of [page.wait_for_timeout], over a whole run. *)
Fixpoint slept (h : History) : Z :=
  match h with
  | [] => 0
  | Called (WaitForTimeout ms) _ :: h' => ms + slept h'
  | _ :: h' => slept h'
  end.

(** The run ended in [e], raised by the [page.wait_for_timeout] that is
    its newest event. *)
Definition wait_failed (e : Capture.Error) (h : History) : Prop :=
  exists ms rest, h = Called (WaitForTimeout ms) (Fails e) :: rest.

(** The iterations the loop of [gentle_autoscroll] can make:
    [ceil(max_ms / stall_ms)]. *)
Definition rounds (stall_ms max_ms : Z) : nat :=
  Z.to_nat ((max_ms + stall_ms - 1) / stall_ms).

(** The calls [gentle_autoscroll] makes. *)
Definition scroll_event (step stall_ms : Z) (e : Event) : bool :=
  match e with
  | Called ScrollHeight _ | Called ScrollToTop _ => true
  | Called (ScrollBy s) _ => s =? step
  | Called (WaitForTimeout ms) _ => (ms =? stall_ms) || (ms =? 500)
  | _ => false
  end.

(** What the options allow a preparation to do. *)
Definition allowed (opts : CaptureOptions) (e : Event) : bool :=
  match e with
  | Called (FontsReady t) _ | Called (ImagesComplete t) _ =>
      t =? Z.min 15000 (timeout_ms opts)
  | Called ScrollHeight _ | Called ScrollToTop _ => true
  | Called (ScrollBy s) _ => s =? default_step
  | Called (WaitForTimeout ms) _ =>
      (ms =? default_stall_ms) || (ms =? 500) || (ms =? 250)
      || ((0 <? delay_ms opts) && (ms =? delay_ms opts))
  | Called (LocatorAll xp) _ | Called (IsVisible xp _) _
  | Called (Click xp _) _ =>
      hide_cookie_banners opts && existsb (str_eqb xp) BUTTON_XPATHS
  | Called RemoveOverlays _ => hide_cookie_banners opts
  | Called (AddStyleTag c) _ =>
      nonblank (global_css opts) && str_eqb c (global_css opts)
  | Called (Evaluate s) _ =>
      nonblank (global_js opts) && str_eqb s (global_js opts)
  | Called Unstick _ => unstick_bars opts
  | Logged _ => true
  end.

(** Every click is on a handle that [is_visible] has just reported
    visible. *)
Fixpoint clicks_follow_visible (h : History) : bool :=
  match h with
  | [] => true
  | Called (Click xp i) _ :: h' =>
      match h' with
      | Called (IsVisible xp' i') (Gives v) :: _ =>
          str_eqb xp xp' && Nat.eqb i i' && truthy v
      | _ => false
      end
      && clicks_follow_visible h'
  | _ :: h' => clicks_follow_visible h'
  end.

(** [sat m P]: whatever happened before, [m] puts events [new] in front
    of the history and ends in [r], with [P new r]. *)
Definition sat {A : Type} (m : M A) (P : History -> Res A -> Prop) : Prop :=
  forall h0, exists new r, m h0 = (new ++ h0, r) /\ P new r.

(** What every run of the scroll helper looks like: its calls, and how it
    can end. *)
Definition scroll_shape (step stall_ms : Z) {A : Type} (new : History)
  (r : Res A) : Prop :=
  forallb (scroll_event step stall_ms) new = true
  /\ forall e, r = Raised e -> wait_failed e new.

(** At most [n] scroll steps, and the sleep they can add up to. *)
Definition scroll_bound (stall_ms : Z) (n : nat) {A : Type} (new : History)
  (r : Res A) : Prop :=
  r <> Unfinished
  /\ (count scrolls new <= n)%nat
  /\ slept new <= Z.of_nat n * stall_ms + 500.

(** What the loop of [gentle_autoscroll] does from [elapsed] on. *)
Definition loop_spec (step stall_ms max_ms : Z) (fuel : nat) (elapsed : Z)
  (new : History) (r : Res unit) : Prop :=
  scroll_shape step stall_ms new r
  /\ count to_top new = O
  /\ (1 <= stall_ms ->
      (rounds stall_ms (max_ms - elapsed) <= fuel)%nat ->
      scroll_bound stall_ms (rounds stall_ms (max_ms - elapsed)) new r).

(** How [gentle_autoscroll] ends: a run that returns has just asked for
    the top of the page, for the only time; no other run asks for it. *)
Definition back_at_top {A : Type} (new : History) (r : Res A) : Prop :=
  match r with
  | Returns _ =>
      exists a rest, new = Called ScrollToTop a :: rest /\ count to_top rest = O
  | Raised e => wait_failed e new /\ count to_top new = O
  | Unfinished => count to_top new = O
  end.

(** Which exceptions a helper lets through. *)
Inductive Policy : Type :=
| AnyRaise      (* whatever a page call raised *)
| WaitRaise     (* what [page.wait_for_timeout] raised, and nothing else *)
| NoRaise.      (* nothing *)

Definition ends (pol : Policy) {A : Type} (new : History) (r : Res A) : Prop :=
  match r with
  | Returns _ => True
  | Unfinished => False
  | Raised e =>
      match pol with
      | AnyRaise => True
      | WaitRaise => wait_failed e new
      | NoRaise => False
      end
  end.

(** A run within the options: only allowed calls, clicks on visible
    handles only, at most [ks] scroll steps, [kc] style tags and [kj]
    scripts, and an end within the policy. *)
Definition tidy (opts : CaptureOptions) (pol : Policy) (ks kc kj : nat)
  {A : Type} (new : History) (r : Res A) : Prop :=
  forallb (allowed opts) new = true
  /\ clicks_follow_visible new = true
  /\ (count scrolls new <= ks)%nat
  /\ (count styles new <= kc)%nat
  /\ (count scripts new <= kj)%nat
  /\ ends pol new r.

(** The last calls of a preparation that returns: the 250 ms pause, then
    the extra delay if one is asked for. *)
Definition settled (opts : CaptureOptions) (new : History) : Prop :=
  exists a rest,
    if 0 <? delay_ms opts
    then exists b,
           new = Called (WaitForTimeout (delay_ms opts)) (Gives b)
                 :: Logged (LogDelay (delay_ms opts))
                 :: Called (WaitForTimeout 250) (Gives a) :: rest
    else new = Called (WaitForTimeout 250) (Gives a) :: rest.

Definition prepared (opts : CaptureOptions) (pol : Policy) (ks kc kj : nat)
  (new : History) (r : Res unit) : Prop :=
  tidy opts pol ks kc kj new r /\ (r = Returns tt -> settled opts new).

(** A page on which every call succeeds and the document grows with
    every call, and one whose [wait_for_timeout] fails. *)
Definition growing_page : World :=
  fun h _ => Gives (Z.of_nat (length h)).

Definition stuck_clock : World :=
  fun h c =>
    match c with
    | WaitForTimeout _ => Fails Capture.PlaywrightError
    | _ => Gives (Z.of_nat (length h))
    end.

(** A page on which nothing moves: every call gives 0. *)
Definition still_page : World := fun _ _ => Gives 0.

Definition cookie_options : CaptureOptions :=
  mkOptions 0 0 true false [] [] [].

Definition sample_options : CaptureOptions :=
  mkOptions 300 45000 true true (lit "nav { display: none }") (lit "") [].

End Prepare.

(* ================================================================== *)
(** * Part II: statements                                              *)
(* ================================================================== *)

Module TextFacts.
Import Text.

Lemma takewhile_dropwhile (p : ascii -> bool) (s : str) :
  takewhile p s ++ dropwhile p s = s.
Proof.
  induction s as [|c s IH]; cbn; [reflexivity|].
  destruct (p c); cbn; [now rewrite IH|reflexivity].
Qed.

Lemma dropwhile_length (p : ascii -> bool) (s : str) :
  (length (dropwhile p s) <= length s)%nat.
Proof.
  induction s as [|c s IH]; cbn; [lia|]. destruct (p c); cbn; lia.
Qed.

Lemma Forall_dropwhile (P : ascii -> Prop) (p : ascii -> bool) (s : str) :
  Forall P s -> Forall P (dropwhile p s).
Proof.
  induction 1 as [|c s Hc Hs IH]; cbn; [constructor|].
  destruct (p c); [exact IH|now constructor].
Qed.

Lemma Forall_skipn (P : ascii -> Prop) (n : nat) (s : str) :
  Forall P s -> Forall P (skipn n s).
Proof.
  revert s. induction n as [|n IH]; intros s H; [exact H|].
  destruct s as [|c s]; [constructor|]. inversion H; subst. now apply IH.
Qed.

Lemma Forall_strip_of (P : ascii -> Prop) (p : ascii -> bool) (s : str) :
  Forall P s -> Forall P (strip_of p s).
Proof.
  intros H. unfold strip_of, rstrip_of, lstrip_of.
  apply Forall_rev, Forall_dropwhile, Forall_rev, Forall_dropwhile, H.
Qed.

Lemma Forall_or_else (P : ascii -> Prop) (s d : str) :
  Forall P s -> Forall P d -> Forall P (or_else s d).
Proof. destruct s; cbn; auto. Qed.

Lemma Forall_replace (P : ascii -> Prop) (old : ascii) (new s : str) :
  Forall P new -> Forall P s -> Forall P (replace old new s).
Proof.
  intros Hn. induction 1 as [|c s Hc Hs IH]; cbn; [constructor|].
  destruct (is_char old c); [apply Forall_app; auto|constructor; auto].
Qed.

Lemma is_char_eq (a c : ascii) : is_char a c = true <-> a = c.
Proof. unfold is_char. apply Ascii.eqb_eq. Qed.

(** After [s.replace(old, new)] no [old] is left, provided [new] has none. *)
Lemma replace_removes (old : ascii) (new s : str) :
  Forall (fun c => c <> old) new ->
  Forall (fun c => c <> old) (replace old new s).
Proof.
  intros Hn. induction s as [|c s IH]; cbn; [constructor|].
  destruct (is_char old c) eqn:E; [apply Forall_app; auto|].
  constructor; [|exact IH]. intros ->.
  assert (is_char old old = true) by now apply is_char_eq. congruence.
Qed.

Lemma startswith_app (a s : str) : startswith a (a ++ s) = true.
Proof.
  induction a as [|c a IH]; cbn; [reflexivity|].
  now rewrite Ascii.eqb_refl, IH.
Qed.

Lemma startswith_split (a s : str) :
  startswith a s = true -> exists rest, s = a ++ rest.
Proof.
  revert s. induction a as [|c a IH]; intros s H; cbn in *; [now exists s|].
  destruct s as [|d s]; [discriminate|].
  apply andb_true_iff in H as [Hc Ha]. apply Ascii.eqb_eq in Hc as ->.
  destruct (IH _ Ha) as [rest ->]. now exists rest.
Qed.

Lemma endswith_app (a s : str) : endswith a (s ++ a) = true.
Proof. unfold endswith. rewrite rev_app_distr. apply startswith_app. Qed.

Lemma endswith_split (a s : str) :
  endswith a s = true <-> exists front, s = front ++ a.
Proof.
  unfold endswith. split.
  - intros H. apply startswith_split in H as [rest E].
    exists (rev rest). rewrite <- (rev_involutive s), E, rev_app_distr.
    now rewrite rev_involutive.
  - intros [front ->]. rewrite rev_app_distr. apply startswith_app.
Qed.

(** [lower] neither creates nor destroys a full stop. *)
Lemma lower_char_stop (c : ascii) : lower_char c = "."%char -> c = "."%char.
Proof.
  destruct c as [[] [] [] [] [] [] [] []]; vm_compute; congruence.
Qed.

Lemma str_eqb_eq (a b : str) : str_eqb a b = true <-> a = b.
Proof.
  unfold str_eqb. destruct (list_eq_dec ascii_dec a b); split; congruence.
Qed.

End TextFacts.

Module RegexFacts.
Import Text Regex TextFacts.

Lemma consumed_app (a rest : str) : consumed (a ++ rest) rest = a.
Proof.
  unfold consumed. rewrite length_app.
  replace (length a + length rest - length rest)%nat with (length a) by lia.
  rewrite firstn_app, firstn_all, Nat.sub_diag. cbn. apply app_nil_r.
Qed.

Lemma consumed_dropwhile (p : ascii -> bool) (s : str) :
  consumed s (dropwhile p s) = takewhile p s.
Proof.
  rewrite <- (takewhile_dropwhile p s) at 1. apply consumed_app.
Qed.

(** Under a continuation that always accepts, a greedy repetition takes
    the longest run. *)
Lemma rep_greedy_longest (R : Type) (cls : ascii -> bool) (k : str -> option R) :
  (forall t, k t <> None) ->
  forall (least : nat) (s : str),
    rep_greedy cls least s k
    = if (least <=? length (takewhile cls s))%nat then k (dropwhile cls s)
      else None.
Proof.
  intros Hk least s. revert least.
  induction s as [|c s IH]; intros least; cbn.
  - destruct least; reflexivity.
  - destruct (cls c); cbn.
    + rewrite IH. destruct least as [|m]; cbn.
      * destruct (k (dropwhile cls s)) eqn:E; [reflexivity|].
        now destruct (Hk _ E).
      * destruct (m <=? length (takewhile cls s))%nat; [|reflexivity].
        destruct (k (dropwhile cls s)); reflexivity.
    + destruct least; reflexivity.
Qed.

(** [cls+] at the head of [s]: the longest run, when it is not empty. *)
Lemma match_here_run (ic : bool) (cls : ascii -> bool) (s : str) :
  match_here ic (Rep true 1 cls) s
  = match takewhile cls s with
    | [] => None
    | _ :: _ => Some (mkMatch (takewhile cls s) [] (dropwhile cls s))
    end.
Proof.
  unfold match_here. cbn [exec]. rewrite rep_greedy_longest by discriminate.
  rewrite consumed_dropwhile. destruct (takewhile cls s); reflexivity.
Qed.

Lemma takewhile_nil_head (cls : ascii -> bool) (c : ascii) (s : str) :
  takewhile cls (c :: s) = [] -> cls c = false.
Proof. cbn. destruct (cls c); [discriminate|reflexivity]. Qed.

(** [re.sub(cls+, repl, s)] keeps the characters of [s] outside [cls] and
    adds characters of [repl]. *)
Lemma sub_run_Forall (Q : ascii -> Prop) (ic : bool) (cls : ascii -> bool)
  (repl : str) :
  Forall Q repl ->
  forall (fuel : nat) (s : str),
    (length s < fuel)%nat ->
    Forall (fun c => cls c = false -> Q c) s ->
    Forall Q (sub_from fuel ic (Rep true 1 cls) repl s).
Proof.
  intros Hrepl. induction fuel as [|fuel IH]; intros s Hlen Hs; [lia|].
  cbn [sub_from]. rewrite match_here_run.
  destruct (takewhile cls s) as [|c run] eqn:E.
  - destruct s as [|c s]; [constructor|].
    inversion Hs as [|? ? Hc Hs']; subst.
    constructor; [apply Hc; eapply takewhile_nil_head; eauto|].
    apply IH; [cbn in Hlen; lia|exact Hs'].
  - cbn [matched after]. apply Forall_app. split; [exact Hrepl|].
    apply IH.
    + pose proof (takewhile_dropwhile cls s) as Es. rewrite E in Es.
      apply (f_equal (@length ascii)) in Es. rewrite length_app in Es.
      cbn in Es. lia.
    + now apply Forall_dropwhile.
Qed.

Lemma sub_run_removes (ic : bool) (cls : ascii -> bool) (repl s : str) :
  Forall (fun c => cls c = false) repl ->
  Forall (fun c => cls c = false) (sub ic (Rep true 1 cls) repl s).
Proof.
  intros H. apply sub_run_Forall; [exact H|unfold lt; lia|].
  apply Forall_forall. auto.
Qed.

Lemma sub_run_keeps (P : ascii -> Prop) (ic : bool) (cls : ascii -> bool)
  (repl s : str) :
  Forall P repl -> Forall P s -> Forall P (sub ic (Rep true 1 cls) repl s).
Proof.
  intros Hr Hs. apply sub_run_Forall; [exact Hr|unfold lt; lia|].
  eapply Forall_impl; [|exact Hs]. auto.
Qed.

(** *** Literals *)

Lemma same_char_refl (ic : bool) (a : ascii) : same_char ic a a = true.
Proof. unfold same_char. destruct ic; apply Ascii.eqb_refl. Qed.

Lemma chars_app (ic : bool) (l rest : str) : chars ic l (l ++ rest) = Some rest.
Proof.
  induction l as [|a l IH]; cbn; [reflexivity|]. now rewrite same_char_refl.
Qed.

Lemma chars_head_mismatch (ic : bool) (a c : ascii) (l s : str) :
  same_char ic a c = false -> chars ic (a :: l) (c :: s) = None.
Proof. intros H. cbn. now rewrite H. Qed.

Lemma suffix_refl (s : str) : suffix s s.
Proof. now exists []. Qed.

Lemma suffix_trans (a b c : str) : suffix a b -> suffix b c -> suffix a c.
Proof. intros [p ->] [q ->]. exists (q ++ p). now rewrite app_assoc. Qed.

Lemma suffix_cons (c : ascii) (t s : str) : suffix t s -> suffix t (c :: s).
Proof. intros [p ->]. now exists (c :: p). Qed.

Lemma chars_suffix (ic : bool) (l s rest : str) :
  chars ic l s = Some rest -> suffix rest s.
Proof.
  revert s. induction l as [|a l IH]; intros s; cbn.
  - intros [= ->]. apply suffix_refl.
  - destruct s as [|c s]; [discriminate|].
    destruct (same_char ic a c); [|discriminate].
    intros H. apply suffix_cons. eauto.
Qed.

(** A literal that does not match a non-empty text does not match that
    text extended either, when what follows cannot continue the literal. *)
Lemma chars_not_straddling (ic : bool) (y0 : ascii) (Y : str) :
  forall (l u : str),
    u <> [] ->
    Forall (fun x => same_char ic x y0 = false) (tl l) ->
    chars ic l u = None ->
    chars ic l (u ++ y0 :: Y) = None.
Proof.
  induction l as [|a l IH]; intros u Hu Hl Hn; [discriminate Hn|].
  destruct u as [|c u]; [congruence|]. cbn in *.
  destruct (same_char ic a c); [|reflexivity].
  destruct u as [|c' u].
  - destruct l as [|x l]; [discriminate Hn|]. cbn.
    inversion Hl as [|? ? Hx _]; subst. now rewrite Hx.
  - apply IH; [discriminate| |exact Hn].
    destruct l; [constructor|]. now inversion Hl.
Qed.

(** *** Repetition *)

(** A greedy repetition whose longest run satisfies the continuation. *)
Lemma rep_greedy_first (R : Type) (cls : ascii -> bool) (k : str -> option R)
  (x : R) (rest : str) :
  match rest with [] => True | c :: _ => cls c = false end ->
  k rest = Some x ->
  forall (run : str) (least : nat),
    Forall (fun c => cls c = true) run ->
    (least <= length run)%nat ->
    rep_greedy cls least (run ++ rest) k = Some x.
Proof.
  intros Hrest Hk. induction run as [|c run IH]; intros least Hrun Hleast.
  - cbn [app]. assert (least = O) by (cbn in Hleast; lia). subst least.
    destruct rest as [|c rest]; cbn; [exact Hk|]. now rewrite Hrest.
  - inversion Hrun as [|? ? Hc Hrun']; subst. cbn. rewrite Hc.
    rewrite IH; [reflexivity|exact Hrun'|cbn in Hleast; lia].
Qed.

(** A greedy repetition fails when the continuation fails wherever the
    repetition may stop. *)
Lemma rep_greedy_none (R : Type) (cls : ascii -> bool) (k : str -> option R) :
  forall (s : str) (least : nat),
    (forall j, (j <= length (takewhile cls s))%nat -> k (skipn j s) = None) ->
    rep_greedy cls least s k = None.
Proof.
  induction s as [|c s IH]; intros least H.
  - cbn. destruct least; [apply (H O); cbn; lia|reflexivity].
  - cbn. cbn in H. destruct (cls c).
    + rewrite IH.
      * cbn. destruct least; [apply (H O); lia|reflexivity].
      * intros j Hj. apply (H (S j)). cbn. lia.
    + destruct least; [apply (H O); lia|reflexivity].
Qed.

(** A lazy [.*?] stops at the first split the continuation accepts. *)
Lemma rep_lazy_first (R : Type) (k : str -> option R) (x : R) (rest : str) :
  k rest = Some x ->
  forall pre : str,
    (forall i, (i < length pre)%nat -> k (skipn i pre ++ rest) = None) ->
    rep_lazy any_char 0 (pre ++ rest) k = Some x.
Proof.
  intros Hk. induction pre as [|c pre IH]; intros H.
  - cbn [app]. destruct rest; cbn; now rewrite Hk.
  - cbn [app rep_lazy]. change (any_char c) with true. cbv iota.
    pose proof (H O ltac:(cbn; lia)) as H0. cbn [skipn app] in H0.
    rewrite H0. cbn [orelse pred].
    apply IH. intros i Hi. apply (H (S i)). cbn. lia.
Qed.

(** White space, then a literal that starts with a character no white
    space matches: the repetition can only stop at the end of the run. *)
Lemma spaces_then (R : Type) (ic : bool) (a : ascii) (l : str)
  (K : str -> option R) :
  (forall c, isspace c = true -> same_char ic a c = false) ->
  forall (s : str) (least : nat),
    rep_greedy isspace least s
      (fun s' => match chars ic (a :: l) s' with
                 | Some rest => K rest
                 | None => None
                 end)
    = if (least <=? length (takewhile isspace s))%nat
      then match chars ic (a :: l) (dropwhile isspace s) with
           | Some rest => K rest
           | None => None
           end
      else None.
Proof.
  intros Ha. induction s as [|c s IH]; intros least.
  - cbn. destruct least; reflexivity.
  - cbn [rep_greedy takewhile dropwhile]. destruct (isspace c) eqn:Ec.
    + rewrite IH. cbn [length pred].
      rewrite (chars_head_mismatch ic a c l s (Ha c Ec)).
      destruct least as [|m]; cbn [Nat.leb pred].
      * destruct (chars ic (a :: l) (dropwhile isspace s)) as [rest|];
          [destruct (K rest)|]; reflexivity.
      * destruct (m <=? length (takewhile isspace s))%nat; [|reflexivity].
        destruct (chars ic (a :: l) (dropwhile isspace s)) as [rest|];
          [destruct (K rest)|]; reflexivity.
    + destruct least; reflexivity.
Qed.

(** *** Where a match ends *)

Lemma rep_greedy_suffix (R : Type) (cls : ascii -> bool) (k : str -> option R)
  (x : R) :
  forall (s : str) (least : nat),
    rep_greedy cls least s k = Some x ->
    exists s', suffix s' s /\ k s' = Some x.
Proof.
  induction s as [|c s IH]; intros least; cbn.
  - destruct least; [|discriminate]. intros H. exists []. split; [apply suffix_refl|exact H].
  - destruct (cls c).
    + destruct (rep_greedy cls (pred least) s k) eqn:E; cbn.
      * intros [= <-]. destruct (IH _ E) as (s' & Hs & Hk).
        exists s'. split; [now apply suffix_cons|exact Hk].
      * destruct least; [|discriminate]. intros H.
        exists (c :: s). split; [apply suffix_refl|exact H].
    + destruct least; [|discriminate]. intros H.
      exists (c :: s). split; [apply suffix_refl|exact H].
Qed.

Lemma rep_lazy_suffix (R : Type) (cls : ascii -> bool) (k : str -> option R)
  (x : R) :
  forall (s : str) (least : nat),
    rep_lazy cls least s k = Some x ->
    exists s', suffix s' s /\ k s' = Some x.
Proof.
  induction s as [|c s IH]; intros least; cbn.
  - destruct least; [|discriminate]. intros H. exists []. split; [apply suffix_refl|exact H].
  - destruct (cls c).
    + destruct least as [|m]; cbn.
      * destruct (k (c :: s)) eqn:E; cbn.
        -- intros [= <-]. exists (c :: s). split; [apply suffix_refl|exact E].
        -- intros H. destruct (IH _ H) as (s' & Hs & Hk).
           exists s'. split; [now apply suffix_cons|exact Hk].
      * intros H. destruct (IH _ H) as (s' & Hs & Hk).
        exists s'. split; [now apply suffix_cons|exact Hk].
    + destruct least; [|discriminate]. intros H.
      exists (c :: s). split; [apply suffix_refl|exact H].
Qed.

(** Whatever the pattern, a successful match hands a suffix of the
    subject to its continuation. *)
Lemma exec_suffix (R : Type) (ic : bool) (r : re) :
  forall (g : groups) (s : str) (k : groups -> str -> option R) (x : R),
    exec ic r g s k = Some x ->
    exists g' s', suffix s' s /\ k g' s' = Some x.
Proof.
  induction r as [l|greedy least cls|r1 IH1 r2 IH2|r1 IH1|name r1 IH1];
    intros g s k x H; cbn [exec] in H.
  - destruct (chars ic l s) as [rest|] eqn:E; [|discriminate].
    exists g, rest. split; [eapply chars_suffix; eauto|exact H].
  - destruct greedy.
    + destruct (rep_greedy_suffix _ _ _ _ _ _ H) as (s' & Hs & Hk). eauto.
    + destruct (rep_lazy_suffix _ _ _ _ _ _ H) as (s' & Hs & Hk). eauto.
  - destruct (IH1 _ _ _ _ H) as (g1 & s1 & Hs1 & H1).
    destruct (IH2 _ _ _ _ H1) as (g2 & s2 & Hs2 & H2).
    exists g2, s2. split; [eapply suffix_trans; eauto|exact H2].
  - destruct (exec ic r1 g s k) eqn:E; cbn in H.
    + injection H as <-. eauto.
    + exists g, s. split; [apply suffix_refl|exact H].
  - destruct (IH1 _ _ _ _ H) as (g1 & s1 & Hs1 & H1). eauto.
Qed.

Lemma exec_cat_inv (R : Type) (ic : bool) (r1 r2 : re) (g : groups) (s : str)
  (k : groups -> str -> option R) (x : R) :
  exec ic (Cat r1 r2) g s k = Some x ->
  exists g1 s1, suffix s1 s /\ exec ic r2 g1 s1 k = Some x.
Proof. cbn [exec]. apply exec_suffix. Qed.





End RegexFacts.

Module NamingFacts.
Import Text Regex Naming TextFacts RegexFacts.

(** *** [sanitize_filename_component] *)

Lemma underscore_legal : Forall (fun c => illegal c = false) (lit "_").
Proof. repeat constructor. Qed.

Lemma sanitize_legal (s : str) : legal_name (sanitize_filename_component s).
Proof.
  unfold legal_name, sanitize_filename_component.
  apply Forall_or_else; [|repeat constructor].
  apply Forall_strip_of.
  apply sub_run_keeps; [exact underscore_legal|].
  apply sub_run_removes. exact underscore_legal.
Qed.

(** Sanitizing adds no character beyond underscores and the letters of
    [file]. *)
Lemma sanitize_keeps (P : ascii -> Prop) (s : str) :
  P "_"%char -> Forall P (lit "file") -> Forall P s ->
  Forall P (sanitize_filename_component s).
Proof.
  intros Hu Hf Hs. unfold sanitize_filename_component.
  assert (Hrepl : Forall P (lit "_")) by (repeat constructor; exact Hu).
  apply Forall_or_else; [|exact Hf].
  apply Forall_strip_of. apply sub_run_keeps; [exact Hrepl|].
  apply sub_run_keeps; [exact Hrepl|]. now apply Forall_strip_of.
Qed.

(** *** [url_to_filename] *)

Lemma no_stop_lit_underscore : no_stop (lit "_").
Proof. repeat constructor; discriminate. Qed.

(** The base name holds no full stop: both host and path had theirs
    replaced. *)
Lemma base_no_stop (netloc path : str) :
  no_stop
    (sanitize_filename_component
       (let host := replace "." (lit "_") (or_else netloc (lit "site")) in
        let path_part :=
          replace "." (lit "_")
            (replace "/" (lit "_")
               (lstrip_of (is_char "/")
                  (or_else (let p := or_else path (lit "/") in
                            if endswith (lit "/") p then chop p else p)
                           (lit "/index.html")))) in
        match path_part with
        | [] => host
        | _ :: _ => host ++ lit "_" ++ path_part
        end)).
Proof.
  cbv zeta. apply sanitize_keeps; [discriminate|repeat constructor; discriminate|].
  set (host := replace "." (lit "_") (or_else netloc (lit "site"))).
  set (pp := replace "." (lit "_") _).
  assert (Hh : no_stop host) by apply replace_removes, no_stop_lit_underscore.
  assert (Hp : no_stop pp) by apply replace_removes, no_stop_lit_underscore.
  destruct pp; [exact Hh|].
  apply Forall_app. split; [exact Hh|].
  apply Forall_app. split; [exact no_stop_lit_underscore|exact Hp].
Qed.

Lemma no_stop_not_pdf (base : str) :
  no_stop base -> endswith (lit ".pdf") (lower base) = false.
Proof.
  intros Hb. destruct (endswith (lit ".pdf") (lower base)) eqn:E; [|reflexivity].
  apply endswith_split in E as [front E]. exfalso.
  assert (Hin : In "."%char (lower base))
    by (rewrite E; apply in_or_app; right; cbn; auto).
  unfold lower in Hin. apply in_map_iff in Hin as (c & Hc & Hin).
  apply lower_char_stop in Hc. subst c.
  unfold no_stop in Hb. rewrite Forall_forall in Hb. now apply (Hb _ Hin).
Qed.

(** The name is the sanitized base followed by [.pdf]. *)
Lemma filename_of_shape (netloc path : str) :
  exists base,
    filename_of netloc path = base ++ lit ".pdf"
    /\ legal_name base /\ no_stop base.
Proof.
  unfold filename_of. cbv zeta.
  pose proof (base_no_stop netloc path) as Hb. cbv zeta in Hb.
  set (base := sanitize_filename_component _) in *.
  rewrite (no_stop_not_pdf _ Hb).
  exists base. split; [reflexivity|]. split; [apply sanitize_legal|exact Hb].
Qed.

Lemma filename_of_ok (netloc path : str) :
  endswith (lit ".pdf") (filename_of netloc path) = true
  /\ legal_name (filename_of netloc path).
Proof.
  destruct (filename_of_shape netloc path) as (base & -> & Hl & _).
  split; [apply endswith_app|].
  apply Forall_app. split; [exact Hl|repeat constructor].
Qed.

(** *** Query string and fragment *)

Lemma qf_cases (d : ascii) : is_mark d = true -> d = "?"%char \/ d = "#"%char.
Proof.
  unfold is_mark, char_in. cbn [lit list_ascii_of_string existsb].
  rewrite !orb_true_iff, !is_char_eq. intuition discriminate.
Qed.

Lemma break_parts (p : ascii -> bool) (u : str) :
  u = fst (break p u) ++ snd (break p u)
  /\ Forall (fun c => p c = false) (fst (break p u))
  /\ match snd (break p u) with [] => True | d :: _ => p d = true end.
Proof.
  induction u as [|c u (E & Hc & Ht)]; cbn; [auto|].
  destruct (p c) eqn:Ec; cbn; [auto|].
  destruct (break p u) as [a b]; cbn in *.
  split; [now f_equal|]. split; [now constructor|exact Ht].
Qed.

Lemma break_app_stop (p : ascii -> bool) (x rest : str) :
  match rest with [] => True | d :: _ => p d = true end ->
  break p (x ++ rest) = (fst (break p x), snd (break p x) ++ rest).
Proof.
  intros Hr. induction x as [|c x IH]; cbn.
  - destruct rest as [|d rest]; cbn; [reflexivity|now rewrite Hr].
  - destruct (p c); cbn; [reflexivity|].
    rewrite IH. destruct (break p x); reflexivity.
Qed.

Lemma break_free (p : ascii -> bool) (x : str) :
  Forall (fun c => p c = false) x -> break p x = (x, []).
Proof.
  induction 1 as [|c x Hc Hx IH]; cbn; [reflexivity|].
  now rewrite Hc, IH.
Qed.

Lemma stem_app (s rest : str) : clean s -> tail_ok rest -> stem (s ++ rest) = s.
Proof.
  intros Hs Hr. unfold stem. rewrite break_app_stop by exact Hr.
  cbn. now rewrite (break_free _ s Hs).
Qed.

Lemma Forall_break_snd (P : ascii -> Prop) (p : ascii -> bool) (x : str) :
  Forall P x -> Forall P (snd (break p x)).
Proof.
  induction 1 as [|c x Hc Hx IH]; cbn; [constructor|].
  destruct (p c); cbn; [now constructor|].
  destruct (break p x); exact IH.
Qed.

Lemma dropwhile_app_stop (p : ascii -> bool) (s rest : str) :
  match rest with [] => True | d :: _ => p d = false end ->
  dropwhile p (s ++ rest) = dropwhile p s ++ rest.
Proof.
  intros Hr. induction s as [|c s IH]; cbn.
  - destruct rest as [|d rest]; cbn; [reflexivity|now rewrite Hr].
  - destruct (p c); [exact IH|reflexivity].
Qed.

Lemma preprocess_app (s rest : str) :
  clean s -> tail_ok rest ->
  exists s' rest',
    preprocess (s ++ rest) = s' ++ rest' /\ preprocess s = s'
    /\ clean s' /\ tail_ok rest'.
Proof.
  intros Hs Hr. unfold preprocess, lstrip_of.
  rewrite dropwhile_app_stop, filter_app.
  - eexists _, _. split; [reflexivity|]. split; [reflexivity|]. split.
    + unfold clean. apply Forall_forall. intros c Hc.
      apply filter_In in Hc as [Hc _].
      assert (H : Forall (fun c => is_mark c = false) (dropwhile c0_control_or_space s))
        by now apply Forall_dropwhile.
      rewrite Forall_forall in H. now apply H.
    + destruct rest as [|d rest]; cbn; [exact I|]. unfold tail_ok in Hr.
      destruct (qf_cases d Hr) as [-> | ->]; cbn; reflexivity.
  - destruct rest as [|d rest]; [exact I|]. unfold tail_ok in Hr.
    destruct (qf_cases d Hr) as [-> | ->]; reflexivity.
Qed.

(** *** The scheme *)

Lemma find_lt (c : ascii) (s : str) (n : nat) :
  find c s = Some n -> (n < length s)%nat.
Proof.
  revert n. induction s as [|a s IH]; intros n; cbn; [discriminate|].
  destruct (is_char c a); [intros [= <-]; lia|].
  destruct (find c s) as [m|]; cbn; [|discriminate].
  intros [= <-]. specialize (IH m eq_refl). lia.
Qed.

Lemma find_app_some (c : ascii) (s r : str) (n : nat) :
  find c s = Some n -> find c (s ++ r) = Some n.
Proof.
  revert n. induction s as [|a s IH]; intros n; cbn; [discriminate|].
  destruct (is_char c a); [auto|].
  destruct (find c s) as [m|]; cbn; [|discriminate].
  intros [= <-]. now rewrite (IH m eq_refl).
Qed.

Lemma find_app_none (c : ascii) (s r : str) :
  find c s = None ->
  find c (s ++ r) = option_map (fun k => (length s + k)%nat) (find c r).
Proof.
  induction s as [|a s IH]; cbn.
  - intros _. destruct (find c r); reflexivity.
  - destruct (is_char c a); [discriminate|].
    destruct (find c s); cbn; [discriminate|]. intros _.
    rewrite IH by reflexivity. destruct (find c r); reflexivity.
Qed.

Lemma scheme_char_mark (d : ascii) : is_mark d = true -> scheme_char d = false.
Proof. intros H. destruct (qf_cases d H) as [-> | ->]; reflexivity. Qed.

Lemma split_scheme_app (s rest : str) :
  clean s -> tail_ok rest ->
  split_scheme (s ++ rest) = (fst (split_scheme s), snd (split_scheme s) ++ rest)
  /\ clean (snd (split_scheme s)).
Proof.
  intros Hs Hr. unfold split_scheme.
  destruct (find ":" s) as [n|] eqn:En.
  - rewrite (find_app_some _ _ rest _ En). pose proof (find_lt _ _ _ En) as Hn.
    destruct n as [|i]; [destruct s; cbn; auto|].
    destruct s as [|c s]; [discriminate|]. cbn [app].
    change (c :: s ++ rest) with ((c :: s) ++ rest).
    set (u := c :: s) in *.
    rewrite firstn_app, skipn_app.
    replace (S i - length u)%nat with O by lia.
    replace (S (S i) - length u)%nat with O by lia.
    rewrite firstn_O, skipn_O, app_nil_r.
    destruct (ascii_alpha c && forallb scheme_char (firstn (S i) u));
      cbn [fst snd]; (split; [reflexivity|]); [now apply Forall_skipn|exact Hs].
  - rewrite (find_app_none _ _ rest En).
    destruct (find ":" rest) as [k|] eqn:Ek; cbn [option_map].
    + destruct rest as [|d rest]; [discriminate|]. unfold tail_ok in Hr.
      assert (Hk : exists k', k = S k').
      { cbn [find] in Ek. destruct (is_char ":" d) eqn:Ed.
        - apply is_char_eq in Ed. subst d. discriminate Hr.
        - destruct (find ":" rest); cbn [option_map] in Ek; [|discriminate].
          injection Ek as <-. eauto. }
      destruct Hk as [k' ->].
      replace (length s + S k')%nat with (S (length s + k')) by lia.
      assert (Hf : forallb scheme_char (firstn (S (length s + k')) (s ++ d :: rest))
                   = false).
      { rewrite firstn_app.
        replace (S (length s + k') - length s)%nat with (S k') by lia.
        cbn [firstn]. rewrite forallb_app. cbn [forallb].
        rewrite (scheme_char_mark d Hr). cbn. apply andb_false_r. }
      cbn [fst snd]. split; [|exact Hs].
      destruct (s ++ d :: rest) as [|c t] eqn:Eapp; [reflexivity|].
      now rewrite Hf, andb_false_r.
    + cbn [fst snd]. split; [reflexivity|exact Hs].
Qed.

(** *** The netloc *)

Lemma mark_not_slash (d : ascii) : is_mark d = true -> Ascii.eqb "/" d = false.
Proof. intros H. destruct (qf_cases d H) as [-> | ->]; reflexivity. Qed.

Lemma mark_ends_netloc (d : ascii) :
  is_mark d = true -> char_in (lit "/?#") d = true.
Proof. intros H. destruct (qf_cases d H) as [-> | ->]; reflexivity. Qed.

Lemma startswith_slashes_app (r rest : str) :
  tail_ok rest -> startswith (lit "//") (r ++ rest) = startswith (lit "//") r.
Proof.
  intros Hr.
  assert (H1 : forall a : str, startswith ("/"%char :: a) rest = false).
  { intros a. destruct rest as [|d rest]; [reflexivity|]. cbn [startswith].
    now rewrite (mark_not_slash d Hr). }
  destruct r as [|a [|b r]]; cbn [app].
  - apply H1.
  - destruct rest as [|d rest]; [reflexivity|].
    cbn [lit list_ascii_of_string startswith].
    rewrite (mark_not_slash d Hr). cbn [andb]. now rewrite !andb_false_r.
  - reflexivity.
Qed.

Lemma locate_app (ok : str -> bool) (r rest : str) :
  clean r -> tail_ok rest ->
  match locate ok r with
  | Ret (n, b) => locate ok (r ++ rest) = Ret (n, b ++ rest) /\ clean b
  | Raise e => locate ok (r ++ rest) = Raise e
  end.
Proof.
  intros Hc Hr. unfold locate. rewrite (startswith_slashes_app r rest Hr).
  destruct (startswith (lit "//") r) eqn:E; [|auto].
  unfold splitnetloc.
  assert (Hlen : skipn 2 (r ++ rest) = skipn 2 r ++ rest).
  { destruct r as [|a [|b r]]; try discriminate E; [|reflexivity].
    cbn in E. now rewrite andb_false_r in E. }
  rewrite Hlen, break_app_stop.
  - pose proof (Forall_break_snd _ (char_in (lit "/?#")) _ (Forall_skipn _ 2 _ Hc))
      as Hb.
    destruct (break (char_in (lit "/?#")) (skipn 2 r)) as [n b]. cbn [fst snd] in *.
    destruct ((char_in n "[" && negb (char_in n "]"))
              || (char_in n "]" && negb (char_in n "["))); [reflexivity|].
    destruct (char_in n "[" && char_in n "]" && negb (ok n)); [reflexivity|].
    auto.
  - destruct rest as [|d rest]; [exact I|]. now apply mark_ends_netloc.
Qed.

(** *** Fragment and query *)

Lemma split_first_none (c : ascii) (b : str) :
  Forall (fun a => is_char c a = false) b -> split_first c b = None.
Proof.
  induction 1 as [|a b Ha Hb IH]; cbn; [reflexivity|]. now rewrite Ha, IH.
Qed.

Lemma split_first_app (c : ascii) (b t : str) :
  Forall (fun a => is_char c a = false) b ->
  split_first c (b ++ t)
  = match split_first c t with
    | Some (x, y) => Some (b ++ x, y)
    | None => None
    end.
Proof.
  induction 1 as [|a b Ha Hb IH]; cbn.
  - destruct (split_first c t) as [[x y]|]; reflexivity.
  - rewrite Ha, IH. destruct (split_first c t) as [[x y]|]; reflexivity.
Qed.

Lemma clean_no (c : ascii) (b : str) :
  is_mark c = true -> clean b -> Forall (fun a => is_char c a = false) b.
Proof.
  intros Hc Hb. eapply Forall_impl; [|exact Hb]. intros a Ha. cbv beta in Ha.
  destruct (is_char c a) eqn:E; [|reflexivity].
  apply is_char_eq in E. subst a. congruence.
Qed.

Lemma split_tail_path (b rest : str) :
  clean b -> tail_ok rest -> fst (fst (split_tail (b ++ rest))) = b.
Proof.
  intros Hb Hr. unfold split_tail.
  pose proof (clean_no "#" b eq_refl Hb) as Hh.
  pose proof (clean_no "?" b eq_refl Hb) as Hq.
  rewrite (split_first_app "#" b rest Hh).
  destruct rest as [|d rest].
  - cbn [split_first]. rewrite app_nil_r, (split_first_none "?" b Hq). reflexivity.
  - destruct (qf_cases d Hr) as [-> | ->].
    + cbn [split_first]. change (is_char "#" "?") with false. cbv iota.
      destruct (split_first "#" rest) as [[x y]|];
        rewrite (split_first_app "?" b _ Hq); cbn [split_first];
        change (is_char "?" "?") with true; cbv iota; rewrite app_nil_r;
        reflexivity.
    + cbn [split_first]. change (is_char "#" "#") with true. cbv iota.
      rewrite app_nil_r, (split_first_none "?" b Hq). reflexivity.
Qed.

(** *** The name depends on the stem alone *)

Lemma url_to_filename_app (ok : str -> bool) (s rest : str) :
  clean s -> tail_ok rest ->
  url_to_filename ok (s ++ rest) = url_to_filename ok s.
Proof.
  intros Hs Hr.
  assert (Hparse :
    match urlparse ok s with
    | Ret q => exists q', urlparse ok (s ++ rest) = Ret q'
                          /\ netloc q' = netloc q /\ path q' = path q
    | Raise e => urlparse ok (s ++ rest) = Raise e
    end).
  { unfold urlparse, urlsplit.
    destruct (preprocess_app s rest Hs Hr) as (s1 & r1 & E1 & E1' & Hs1 & Hr1).
    rewrite E1, E1'.
    destruct (split_scheme_app s1 r1 Hs1 Hr1) as [E2 Hs2].
    rewrite E2. destruct (split_scheme s1) as [sc s2]. cbn [fst snd] in *.
    pose proof (locate_app ok s2 r1 Hs2 Hr1) as E3.
    destruct (locate ok s2) as [[n b]|e].
    - destruct E3 as [E3 Hb]. rewrite E3. cbn [obind].
      pose proof (split_tail_path b r1 Hb Hr1) as E4.
      pose proof (split_tail_path b [] Hb I) as E5. rewrite app_nil_r in E5.
      destruct (split_tail (b ++ r1)) as [[p1 q1] f1].
      destruct (split_tail b) as [[p2 q2] f2]. cbn [fst] in E4, E5. subst p1 p2.
      cbn [obind].
      destruct (existsb (str_eqb sc) uses_params && char_in b ";");
        [destruct (splitparams b)|]; eexists; split; try reflexivity; auto.
    - rewrite E3. reflexivity. }
  unfold url_to_filename.
  destruct (urlparse ok s) as [q|e].
  - destruct Hparse as (q' & -> & En & Ep). cbn [obind]. now rewrite En, Ep.
  - now rewrite Hparse.
Qed.

Lemma url_to_filename_stem (ok : str -> bool) (url : str) :
  url_to_filename ok url = url_to_filename ok (stem url).
Proof.
  destruct (break_parts is_mark url) as (E & Hc & Ht).
  rewrite E at 1. now apply url_to_filename_app.
Qed.

Lemma filename_of_root (netloc : str) :
  filename_of netloc [] = filename_of netloc (lit "/index.html")
  /\ filename_of netloc (lit "/") = filename_of netloc (lit "/index.html").
Proof. split; reflexivity. Qed.

Lemma filename_of_no_host (path : str) :
  filename_of [] path = filename_of (lit "site") path.
Proof. reflexivity. Qed.

(** C9.  The name is a function of the URL up to its first [?] or [#]:
    two URLs with the same stem give the same result, so appending or
    changing a query string or a fragment changes nothing (both captures
    write the same file); a parsed path that is empty or [/] gives the name
    of the path [/index.html]; and an empty netloc gives the name of the
    host [site]. *)
Theorem C9_filename_ignores_query_and_fragment :
  forall (ok : str -> bool),
    (forall u1 u2, stem u1 = stem u2 ->
       url_to_filename ok u1 = url_to_filename ok u2)
    /\ (forall u q, clean u ->
          url_to_filename ok (u ++ lit "?" ++ q) = url_to_filename ok u
          /\ url_to_filename ok (u ++ lit "#" ++ q) = url_to_filename ok u)
    /\ (forall u parsed, urlparse ok u = Ret parsed ->
          (path parsed = [] \/ path parsed = lit "/" ->
             url_to_filename ok u
             = Ret (filename_of (netloc parsed) (lit "/index.html")))
          /\ (netloc parsed = [] ->
                url_to_filename ok u
                = Ret (filename_of (lit "site") (path parsed)))).
Proof.
  intros ok. split; [|split].
  - intros u1 u2 E.
    now rewrite (url_to_filename_stem ok u1), (url_to_filename_stem ok u2), E.
  - intros u q Hu. split; (apply url_to_filename_app; [exact Hu|reflexivity]).
  - intros u parsed E. unfold url_to_filename. rewrite E. cbn [obind]. split.
    + intros [-> | ->]; [rewrite (proj1 (filename_of_root _))
                        |rewrite (proj2 (filename_of_root _))]; reflexivity.
    + intros ->. now rewrite filename_of_no_host.
Qed.

Lemma C9_filename_ignores_query_and_fragment_witness :
  url_to_filename any_bracketed_host (lit "https://example.com/a/b.html?x=1#top")
  = url_to_filename any_bracketed_host (lit "https://example.com/a/b.html?y=2")
  /\ url_to_filename any_bracketed_host (lit "https://example.com/?q")
     = Ret (lit "example_com_index_html.pdf")
  /\ url_to_filename any_bracketed_host (lit "a/b.html")
     = Ret (lit "site_a_b_html.pdf").
Proof.
  destruct (C9_filename_ignores_query_and_fragment any_bracketed_host)
    as (Hstem & _ & Hparts).
  split; [apply Hstem; reflexivity|]. split.
  - apply (proj1 (Hparts (lit "https://example.com/?q")
                    (mkParse (lit "https") (lit "example.com") (lit "/") [] (lit "q") [])
                    eq_refl)).
    right. reflexivity.
  - apply (proj2 (Hparts (lit "a/b.html")
                    (mkParse [] [] (lit "a/b.html") [] [] []) eq_refl)).
    reflexivity.
Defined.

(** C5, as the code has it.  [url_to_filename] reads nothing but the URL,
    so equal URLs give equal results; for every URL that [urlparse]
    accepts it returns a name that ends with [.pdf] and holds none of the
    characters of the sanitizer's class (the nine punctuation marks and the
    code points 0x00..0x1F); when [urlparse] raises [ValueError] so does
    [url_to_filename]; and the URL of the scenario gives
    [example_com_a_b_html.pdf]. *)
Theorem C5_url_to_filename_shape :
  forall (ok : str -> bool) (url : str),
    (forall url', url = url' -> url_to_filename ok url = url_to_filename ok url')
    /\ (forall parsed, urlparse ok url = Ret parsed ->
          exists name,
            url_to_filename ok url = Ret name
            /\ endswith (lit ".pdf") name = true
            /\ legal_name name)
    /\ (forall e, urlparse ok url = Raise e -> url_to_filename ok url = Raise e)
    /\ url_to_filename ok (lit "https://example.com/a/b.html?x=1")
       = Ret (lit "example_com_a_b_html.pdf").
Proof.
  intros ok url. split; [now intros url' <-|]. split; [|split].
  - intros parsed E. unfold url_to_filename. rewrite E. cbn [obind].
    eexists. split; [reflexivity|]. apply filename_of_ok.
  - intros e E. unfold url_to_filename. now rewrite E.
  - vm_compute. reflexivity.
Qed.

Lemma C5_url_to_filename_shape_witness :
  exists name,
    url_to_filename any_bracketed_host (lit "http://[::1]:8080/a<b>.PDF") = Ret name
    /\ endswith (lit ".pdf") name = true
    /\ legal_name name.
Proof.
  destruct (C5_url_to_filename_shape any_bracketed_host
              (lit "http://[::1]:8080/a<b>.PDF")) as (_ & H & _).
  apply (H (mkParse (lit "http") (lit "[::1]:8080") (lit "/a<b>.PDF") [] [] [])).
  vm_compute. reflexivity.
Defined.

(** C5 as stated fails where [urlparse] refuses the URL: an unmatched
    square bracket in the netloc raises [ValueError], whatever the check of
    bracketed hosts, and there is no file name. *)
Lemma C5_unparsable_url_has_no_name :
  url_to_filename any_bracketed_host (lit "http://[") = Raise ValueError
  /\ url_to_filename (fun _ => false) (lit "http://[") = Raise ValueError.
Proof. split; vm_compute; reflexivity. Qed.

End NamingFacts.

Module CaptchaFacts.
Import Text Captcha.

Lemma some_includes_app (w : str) (a b : list str) :
  some_includes w (a ++ b) = some_includes w a || some_includes w b.
Proof. apply existsb_app. Qed.

Lemma some_includes_push (w : str) (cond : bool) (name : str) :
  some_includes w (push_if cond name) = cond && contains w name.
Proof. destruct cond; cbn; [apply orb_false_r|reflexivity]. Qed.

(** Of the nine signal names only the provider signals hold a provider
    name, each its own. *)
Lemma provider_words (d : Document) :
  let bodyText := lower (body_text d) in
  some_includes (lit "cloudflare") (collect_signals d)
    = cloudflare_marks (querySelector d) bodyText
  /\ some_includes (lit "recaptcha") (collect_signals d)
    = recaptcha_marks (querySelector d) bodyText
  /\ some_includes (lit "hcaptcha") (collect_signals d)
    = hcaptcha_marks (querySelector d) bodyText.
Proof.
  cbv zeta. unfold collect_signals.
  repeat split; rewrite !some_includes_app, !some_includes_push;
    repeat match goal with
           | |- context [contains (lit ?w) (lit ?n)] =>
               let v := eval vm_compute in (contains (lit w) (lit n)) in
               change (contains (lit w) (lit n)) with v
           end;
    rewrite ?andb_false_r, ?andb_true_r, ?orb_false_r; reflexivity.
Qed.

Lemma found_iff_signals (d : Document) :
  found (classify d) = true <-> collect_signals d <> [].
Proof.
  cbn. destruct (collect_signals d); cbn; split; congruence.
Qed.

Lemma mentions_iff (w : str) (l : list str) :
  mentions w l <-> some_includes w l = true.
Proof. unfold mentions, some_includes. symmetry. apply existsb_exists. Qed.

(** The precedence of the script, over any list of signals. *)
Lemma provider_precedence (d : Document) :
  let r := classify d in
  (mentions (lit "cloudflare") (signals r) -> provider r = lit "cloudflare")
  /\ (~ mentions (lit "cloudflare") (signals r) ->
      mentions (lit "recaptcha") (signals r) -> provider r = lit "recaptcha")
  /\ (~ mentions (lit "cloudflare") (signals r) ->
      ~ mentions (lit "recaptcha") (signals r) ->
      mentions (lit "hcaptcha") (signals r) -> provider r = lit "hcaptcha")
  /\ (~ mentions (lit "cloudflare") (signals r) ->
      ~ mentions (lit "recaptcha") (signals r) ->
      ~ mentions (lit "hcaptcha") (signals r) ->
      provider r = if found r then lit "generic" else lit "unknown").
Proof.
  cbv zeta. rewrite !mentions_iff. cbn [classify signals provider found].
  destruct (some_includes (lit "cloudflare") (collect_signals d));
    destruct (some_includes (lit "recaptcha") (collect_signals d));
    destruct (some_includes (lit "hcaptcha") (collect_signals d));
    repeat split; intros; try reflexivity; congruence.
Qed.

(** C2, as the code has it.  For every page whose lower-cased body text
    contains "checking your browser before accessing", the detection has
    [found = true] and holds the signal "text: checking your browser"; the
    provider follows the precedence cloudflare, recaptcha, hcaptcha,
    generic over the words the signal strings include; it is "cloudflare"
    exactly when the Cloudflare condition of the script holds (a Cloudflare
    selector, or "cloudflare" in the body text); and when the phrase is the
    only signal the provider is "generic". *)
Theorem C2_checking_browser_detection :
  forall d : Document,
    contains (lit "checking your browser before accessing")
             (lower (body_text d)) = true ->
    let r := detect_captcha (Evaluated d) in
    found r = true
    /\ In (lit "text: checking your browser") (signals r)
    /\ ((mentions (lit "cloudflare") (signals r) -> provider r = lit "cloudflare")
        /\ (~ mentions (lit "cloudflare") (signals r) ->
            mentions (lit "recaptcha") (signals r) -> provider r = lit "recaptcha")
        /\ (~ mentions (lit "cloudflare") (signals r) ->
            ~ mentions (lit "recaptcha") (signals r) ->
            mentions (lit "hcaptcha") (signals r) -> provider r = lit "hcaptcha")
        /\ (~ mentions (lit "cloudflare") (signals r) ->
            ~ mentions (lit "recaptcha") (signals r) ->
            ~ mentions (lit "hcaptcha") (signals r) ->
            provider r = lit "generic"))
    /\ (provider r = lit "cloudflare"
        <-> cloudflare_marks (querySelector d) (lower (body_text d)) = true)
    /\ (signals r = [lit "text: checking your browser"] ->
        provider r = lit "generic").
Proof.
  intros d Hphrase. cbv zeta. cbn [detect_captcha].
  assert (Hin : In (lit "text: checking your browser") (collect_signals d)).
  { unfold collect_signals. rewrite Hphrase.
    apply in_or_app; right. apply in_or_app; right.
    apply in_or_app; left. left. reflexivity. }
  assert (Hfound : found (classify d) = true).
  { apply CaptchaFacts.found_iff_signals. intros E. now rewrite E in Hin. }
  destruct (provider_precedence d) as (P1 & P2 & P3 & P4). cbv zeta in *.
  destruct (provider_words d) as (W1 & W2 & W3). cbv zeta in *.
  split; [exact Hfound|]. split; [exact Hin|].
  split; [repeat split; auto|].
  - intros H1 H2 H3. rewrite (P4 H1 H2 H3), Hfound. reflexivity.
  - split.
    + rewrite <- W1. cbn [classify provider signals found].
      destruct (some_includes (lit "cloudflare") (collect_signals d));
        [tauto|].
      destruct (some_includes (lit "recaptcha") (collect_signals d));
        [split; discriminate|].
      destruct (some_includes (lit "hcaptcha") (collect_signals d));
        [split; discriminate|].
      destruct (0 <? length (collect_signals d))%nat; split; discriminate.
    + cbn [classify provider signals found]. intros ->. reflexivity.
Qed.

Lemma C2_checking_browser_detection_witness :
  found (detect_captcha (Evaluated interstitial)) = true
  /\ provider (detect_captcha (Evaluated interstitial)) = lit "generic".
Proof.
  destruct (C2_checking_browser_detection interstitial eq_refl)
    as (Hf & _ & _ & _ & Hg).
  split; [exact Hf|]. apply Hg. reflexivity.
Defined.

(** C2 as stated fails on the page of the scenario: the phrase is in the
    body text, it is the only signal, and the provider is "generic", not
    "cloudflare". *)
Lemma C2_interstitial_is_generic :
  contains (lit "checking your browser before accessing")
           (lower (body_text interstitial)) = true
  /\ detect_captcha (Evaluated interstitial)
     = mkDetection true (lit "generic") [lit "text: checking your browser"]
  /\ provider (detect_captcha (Evaluated interstitial)) <> lit "cloudflare".
Proof. repeat split. discriminate. Qed.

End CaptchaFacts.

Module SiteRulesFacts.
Import Text Regex SiteRules TextFacts RegexFacts.

(** *** [match_rules_for_host] *)

Lemma rule_applies_iff (h : str) (r : SiteRule) :
  rule_applies h r = true <-> host_matches h r.
Proof.
  unfold rule_applies, host_matches. cbv zeta.
  rewrite orb_true_iff, str_eqb_eq, endswith_split. reflexivity.
Qed.

Lemma filter_subseq (A : Type) (f : A -> bool) (l : list A) :
  subseq (filter f l) l.
Proof.
  induction l as [|x l IH]; cbn; [constructor|].
  destruct (f x); now constructor.
Qed.

Lemma lower_char_idem (c : ascii) : lower_char (lower_char c) = lower_char c.
Proof. destruct c as [[] [] [] [] [] [] [] []]; reflexivity. Qed.

Lemma lower_idem (s : str) : lower (lower s) = lower s.
Proof.
  unfold lower. rewrite map_map. apply map_ext. exact lower_char_idem.
Qed.

Lemma parsed_domain_lower (text : str) (r : SiteRule) :
  In r (parse_site_rules text) -> lower (domain r) = domain r.
Proof.
  unfold parse_site_rules. destruct (strip text); [intros []|].
  intros H. apply in_map_iff in H as (m & <- & _). cbn. apply lower_idem.
Qed.

(** *** [parse_site_rules]: no terminator, no rule *)

Lemma chars_ci_startswith (l s rest : str) :
  chars true l s = Some rest -> startswith (lower l) (lower s) = true.
Proof.
  revert s. induction l as [|a l IH]; intros s; cbn; [reflexivity|].
  destruct s as [|c s]; [discriminate|]. cbn.
  destruct (Ascii.eqb (lower_char a) (lower_char c)); [|discriminate].
  intros H. cbn. eauto.
Qed.

Lemma startswith_ci_chars (l s : str) :
  startswith (lower l) (lower s) = true -> chars true l s <> None.
Proof.
  revert s. induction l as [|a l IH]; intros s; cbn; [discriminate|].
  destruct s as [|c s]; [discriminate|]. cbn.
  destruct (Ascii.eqb (lower_char a) (lower_char c)); [|discriminate].
  cbn. apply IH.
Qed.

Lemma contains_cons (p s : str) (c : ascii) :
  contains p s = true -> contains p (c :: s) = true.
Proof. intros H. cbn. rewrite H. apply orb_true_r. Qed.

Lemma contains_suffix (p t s : str) :
  suffix t s -> startswith p t = true -> contains p s = true.
Proof.
  intros [pre ->] H. induction pre as [|c pre IH]; cbn [app].
  - destruct t; cbn; rewrite H; reflexivity.
  - now apply contains_cons.
Qed.

Lemma lower_app (a b : str) : lower (a ++ b) = lower a ++ lower b.
Proof. apply map_app. Qed.

Lemma suffix_lower (t s : str) : suffix t s -> suffix (lower t) (lower s).
Proof. intros [pre ->]. exists (lower pre). apply lower_app. Qed.

(** A literal the text does not contain matches at none of its suffixes. *)
Lemma absent_literal (l body v : str) :
  contains_ci l body = false -> suffix v body -> chars true l v = None.
Proof.
  intros Hc Hv. destruct (chars true l v) eqn:E; [|reflexivity].
  apply chars_ci_startswith in E.
  unfold contains_ci in Hc.
  rewrite (contains_suffix _ _ _ (suffix_lower _ _ Hv) E) in Hc. discriminate.
Qed.

(** Every match of the pattern ends with the terminator. *)
Lemma match_needs_end (s : str) (m : Match) :
  match_here true pattern s = Some m -> contains_ci (lit "@end") s = true.
Proof.
  unfold match_here, pattern. intros H.
  apply exec_cat_inv in H as (g1 & s1 & S1 & H).
  apply exec_cat_inv in H as (g2 & s2 & S2 & H).
  apply exec_cat_inv in H as (g3 & s3 & S3 & H).
  apply exec_cat_inv in H as (g4 & s4 & S4 & H).
  apply exec_cat_inv in H as (g5 & s5 & S5 & H).
  apply exec_cat_inv in H as (g6 & s6 & S6 & H).
  unfold terminator in H.
  apply exec_cat_inv in H as (g7 & s7 & S7 & H).
  cbn [exec] in H.
  destruct (chars true (lit "@end") s7) as [rest|] eqn:E; [|discriminate].
  apply chars_ci_startswith in E.
  unfold contains_ci. eapply contains_suffix; [|exact E].
  apply suffix_lower.
  repeat (eapply suffix_trans; [eassumption|]). apply suffix_refl.
Qed.

Lemma contains_ci_tail (p s : str) (c : ascii) :
  contains_ci p (c :: s) = false -> contains_ci p s = false.
Proof.
  unfold contains_ci. cbn [lower map contains]. intros H.
  apply orb_false_iff in H as [_ H]. exact H.
Qed.

Lemma finditer_no_end (s : str) :
  contains_ci (lit "@end") s = false ->
  forall fuel, finditer_from fuel true pattern s = [].
Proof.
  intros Hs fuel. revert s Hs.
  induction fuel as [|fuel IH]; intros s Hs; [reflexivity|]. cbn [finditer_from].
  destruct (match_here true pattern s) as [m|] eqn:E.
  - apply match_needs_end in E. congruence.
  - destruct s as [|c s]; [reflexivity|]. apply IH. eapply contains_ci_tail; eauto.
Qed.


(** *** [parse_site_rules]: a block with a CSS section only *)

Lemma space_lower (c : ascii) : isspace c = true -> lower_char c = c.
Proof. destruct c as [[] [] [] [] [] [] [] []]; vm_compute; congruence. Qed.

Lemma lower_space (x : ascii) : isspace (lower_char x) = isspace x.
Proof. destruct x as [[] [] [] [] [] [] [] []]; reflexivity. Qed.

(** No white space matches a character that is not white space. *)
Lemma space_mismatch (x c : ascii) :
  isspace x = false -> isspace c = true -> same_char true x c = false.
Proof.
  intros Hx Hc. unfold same_char. rewrite (space_lower c Hc).
  destruct (Ascii.eqb (lower_char x) c) eqn:E; [|reflexivity].
  apply Ascii.eqb_eq in E. rewrite <- E, lower_space in Hc. congruence.
Qed.

Lemma exec_terminator (R : Type) (g : groups) (t : str)
  (k : groups -> str -> option R) :
  exec true terminator g t k
  = match chars true (lit "@end") (dropwhile isspace t) with
    | Some rest => k g rest
    | None => None
    end.
Proof.
  unfold terminator. cbn [exec].
  exact (spaces_then R true "@" (lit "end") (k g)
           (fun c => space_mismatch "@" c eq_refl) t 0).
Qed.

Lemma exec_js_section (R : Type) (g : groups) (t : str)
  (k : groups -> str -> option R) :
  exec true js_section g t k
  = if (1 <=? length (takewhile isspace t))%nat
    then match chars true (lit "JS:") (dropwhile isspace t) with
         | Some rest =>
             exec true (Cat (Rep true 0 isspace) (Grp "js" (Rep false 0 any_char)))
                  g rest k
         | None => None
         end
    else None.
Proof.
  unfold js_section. cbn [exec].
  exact (spaces_then R true "J" (lit "S:") _
           (fun c => space_mismatch "J" c eq_refl) t 1).
Qed.

Lemma takewhile_run (p : ascii -> bool) (run rest : str) :
  Forall (fun c => p c = true) run ->
  match rest with [] => True | c :: _ => p c = false end ->
  takewhile p (run ++ rest) = run /\ dropwhile p (run ++ rest) = rest.
Proof.
  intros Hrun Hrest. induction Hrun as [|c run Hc Hrun IH]; cbn.
  - destruct rest as [|c rest]; [auto|]. cbn. now rewrite Hrest.
  - rewrite Hc. destruct IH as [-> ->]. auto.
Qed.

(** At the real terminator the block ends without a JS section. *)
Lemma block_end_here (R : Type) (g : groups) (trail tail : str)
  (k : groups -> str -> option R) :
  spaces trail ->
  exec true block_end g (trail ++ lit "@end" ++ tail) k = k g tail.
Proof.
  intros Ht. unfold block_end. cbn [exec].
  rewrite exec_js_section, exec_terminator.
  destruct (takewhile_run isspace trail (lit "@end" ++ tail) Ht eq_refl)
    as [-> ->].
  rewrite chars_app.
  change (chars true (lit "JS:") (lit "@end" ++ tail)) with (@None str).
  destruct (1 <=? length trail)%nat; reflexivity.
Qed.

(** Text that ends with a character outside [p] keeps it under [lstrip]. *)
Lemma dropwhile_keeps_last (p : ascii -> bool) (z : ascii) (Y : str) :
  p z = false ->
  forall w : str,
    exists w', suffix w' w
               /\ dropwhile p (w ++ [z]) = w' ++ [z]
               /\ dropwhile p ((w ++ [z]) ++ Y) = (w' ++ [z]) ++ Y.
Proof.
  intros Hz. induction w as [|c w (w' & Hs & E1 & E2)]; cbn.
  - rewrite Hz. exists []. repeat split. apply suffix_refl.
  - destruct (p c).
    + exists w'. repeat split; auto. now apply suffix_cons.
    + exists (c :: w). repeat split. apply suffix_refl.
Qed.

(** Inside the CSS text the block cannot end: neither marker is there. *)
Lemma block_end_inside (R : Type) (g : groups) (body w : str) (z y0 : ascii)
  (Y : str) (k : groups -> str -> option R) :
  contains_ci (lit "@end") body = false ->
  contains_ci (lit "js:") body = false ->
  suffix (w ++ [z]) body ->
  isspace z = false ->
  isspace y0 = true \/ y0 = "@"%char ->
  exec true block_end g ((w ++ [z]) ++ y0 :: Y) k = None.
Proof.
  intros Hend Hjs Hsuf Hz Hy. unfold block_end. cbn [exec].
  rewrite exec_js_section, exec_terminator.
  destruct (dropwhile_keeps_last isspace z (y0 :: Y) Hz w) as (w' & Hw' & _ & ->).
  assert (Hv : suffix (w' ++ [z]) body).
  { eapply suffix_trans; [|exact Hsuf].
    destruct Hw' as [pre ->]. exists pre. now rewrite app_assoc. }
  assert (Hne : w' ++ [z] <> []) by (destruct w'; discriminate).
  assert (Hy0 : forall x, isspace x = false -> same_char true x "@"%char = false ->
                          same_char true x y0 = false).
  { intros x Hx Hat. destruct Hy as [Hy | ->]; [now apply space_mismatch|exact Hat]. }
  rewrite (chars_not_straddling true y0 Y (lit "@end") (w' ++ [z]) Hne).
  - rewrite (chars_not_straddling true y0 Y (lit "JS:") (w' ++ [z]) Hne).
    + now destruct (1 <=? _)%nat.
    + repeat constructor; apply Hy0; reflexivity.
    + apply (absent_literal (lit "JS:") body); [exact Hjs|exact Hv].
  - repeat constructor; apply Hy0; reflexivity.
  - apply (absent_literal (lit "@end") body); [exact Hend|exact Hv].
Qed.

Lemma head_not_space (body trail tail : str) :
  spaces trail -> trimmed body -> (body = [] -> trail = []) ->
  match body ++ trail ++ lit "@end" ++ tail with
  | [] => True
  | c :: _ => isspace c = false
  end.
Proof.
  intros Ht [-> | (c0 & mid & _ & _ & -> & Hc & _)] Hb; [|exact Hc].
  rewrite (Hb eq_refl). reflexivity.
Qed.


Lemma strip_trimmed (s : str) : trimmed s -> strip s = s.
Proof.
  intros [-> | (c0 & mid & front & z & E0 & H0 & Ez & Hz)]; [reflexivity|].
  unfold strip, strip_of, lstrip_of, rstrip_of.
  assert (El : dropwhile isspace s = s) by (rewrite E0; cbn; now rewrite H0).
  rewrite El. rewrite Ez at 1. rewrite rev_app_distr. cbn. rewrite Hz.
  change (z :: rev front) with (rev [z] ++ rev front).
  rewrite <- rev_app_distr, rev_involutive. now symmetry.
Qed.

Lemma word_trimmed (d : str) : word d -> trimmed d.
Proof.
  intros [Hne Hd]. right.
  destruct d as [|c0 mid]; [congruence|].
  destruct (exists_last Hne) as (front & z & E).
  exists c0, mid, front, z. repeat split; auto.
  - now inversion Hd.
  - rewrite E in Hd. apply Forall_app in Hd as [_ Hd]. now inversion Hd.
Qed.

Lemma strip_nonempty (c : ascii) (s : str) :
  isspace c = false -> strip (c :: s) <> [].
Proof.
  intros Hc. unfold strip, strip_of, lstrip_of, rstrip_of. cbn [dropwhile].
  rewrite Hc. cbn [rev].
  destruct (dropwhile_keeps_last isspace c [] Hc (rev s)) as (w' & _ & E & _).
  rewrite E, rev_app_distr. discriminate.
Qed.

Lemma head_word (d rest : str) :
  word d ->
  match d ++ rest with [] => True | c :: _ => isspace c = false end.
Proof. intros [Hne Hd]. destruct d; [congruence|]. now inversion Hd. Qed.

Lemma head_space (ws rest : str) :
  spaces ws -> ws <> [] ->
  match ws ++ rest with [] => True | c :: _ => not_space c = false end.
Proof.
  intros Hws Hne. destruct ws as [|a ws]; [congruence|]. cbn [app].
  inversion Hws as [|? ? Ha _]; subst. unfold not_space. now rewrite Ha.
Qed.

Lemma word_not_space (d : str) :
  Forall (fun c => isspace c = false) d -> Forall (fun c => not_space c = true) d.
Proof.
  intros Hd. eapply Forall_impl; [|exact Hd].
  intros a Ha. unfold not_space. now rewrite Ha.
Qed.

Lemma length_nonempty (s : str) : s <> [] -> (1 <= length s)%nat.
Proof. destruct s; [congruence|cbn; lia]. Qed.


(** *** [strip] splits a text in three *)

Lemma takewhile_Forall (p : ascii -> bool) (s : str) :
  Forall (fun c => p c = true) (takewhile p s).
Proof.
  induction s as [|c s IH]; cbn; [constructor|].
  destruct (p c) eqn:E; now constructor.
Qed.

Lemma dropwhile_head (p : ascii -> bool) (s : str) (c : ascii) (t : str) :
  dropwhile p s = c :: t -> p c = false.
Proof.
  induction s as [|a s IH]; cbn; [discriminate|].
  destruct (p a) eqn:E; [exact IH|]. now intros [= <- _].
Qed.

Lemma strip_parts (c : str) :
  exists lead trail,
    c = lead ++ strip c ++ trail
    /\ spaces lead /\ spaces trail
    /\ trimmed (strip c) /\ (strip c = [] -> trail = []).
Proof.
  set (c1 := dropwhile isspace c).
  exists (takewhile isspace c), (rev (takewhile isspace (rev c1))).
  assert (E1 : c1 = strip c ++ rev (takewhile isspace (rev c1))).
  { unfold strip, strip_of, rstrip_of, lstrip_of. fold c1.
    rewrite <- rev_app_distr, takewhile_dropwhile. now rewrite rev_involutive. }
  assert (Hhead : forall a t, c1 = a :: t -> isspace a = false).
  { intros a t E. eapply dropwhile_head. exact E. }
  split; [rewrite <- E1; symmetry; apply takewhile_dropwhile|].
  split; [apply takewhile_Forall|].
  split; [apply Forall_rev, takewhile_Forall|].
  split.
  - destruct (strip c) as [|c0 mid] eqn:Es; [now left|]. right.
    assert (Hlast : exists front z, c0 :: mid = front ++ [z] /\ isspace z = false).
    { unfold strip, strip_of, rstrip_of, lstrip_of in Es. fold c1 in Es.
      destruct (dropwhile isspace (rev c1)) as [|z t] eqn:Ed; [discriminate Es|].
      exists (rev t), z. split; [rewrite <- Es; reflexivity|].
      eapply dropwhile_head. exact Ed. }
    destruct Hlast as (front & z & Ez & Hz).
    exists c0, mid, front, z. repeat split; auto.
    eapply Hhead. rewrite E1. reflexivity.
  - intros Es. rewrite Es in E1. cbn [app] in E1.
    destruct c1 as [|a t] eqn:Ec; [reflexivity|].
    pose proof (Hhead a t eq_refl) as Ha. exfalso.
    unfold strip, strip_of, rstrip_of, lstrip_of in Es. fold c1 in Es.
    rewrite Ec in Es. cbn [rev] in Es.
    destruct (dropwhile_keeps_last isspace a [] Ha (rev t)) as (w' & _ & E & _).
    rewrite E, rev_app_distr in Es. discriminate Es.
Qed.

Lemma contains_inv (p s : str) :
  contains p s = true -> exists v, suffix v s /\ startswith p v = true.
Proof.
  induction s as [|c s IH]; cbn.
  - rewrite orb_false_r. intros H. exists []. split; [apply suffix_refl|exact H].
  - intros H. apply orb_true_iff in H as [H | H].
    + exists (c :: s). split; [apply suffix_refl|exact H].
    + destruct (IH H) as (v & Hv & Hs). exists v. split; [now apply suffix_cons|exact Hs].
Qed.

Lemma startswith_app_r (p v t : str) :
  startswith p v = true -> startswith p (v ++ t) = true.
Proof.
  revert v. induction p as [|a p IH]; intros v; cbn; [reflexivity|].
  destruct v as [|c v]; [discriminate|]. cbn.
  intros H. apply andb_true_iff in H as [-> H]. cbn. now apply IH.
Qed.

(** A text free of a literal has no part that holds it. *)
Lemma contains_ci_part (l a b t : str) :
  contains_ci l (a ++ b ++ t) = false -> contains_ci l b = false.
Proof.
  intros H. destruct (contains_ci l b) eqn:E; [|reflexivity].
  unfold contains_ci in *. apply contains_inv in E as (v & [pre Ev] & Hs).
  rewrite !lower_app, Ev in H.
  rewrite (contains_suffix (lower l) (v ++ lower t)) in H; [discriminate| |].
  - exists (lower a ++ pre). now rewrite <- !app_assoc.
  - now apply startswith_app_r.
Qed.

(** Inside the JS text the terminator does not match. *)
Lemma terminator_inside (R : Type) (g : groups) (body w : str) (z y0 : ascii)
  (Y : str) (k : groups -> str -> option R) :
  contains_ci (lit "@end") body = false ->
  suffix (w ++ [z]) body ->
  isspace z = false ->
  isspace y0 = true \/ y0 = "@"%char ->
  exec true terminator g ((w ++ [z]) ++ y0 :: Y) k = None.
Proof.
  intros Hend Hsuf Hz Hy. rewrite exec_terminator.
  destruct (dropwhile_keeps_last isspace z (y0 :: Y) Hz w) as (w' & Hw' & _ & ->).
  assert (Hv : suffix (w' ++ [z]) body).
  { eapply suffix_trans; [|exact Hsuf].
    destruct Hw' as [pre ->]. exists pre. now rewrite app_assoc. }
  assert (Hne : w' ++ [z] <> []) by (destruct w'; discriminate).
  assert (Hy0 : forall x, isspace x = false -> same_char true x "@"%char = false ->
                          same_char true x y0 = false).
  { intros x Hx Hat. destruct Hy as [Hy | ->]; [now apply space_mismatch|exact Hat]. }
  rewrite (chars_not_straddling true y0 Y (lit "@end") (w' ++ [z]) Hne);
    [reflexivity| |].
  - repeat constructor; apply Hy0; reflexivity.
  - apply (absent_literal (lit "@end") body); [exact Hend|exact Hv].
Qed.

(** Where the CSS text ends, the block goes on with its JS section. *)
Lemma block_end_js (R : Type) (g : groups) (ws2 lead2 jsb trail tail : str)
  (k : groups -> str -> option R) (x : R) :
  spaces ws2 -> ws2 <> [] -> spaces lead2 -> spaces trail ->
  trimmed jsb -> (jsb = [] -> trail = []) ->
  contains_ci (lit "@end") jsb = false ->
  k (("js"%string, jsb) :: g) tail = Some x ->
  exec true block_end g
       (ws2 ++ lit "JS:" ++ lead2 ++ jsb ++ trail ++ lit "@end" ++ tail) k
  = Some x.
Proof.
  intros Hws2 Hne2 Hlead2 Htrail Hjsb Hempty Hend Hk.
  unfold block_end. cbn [exec]. rewrite exec_js_section.
  destruct (takewhile_run isspace ws2
              (lit "JS:" ++ lead2 ++ jsb ++ trail ++ lit "@end" ++ tail)
              Hws2 eq_refl) as [-> ->].
  assert (El : (1 <=? length ws2)%nat = true)
    by (apply Nat.leb_le; now apply length_nonempty).
  rewrite El, chars_app.
  match goal with
  | |- orelse ?a _ = _ => assert (E : a = Some x); [|now rewrite E]
  end.
  cbn [exec].
  apply rep_greedy_first; [now apply head_not_space| |exact Hlead2|cbn; lia].
  set (Y := trail ++ lit "@end" ++ tail).
  apply rep_lazy_first.
  - rewrite consumed_app, exec_terminator. unfold Y.
    destruct (takewhile_run isspace trail (lit "@end" ++ tail) Htrail eq_refl)
      as [_ ->].
    now rewrite chars_app.
  - intros i Hi.
    destruct Hjsb as [-> | (c0 & mid & front & z & _ & _ & Eb & Hz)];
      [cbn in Hi; lia|].
    assert (HY : exists y0 Y', Y = y0 :: Y' /\ (isspace y0 = true \/ y0 = "@"%char)).
    { unfold Y. destruct Htrail as [|c trail Hc _]; cbn; eauto. }
    destruct HY as (y0 & Y' & EY & Hy0). rewrite EY.
    assert (Hlen : (i <= length front)%nat).
    { rewrite Eb, length_app in Hi. cbn in Hi. lia. }
    assert (Eskip : skipn i jsb = skipn i front ++ [z]).
    { rewrite Eb, skipn_app.
      replace (i - length front)%nat with O by lia. reflexivity. }
    rewrite Eskip.
    apply terminator_inside with (body := jsb); auto.
    exists (firstn i front). rewrite app_assoc, firstn_skipn. exact Eb.
Qed.

(** The pattern matches nowhere but at an at-sign. *)
Lemma match_here_not_at (c : ascii) (s : str) :
  same_char true "@" c = false -> match_here true pattern (c :: s) = None.
Proof.
  intros H. unfold match_here, pattern. cbn [exec].
  change (lit "@domain") with ("@"%char :: lit "domain").
  now rewrite (chars_head_mismatch true "@" c _ s H).
Qed.













(** C4, as the code has it.  For every rule list and host the result is
    made of exactly the rules [r] of the list such that, with [d] the
    domain of [r] without its leading dots and [h] the lower-cased host,
    [h = d] or [h] ends with ["." ++ d]; the result keeps the order of the
    list; the case of the host is ignored, and a domain that comes from
    [parse_site_rules] is stored lower-cased; [www.example.com] and
    [example.com] match a rule for [example.com], [notexample.com] does
    not. *)
Theorem C4_match_rules_for_host :
  forall (rules : list SiteRule) (host : str),
    (forall r, In r (match_rules_for_host rules host)
               <-> In r rules /\ host_matches (lower host) r)
    /\ subseq (match_rules_for_host rules host) rules
    /\ (forall host', lower host' = lower host ->
          match_rules_for_host rules host' = match_rules_for_host rules host)
    /\ (forall text r, In r (parse_site_rules text) -> lower (domain r) = domain r)
    /\ match_rules_for_host [example_rule] (lit "www.example.com") = [example_rule]
    /\ match_rules_for_host [example_rule] (lit "notexample.com") = []
    /\ match_rules_for_host [example_rule] (lit "example.com") = [example_rule].
Proof.
  intros rules host. unfold match_rules_for_host. cbv zeta.
  split; [|split; [|split; [|split; [|repeat split]]]].
  - intros r. rewrite filter_In, rule_applies_iff. reflexivity.
  - apply filter_subseq.
  - intros host' ->. reflexivity.
  - exact parsed_domain_lower.
Qed.

(** C4 as stated fails for a domain written with a leading dot: the rule
    is returned for the host [example.com], which neither equals the
    domain nor ends with a dot followed by it. *)
Lemma C4_leading_dot_rule_matches :
  match_rules_for_host [dotted_rule] (lit "example.com") = [dotted_rule]
  /\ domain dotted_rule <> lit "example.com"
  /\ endswith (lit "." ++ domain dotted_rule) (lit "example.com") = false.
Proof. repeat split. discriminate. Qed.

End SiteRulesFacts.

Module RasterFacts.
Import Raster.
Local Open Scope Z_scope.

Lemma points_per_pixel :
  (PDF_POINTS_PER_INCH / CSS_PX_PER_INCH)%float = 0.75%float.
Proof. reflexivity. Qed.

Lemma layout_band_positive (w : Z) (m : float) (g : Layout) :
  layout w m = Ret g -> 1 <= native_px_per_page g.
Proof.
  unfold layout. destruct letter as [pw ph].
  destruct (py_div _ _) as [sc|]; [|discriminate]. cbn [obind].
  destruct (py_div _ _) as [npp|]; [|discriminate]. cbn [obind].
  destruct (py_int _) as [n|]; [|discriminate]. cbn [obind].
  intros [= <-]. cbn. lia.
Qed.

(** *** Arithmetic of the ceiling *)

Lemma ceil_div_zero (b : Z) : 1 <= b -> ceil_div 0 b = 0.
Proof. intros Hb. unfold ceil_div. apply Z.div_small. lia. Qed.

Lemma ceil_div_last (h b : Z) : 0 < h <= b -> ceil_div h b = 1.
Proof.
  intros Hh. unfold ceil_div.
  replace (h + b - 1) with (h - 1 + 1 * b) by lia.
  rewrite Z.div_add by lia. rewrite Z.div_small by lia. reflexivity.
Qed.

Lemma ceil_div_step (h b : Z) : 1 <= b -> ceil_div (h + b) b = ceil_div h b + 1.
Proof.
  intros Hb. unfold ceil_div.
  replace (h + b + b - 1) with (h + b - 1 + 1 * b) by lia.
  apply Z.div_add. lia.
Qed.

(** [ceil_div h b] is the least [n] with [h <= n * b]. *)
Lemma ceil_div_spec (h b : Z) :
  1 <= b -> b * (ceil_div h b - 1) < h <= b * ceil_div h b.
Proof.
  intros Hb. unfold ceil_div.
  pose proof (Z.div_mod (h + b - 1) b ltac:(lia)) as E.
  pose proof (Z.mod_pos_bound (h + b - 1) b ltac:(lia)) as M.
  lia.
Qed.

(** *** One iteration *)

Section Step.
Variables (img : Image) (g : Layout).
Let H := height_px img.
Let B := native_px_per_page g.

Lemma slice_step_top (y : Z) (c : Canvas) :
  fst (slice_step img g y c) = next_top img g y.
Proof. reflexivity. Qed.

Lemma slice_step_advances (y : Z) (c : Canvas) :
  1 <= B -> y < H -> y < fst (slice_step img g y c) <= H.
Proof.
  intros HB Hy. rewrite slice_step_top. unfold next_top. fold H B. lia.
Qed.

Lemma slice_step_canvas (y : Z) (c : Canvas) :
  pending c = [] ->
  exists d,
    snd (slice_step img g y c)
      = mkCanvas (pagesize c) [] (emitted c ++ [mkPage (pagesize c) [d]])
    /\ drawn d = crop img (0, y, width_px img, next_top img g y).
Proof.
  intros Hp. unfold slice_step, showPage, drawImage. cbn -[crop csspx_to_pdfpt].
  rewrite Hp. eexists. split; [reflexivity|]. reflexivity.
Qed.

End Step.

(** *** The loop *)

Lemma slice_loop_spec (fuel : nat) (img : Image) (g : Layout) :
  1 <= native_px_per_page g ->
  forall (y : Z) (c : Canvas),
    y <= height_px img ->
    (Z.to_nat (height_px img - y) <= fuel)%nat ->
    pending c = [] ->
    exists new,
      slice_loop fuel img g y c = Some (mkCanvas (pagesize c) [] (emitted c ++ new))
      /\ Z.of_nat (length new) = ceil_div (height_px img - y) (native_px_per_page g)
      /\ sum_Z (map band_height new) = height_px img - y
      /\ Forall (band_page img g (pagesize c)) new
      /\ (forall x r, 0 <= r < height_px img - y ->
            stacked (tiles new) x r = Some (getpixel img x (y + r))).
Proof.
  intros HB. set (H := height_px img). set (B := native_px_per_page g) in *.
  induction fuel as [|fuel IH]; intros y c Hy Hfuel Hp.
  - assert (y = H) by lia. subst y. cbn. rewrite Z.ltb_irrefl.
    exists []. rewrite app_nil_r, Z.sub_diag. destruct c; cbn in *; subst.
    split; [reflexivity|]. split; [symmetry; apply ceil_div_zero; lia|].
    split; [reflexivity|]. split; [constructor|]. intros; lia.
  - cbn [slice_loop]. fold H. destruct (Z.ltb_spec y H) as [Hlt|Hge].
    + destruct (slice_step img g y c) as [y' c'] eqn:E.
      pose proof (slice_step_top img g y c) as Ey.
      destruct (slice_step_canvas img g y c Hp) as (d & Ec & Ed).
      rewrite E in Ey, Ec. cbn in Ey, Ec. subst y' c'.
      unfold next_top in *. fold H B in Ed |- *.
      destruct (IH (Z.min H (y + B))
                   (mkCanvas (pagesize c) [] (emitted c ++ [mkPage (pagesize c) [d]])))
        as (new & Erun & Elen & Esum & Hall & Hpix); [lia|lia|reflexivity|].
      cbn [pagesize emitted] in *.
      exists (mkPage (pagesize c) [d] :: new).
      assert (Hd : height_px (drawn d) = Z.min H (y + B) - y)
        by (rewrite Ed; reflexivity).
      assert (Hw : width_px (drawn d) = width_px img)
        by (rewrite Ed; cbn; lia).
      split; [rewrite Erun, <- app_assoc; reflexivity|].
      split.
      { cbn [length]. rewrite Nat2Z.inj_succ, Elen.
        destruct (Z.le_ge_cases H (y + B)).
        - rewrite Z.min_l by lia. rewrite Z.sub_diag, ceil_div_zero by lia.
          rewrite ceil_div_last by lia. reflexivity.
        - rewrite Z.min_r by lia.
          replace (H - y) with (H - (y + B) + B) by lia.
          rewrite ceil_div_step by lia. lia. }
      split.
      { cbn [map sum_Z fold_right]. fold (sum_Z (map band_height new)).
        rewrite Esum. unfold band_height. cbn [page_content]. rewrite Hd. lia. }
      split.
      { constructor; [|exact Hall]. split; [reflexivity|].
        exists d. repeat split; auto; lia. }
      intros x r Hr. unfold tiles. cbn [flat_map page_image page_content map app stacked].
      fold (tiles new). rewrite Hd.
      destruct (Z.ltb_spec r (Z.min H (y + B) - y)) as [Hin|Hout].
      * rewrite Ed. cbn. do 2 f_equal; lia.
      * rewrite Hpix by lia. do 2 f_equal. lia.
    + assert (y = H) by lia. subst y.
      exists []. rewrite app_nil_r, Z.sub_diag. destruct c; cbn in *; subst.
      split; [reflexivity|]. split; [symmetry; apply ceil_div_zero; lia|].
    split; [reflexivity|]. split; [constructor|]. intros; lia.
Qed.

(** Without the clamp the loop would not end: a band height of zero (or
    less) leaves [y_top_px] where it is, whatever the budget. *)
Lemma slice_loop_unclamped_diverges (fuel : nat) (img : Image) (g : Layout) :
  native_px_per_page g <= 0 ->
  forall (y : Z) (c : Canvas),
    y < height_px img -> slice_loop fuel img g y c = None.
Proof.
  intros HB. induction fuel as [|fuel IH]; intros y c Hy; cbn [slice_loop].
  - destruct (Z.ltb_spec y (height_px img)); [reflexivity|lia].
  - destruct (Z.ltb_spec y (height_px img)); [|lia].
    destruct (slice_step img g y c) as [y' c'] eqn:E.
    pose proof (slice_step_top img g y c) as Ey. rewrite E in Ey. cbn in Ey.
    apply IH. subst y'. unfold next_top. lia.
Qed.

Lemma slice_loop_terminates (fuel : nat) (img : Image) (g : Layout) :
  1 <= native_px_per_page g ->
  forall (y : Z) (c : Canvas),
    (Z.to_nat (height_px img - y) <= fuel)%nat ->
    exists c', slice_loop fuel img g y c = Some c'.
Proof.
  intros HB. induction fuel as [|fuel IH]; intros y c Hfuel; cbn [slice_loop].
  - destruct (Z.ltb_spec y (height_px img)); [lia|eauto].
  - destruct (Z.ltb_spec y (height_px img)) as [Hlt|]; [|eauto].
    destruct (slice_step img g y c) as [y' c'] eqn:E.
    pose proof (slice_step_advances img g y c HB Hlt) as Hadv.
    rewrite E in Hadv. cbn in Hadv. apply IH. lia.
Qed.

Lemma single_page_shape (img : Image) :
  exists p,
    screenshot_to_singlepage_pdf img = [p]
    /\ page_size p = ((float_of_int (width_px img) * 0.75)%float,
                      (float_of_int (height_px img) * 0.75)%float)
    /\ exists d, page_content p = [d] /\ drawn d = img.
Proof.
  unfold screenshot_to_singlepage_pdf, csspx_to_pdfpt.
  rewrite points_per_pixel. cbn. eexists. split; [reflexivity|].
  split; [reflexivity|]. eexists. split; reflexivity.
Qed.

Lemma paginated_shape (img : Image) (margin_in : float) (g : Layout) (fuel : nat) :
  0 <= height_px img ->
  layout (width_px img) margin_in = Ret g ->
  (Z.to_nat (height_px img) <= fuel)%nat ->
  exists pages,
    screenshot_to_paginated_letter_pdf fuel img margin_in = Some (Ret pages)
    /\ Z.of_nat (length pages) = ceil_div (height_px img) (native_px_per_page g)
    /\ sum_Z (map band_height pages) = height_px img
    /\ Forall (band_page img g letter) pages
    /\ (forall x y, 0 <= y < height_px img ->
          stacked (tiles pages) x y = Some (getpixel img x y)).
Proof.
  intros HH Hg Hfuel. unfold screenshot_to_paginated_letter_pdf. rewrite Hg.
  destruct (slice_loop_spec fuel img g (layout_band_positive _ _ _ Hg) 0
              (new_canvas letter)) as (new & Erun & Elen & Esum & Hall & Hpix).
  - lia.
  - rewrite Z.sub_0_r. exact Hfuel.
  - reflexivity.
  - rewrite Erun. cbn. rewrite Z.sub_0_r in *. exists new.
    split; [reflexivity|]. repeat split; auto.
Qed.

Lemma tall_layout_eq : layout 1366 default_margin_in = tall_layout.
Proof. vm_compute. reflexivity. Qed.

(** The band height of every width up to 4096 px is computed without an
    exception. *)
Lemma layout_defined_upto_4096 :
  forallb (fun w => match layout (Z.of_nat w) default_margin_in with
                    | Ret _ => true
                    | Raise _ => false
                    end) (seq 1 4096) = true.
Proof. vm_compute. reflexivity. Qed.

(** C1.  Paginated mode: for a bitmap at least 1 px wide and [H] px tall
    whose computed band height is [B], the output is returned on any budget
    of at least [H] iterations, has exactly [ceil(H/B)] pages, each page
    holding one full-width band of 1..B rows, the band heights add up to
    [H], and the bands stacked in page order are the source bitmap row for
    row.  Single-page mode: for every bitmap the output is one page of size
    (0.75 * width, 0.75 * height) points holding the whole bitmap. *)
Theorem C1_raster_page_counts :
  (forall (img : Image) (margin_in : float) (g : Layout) (fuel : nat),
      1 <= width_px img ->
      0 <= height_px img ->
      layout (width_px img) margin_in = Ret g ->
      (Z.to_nat (height_px img) <= fuel)%nat ->
      exists pages,
        screenshot_to_paginated_letter_pdf fuel img margin_in = Some (Ret pages)
        /\ Z.of_nat (length pages)
           = ceil_div (height_px img) (native_px_per_page g)
        /\ sum_Z (map band_height pages) = height_px img
        /\ Forall (band_page img g letter) pages
        /\ (forall x y, 0 <= y < height_px img ->
              stacked (tiles pages) x y = Some (getpixel img x y)))
  /\
  (forall img : Image,
      exists p,
        screenshot_to_singlepage_pdf img = [p]
        /\ page_size p = ((float_of_int (width_px img) * 0.75)%float,
                          (float_of_int (height_px img) * 0.75)%float)
        /\ exists d, page_content p = [d] /\ drawn d = img).
Proof.
  split.
  - intros img margin_in g fuel _ HH Hg Hfuel. now apply paginated_shape.
  - exact single_page_shape.
Qed.

(** The 1366 x 5000 px scenario: band height 1821 px, three pages, band
    heights adding up to 5000. *)
Lemma C1_raster_page_counts_witness :
  exists g pages,
    layout (width_px tall_screenshot) default_margin_in = Ret g
    /\ native_px_per_page g = 1821
    /\ screenshot_to_paginated_letter_pdf 5000 tall_screenshot default_margin_in
       = Some (Ret pages)
    /\ Z.of_nat (length pages) = 3
    /\ sum_Z (map band_height pages) = 5000.
Proof.
  destruct tall_layout as [g|e] eqn:Eg; [|discriminate Eg].
  assert (Hg : layout (width_px tall_screenshot) default_margin_in = Ret g)
    by (rewrite <- Eg; exact tall_layout_eq).
  assert (HB : native_px_per_page g = 1821)
    by (injection Eg as <-; reflexivity).
  destruct (proj1 C1_raster_page_counts tall_screenshot default_margin_in g
              5000%nat ltac:(cbn; lia) ltac:(cbn; lia) Hg ltac:(cbn; lia))
    as (pages & Erun & Elen & Esum & _).
  exists g, pages. rewrite HB in Elen.
  repeat split; auto.
Defined.

(** C10.  For a bitmap at least 1 px wide the slicing loop terminates: the
    band height is at least 1, every iteration moves the slice start
    strictly forward without passing the image height, and a budget of
    [H - y] iterations always suffices from start [y]; so the builder
    returns (a document or the exception raised before the loop). *)
Theorem C10_slice_loop_terminates :
  forall (img : Image) (margin_in : float),
    1 <= width_px img ->
    (forall g, layout (width_px img) margin_in = Ret g ->
       1 <= native_px_per_page g
       /\ (forall y c, y < height_px img ->
             y < fst (slice_step img g y c) <= height_px img)
       /\ (forall fuel y c, (Z.to_nat (height_px img - y) <= fuel)%nat ->
             exists c', slice_loop fuel img g y c = Some c'))
    /\ exists r,
         screenshot_to_paginated_letter_pdf (Z.to_nat (height_px img)) img margin_in
         = Some r.
Proof.
  intros img margin_in _. split.
  - intros g Hg. pose proof (layout_band_positive _ _ _ Hg) as HB.
    split; [exact HB|]. split.
    + intros y c Hy. now apply slice_step_advances.
    + intros fuel y c Hfuel. now apply slice_loop_terminates.
  - unfold screenshot_to_paginated_letter_pdf.
    destruct (layout (width_px img) margin_in) as [g|e] eqn:Hg; [|eauto].
    destruct (slice_loop_terminates (Z.to_nat (height_px img)) img g
                (layout_band_positive _ _ _ Hg) 0 (new_canvas letter)) as [c' Ec].
    + rewrite Z.sub_0_r. lia.
    + rewrite Ec. eauto.
Qed.

Lemma C10_slice_loop_terminates_witness :
  1 <= width_px tall_screenshot
  /\ exists r,
       screenshot_to_paginated_letter_pdf 5000 tall_screenshot default_margin_in
       = Some r.
Proof.
  split; [cbn; lia|].
  exact (proj2 (C10_slice_loop_terminates tall_screenshot default_margin_in
                  ltac:(cbn; lia))).
Defined.

End RasterFacts.

Module CaptureFacts.
Import Text Capture TextFacts.

(** *** Reading a history *)

Lemma count_nil (p : Event -> bool) : count p [] = 0%nat.
Proof. reflexivity. Qed.

Lemma count_cons (p : Event -> bool) (e : Event) (h : History) :
  count p (e :: h) = ((if p e then 1 else 0) + count p h)%nat.
Proof. unfold count. cbn [filter]. now destruct (p e). Qed.

Lemma count_app (p : Event -> bool) (a b : History) :
  count p (a ++ b) = (count p a + count p b)%nat.
Proof. unfold count. now rewrite filter_app, length_app. Qed.

Lemma decisions_nil : decisions [] = [].
Proof. reflexivity. Qed.

Lemma decisions_cons (e : Event) (h : History) :
  decisions (e :: h) = decision e ++ decisions h.
Proof. reflexivity. Qed.

Lemma decisions_app (a b : History) :
  decisions (a ++ b) = decisions a ++ decisions b.
Proof. apply flat_map_app. Qed.

Lemma targets_nil : targets [] = [].
Proof. reflexivity. Qed.

Lemma targets_cons (e : Event) (h : History) :
  targets (e :: h) = target e ++ targets h.
Proof. reflexivity. Qed.

Lemma targets_app (a b : History) : targets (a ++ b) = targets a ++ targets b.
Proof. apply flat_map_app. Qed.

Lemma print_succeeded_nil : print_succeeded [] = false.
Proof. reflexivity. Qed.

Lemma print_succeeded_cons (e : Event) (h : History) :
  print_succeeded (e :: h) = printed e || print_succeeded h.
Proof. reflexivity. Qed.

Lemma print_succeeded_app (a b : History) :
  print_succeeded (a ++ b) = print_succeeded a || print_succeeded b.
Proof. apply existsb_app. Qed.

Lemma print_failed_nil : print_failed [] = false.
Proof. reflexivity. Qed.

Lemma print_failed_cons (e : Event) (h : History) :
  print_failed (e :: h) = print_raised e || print_failed h.
Proof. reflexivity. Qed.

Lemma print_failed_app (a b : History) :
  print_failed (a ++ b) = print_failed a || print_failed b.
Proof. apply existsb_app. Qed.

Lemma raster_attempted_nil : raster_attempted [] = false.
Proof. reflexivity. Qed.

Lemma raster_attempted_cons (e : Event) (h : History) :
  raster_attempted (e :: h) = raster_tried e || raster_attempted h.
Proof. reflexivity. Qed.

Lemma raster_attempted_app (a b : History) :
  raster_attempted (a ++ b) = raster_attempted a || raster_attempted b.
Proof. apply existsb_app. Qed.

Lemma raster_failed_nil : raster_failed [] = false.
Proof. reflexivity. Qed.

Lemma raster_failed_cons (e : Event) (h : History) :
  raster_failed (e :: h) = raster_raised e || raster_failed h.
Proof. reflexivity. Qed.

Lemma raster_failed_app (a b : History) :
  raster_failed (a ++ b) = raster_failed a || raster_failed b.
Proof. apply existsb_app. Qed.

Create Rewrite HintDb trace.

#[local] Hint Rewrite
  count_nil count_cons count_app
  decisions_nil decisions_cons decisions_app
  targets_nil targets_cons targets_app
  print_succeeded_nil print_succeeded_cons print_succeeded_app
  print_failed_nil print_failed_cons print_failed_app
  raster_attempted_nil raster_attempted_cons raster_attempted_app
  raster_failed_nil raster_failed_cons raster_failed_app
  : trace.

(** Split every history of the context into its events and its unknown
    parts, and evaluate the predicates on the events. *)
Ltac normalize :=
  autorewrite with trace in *;
  cbn [closes_context closes_browser context_close_failed launches waits
       navigates_primary captures decision target printed print_raised
       raster_tried raster_raised raster_op app orb Nat.add] in *.

(** *** Running a block of the program

    A block is run against an arbitrary world by asking the world for
    each answer in turn: every way the block can go becomes a goal whose
    history is a list of events on top of the history the block started
    from. *)

Ltac step :=
  match goal with
  | |- context [match call ?w ?h ?op with _ => _ end] =>
      lazymatch h with
      | context [call _ _ _] => fail
      | _ => let E := fresh "E" in destruct (call w h op) eqn:E
      end
  | |- context [if Captcha.found (Captcha.detect_captcha (evaluate ?w ?h ?s))
                then _ else _] =>
      let E := fresh "E" in
      destruct (Captcha.found (Captcha.detect_captcha (evaluate w h s))) eqn:E
  | |- context [match cookies ?w ?h ?s with _ => _ end] =>
      let E := fresh "E" in destruct (cookies w h s) as [[|? ?]|] eqn:E
  | |- context [match human ?w ?h with _ => _ end] =>
      let E := fresh "E" in destruct (human w h) eqn:E
  end.

Ltac run_block :=
  cbv [headless raster before_pdf when bind ret raise try_except
       try_except_timeout do log detect read_cookies wait_for_human now
       close_visible raster_from_visible print_after_solve apply_storage_state
       after_skip after_solve open_and_ask mode exact_single_page
       filename_from_url output_dir];
  repeat (step; cbv beta iota zeta delta [mode exact_single_page]).

Ltac prefix_of l h0 :=
  lazymatch l with
  | h0 => constr:(@nil Event)
  | ?e :: ?t => let p := prefix_of t h0 in constr:(e :: p)
  end.

Ltac give_new :=
  lazymatch goal with
  | |- exists new r, (?l, ?r0) = (new ++ ?h0, r) /\ _ =>
      let p := prefix_of l h0 in exists p, r0; split; [reflexivity|]
  end.

Ltac leaf := repeat split; try reflexivity; repeat constructor.

(** The end of the normal headless path adds log lines and captures of
    the primary page, aims every PDF at [out], and ends with a written
    file or with the exception of its last call; a failed [page.pdf] is
    followed by a raster attempt. *)
Lemma headless_spec (w : World) (opts : CaptureOptions) (out : Path)
  (h0 : History) :
  exists new r,
    headless w opts out h0 = (new ++ h0, r)
    /\ forallb headless_event new = true
    /\ Forall (eq out) (targets new)
    /\ wrote_or_raised out new r
    /\ implb (print_failed new) (raster_attempted new) = true.
Proof.
  destruct opts as [[] [] fn dir]; cbn [mode exact_single_page].
  all: run_block.
  all: give_new.
  all: leaf.
Qed.


(** After "continue" the visible session is closed once, whichever step
    ends the episode, and no exception leaves the block. *)
Lemma after_solve_spec (w : World) (opts : CaptureOptions) (out : Path)
  (h0 : History) :
  exists new r,
    after_solve w opts out h0 = (new ++ h0, r)
    /\ count closes_context new = 1%nat
    /\ (count closes_browser new + count context_close_failed new = 1)%nat
    /\ decisions new = []
    /\ Forall (eq out) (targets new)
    /\ implb (print_failed new) (raster_attempted new) = true
    /\ match r with
       | Returns (Some p) => p = out /\ existsb wrote new = true
       | Returns None => raster_failed new = true /\ print_succeeded new = false
       | _ => False
       end.
Proof.
  destruct opts as [[] [] fn dir]; cbn [mode exact_single_page].
  all: run_block.
  all: give_new.
  all: leaf.
Qed.

(** Up to the decision nothing is closed and nothing is captured. *)
Lemma open_and_ask_spec (w : World) (dlg : bool) (h0 : History) :
  exists new r,
    open_and_ask w dlg h0 = (new ++ h0, r)
    /\ count closes_context new = 0%nat
    /\ count closes_browser new = 0%nat
    /\ count context_close_failed new = 0%nat
    /\ count captures new = 0%nat
    /\ count navigates_primary new = 0%nat
    /\ targets new = []
    /\ print_failed new = false /\ print_succeeded new = false
    /\ raster_failed new = false
    /\ match r with
       | Returns action => decisions new = [action] /\ dlg = true
       | Raised e => decisions new = [] /\ raised_by_last_call e new
       | Blocked => decisions new = []
       end.
Proof.
  destruct dlg.
  all: run_block.
  all: give_new.
  all: leaf.
Qed.

Lemma headless_counts (new : History) (p : Event -> bool) :
  forallb headless_event new = true ->
  (forall e, headless_event e = true -> p e = false) ->
  count p new = 0%nat.
Proof.
  intros H Hp. induction new as [|e new IH]; [reflexivity|].
  cbn [forallb] in H. apply andb_true_iff in H as [He H].
  rewrite count_cons, (Hp e He). now apply IH.
Qed.

Lemma headless_no_decision (new : History) :
  forallb headless_event new = true -> decisions new = [].
Proof.
  induction new as [|e new IH]; [reflexivity|]. intros H.
  cbn [forallb] in H. apply andb_true_iff in H as [He H].
  rewrite decisions_cons, (IH H).
  destruct e as [op r| | |[]| |]; try discriminate He; reflexivity.
Qed.

Lemma headless_quiet (new : History) :
  forallb headless_event new = true ->
  count closes_context new = 0%nat
  /\ count closes_browser new = 0%nat
  /\ count context_close_failed new = 0%nat
  /\ count launches new = 0%nat
  /\ count navigates_primary new = 0%nat
  /\ decisions new = [].
Proof.
  intros H. repeat split; try (now apply headless_no_decision).
  all: apply (headless_counts _ _ H).
  all: intros [[] []| | | | |]; try reflexivity; try discriminate.
Qed.

(** *** Running [capture_one]

    The three blocks above are replaced by what their lemmas say; the
    rest is run call by call. *)

Ltac open_block :=
  match goal with
  | |- context [open_and_ask ?w ?d ?h] =>
      let new := fresh "asked" in
      let r := fresh "r" in
      let E := fresh "E" in
      destruct (open_and_ask_spec w d h)
        as (new & r & E & ?Hcc & ?Hcb & ?Hcf & ?Hcap & ?Hnav & ?Htg
            & ?Hpf & ?Hps & ?Hrf & ?Hend);
      rewrite E; clear E; destruct r as [?action| |];
      cbv beta iota zeta
  | |- context [after_solve ?w ?o ?pth ?h] =>
      let new := fresh "solved" in
      let r := fresh "r" in
      let E := fresh "E" in
      destruct (after_solve_spec w o pth h)
        as (new & r & E & ?Hcc & ?Hcb & ?Hdec & ?Htg & ?Hatt & ?Hend);
      rewrite E; clear E; destruct r as [[?early|]| |]; try contradiction;
      cbv beta iota zeta
  | |- context [match ?e with PlaywrightTimeout => _ | _ => _ end] =>
      is_var e; destruct e
  | |- context [match Naming.host_of ?ok ?url with _ => _ end] =>
      let E := fresh "Ehost" in destruct (Naming.host_of ok url) eqn:E
  | |- context [match Naming.url_to_filename ?ok ?url with _ => _ end] =>
      let E := fresh "Ename" in destruct (Naming.url_to_filename ok url) eqn:E
  | |- context [str_eqb ?a (lit "continue")] =>
      let E := fresh "Eact" in destruct (str_eqb a (lit "continue")) eqn:E;
      cbv beta iota zeta
  end.

Ltac walk :=
  cbv [capture_one out_path_of after_navigation normal_path site_host handoff
       after_skip close_visible bind ret raise try_except try_except_timeout
       do log detect now filename_from_url output_dir];
  repeat (first [step | open_block]; cbv beta iota zeta).

(** Every way [capture_one] can go, for a statement about the history
    and the end of all its runs; the statement is kept folded while the
    program runs. *)
Ltac all_runs :=
  lazymatch goal with
  | |- forall (h : History) (r : Res Path), ?run = (h, r) -> @?Q h r =>
      let P := fresh "P" in
      pose (P := Q);
      change (forall (h : History) (r : Res Path), run = (h, r) -> P h r);
      walk;
      intros ? ? ?Hrun; subst P; cbv beta
  end.

(** The run ends in the last block, or ended before it. *)
Ltac close_headless H :=
  lazymatch type of H with
  | headless ?w ?o ?p ?h0 = _ =>
      let new := fresh "tail" in
      let r := fresh "r" in
      let E := fresh "E" in
      destruct (headless_spec w o p h0)
        as (new & r & E & ?Hhl & ?Htg & ?Hend & ?Hatt);
      rewrite E in H; injection H as <- <-;
      destruct (headless_quiet _ Hhl) as (? & ? & ? & ? & ? & ?)
  | _ => injection H as <- <-
  end.

Ltac split_facts :=
  repeat match goal with H : _ /\ _ |- _ => destruct H end.

Ltac use_decisions :=
  repeat match goal with
         | H : decisions ?l = _, Hd : context [decisions ?l] |- _ =>
             rewrite H in Hd
         end;
  cbn [app] in *.

(** Every run that takes a decision from the human tries to close the
    visible context once, and then closes the visible browser unless
    closing the context raised. *)
Lemma episode_closed_once (w : World) (ok : str -> bool) (dlg : bool)
  (url : str) (opts : CaptureOptions) :
  forall (h : History) (r : Res Path),
  capture_one w ok dlg url opts [] = (h, r) ->
  decisions h <> [] ->
  count closes_context h = 1%nat
  /\ (count closes_browser h + count context_close_failed h = 1)%nat.
Proof.
  destruct opts as [m ex [] dir].
  all: all_runs.
  all: intros Hnone; close_headless Hrun.
  all: split_facts; normalize; use_decisions.
  all: try (exfalso; apply Hnone; reflexivity).
  all: split; lia.
Qed.

Lemma episode_closed_once_witness :
  decisions (fst (sample_run human_skips Screenshot)) = [lit "skip"]
  /\ count closes_context (fst (sample_run human_skips Screenshot)) = 1%nat
  /\ count closes_browser (fst (sample_run human_skips Screenshot)) = 1%nat.
Proof.
  split; [vm_compute; reflexivity|].
  destruct (episode_closed_once human_skips (fun _ => true) true sample_url
              (sample_options Screenshot)
              _ _ (surjective_pairing (sample_run human_skips Screenshot))
              ltac:(vm_compute; discriminate))
    as [Hcc Hcb].
  split; [exact Hcc|].
  replace (count context_close_failed (fst (sample_run human_skips Screenshot)))
    with 0%nat in Hcb by (vm_compute; reflexivity).
  now rewrite Nat.add_0_r in Hcb.
Defined.

(** *** The skip decision *)





(** *** The visible session when the episode breaks *)

(** C7.  A run of [capture_one] that launched the visible browser and got
    no decision from the human closes neither the visible context nor the
    visible browser, and it ends with an exception or waits for ever: an
    error between [chromium.launch] and the decision leaves the visible
    session open when control goes back to the caller. *)
Theorem C7_unanswered_episode_never_closes (w : World) (ok : str -> bool)
  (dlg : bool) (url : str) (opts : CaptureOptions) :
  forall (h : History) (r : Res Path),
  capture_one w ok dlg url opts [] = (h, r) ->
  count launches h = 1%nat ->
  decisions h = [] ->
  count closes_context h = 0%nat
  /\ count closes_browser h = 0%nat
  /\ ((exists e, r = Raised e) \/ r = Blocked).
Proof.
  destruct opts as [m ex [] dir].
  all: all_runs.
  all: intros Hl Hd; close_headless Hrun.
  all: split_facts; normalize; use_decisions.
  all: try discriminate Hd.
  all: try lia.
  all: repeat split; try lia; eauto.
Qed.

Lemma C7_unanswered_episode_never_closes_witness :
  count launches (fst (sample_run context_fails Print)) = 1%nat
  /\ decisions (fst (sample_run context_fails Print)) = []
  /\ snd (sample_run context_fails Print) = Raised PlaywrightError
  /\ count closes_context (fst (sample_run context_fails Print)) = 0%nat
  /\ count closes_browser (fst (sample_run context_fails Print)) = 0%nat.
Proof.
  split; [vm_compute; reflexivity|].
  split; [vm_compute; reflexivity|].
  split; [vm_compute; reflexivity|].
  destruct (C7_unanswered_episode_never_closes context_fails (fun _ => true)
              true sample_url (sample_options Print)
              _ _ (surjective_pairing (sample_run context_fails Print))
              ltac:(vm_compute; reflexivity) ltac:(vm_compute; reflexivity))
    as (Hcc & Hcb & _).
  split; assumption.
Defined.

(** *** Timeouts and the print fallback *)







End CaptureFacts.

Module CaptureTraceFacts.
Import Text Capture CaptureTrace TextFacts CaptureFacts.

Lemma build_flags_nil : build_flags [] = [].
Proof. reflexivity. Qed.

Lemma build_flags_cons (e : Event) (h : History) :
  build_flags (e :: h) = build_flag e ++ build_flags h.
Proof. reflexivity. Qed.

Lemma build_flags_app (a b : History) :
  build_flags (a ++ b) = build_flags a ++ build_flags b.
Proof. apply flat_map_app. Qed.

Lemma wrote_file_nil : wrote_file [] = false.
Proof. reflexivity. Qed.

Lemma wrote_file_cons (e : Event) (h : History) :
  wrote_file (e :: h) = wrote e || wrote_file h.
Proof. reflexivity. Qed.

Lemma wrote_file_app (a b : History) :
  wrote_file (a ++ b) = wrote_file a || wrote_file b.
Proof. apply existsb_app. Qed.

#[local] Hint Rewrite
  count_nil count_cons count_app
  decisions_nil decisions_cons decisions_app
  targets_nil targets_cons targets_app
  build_flags_nil build_flags_cons build_flags_app
  wrote_file_nil wrote_file_cons wrote_file_app
  : trace.

Ltac tidy :=
  autorewrite with trace in *;
  cbn [closes_context closes_browser context_close_failed launches waits
       navigates_primary captures decision target challenged print_engine
       measures prompts visible_call build_flag wrote app orb Nat.add] in *.

(** What the blocks of [capture_one] add to a history. *)

Lemma headless_record (w : World) (opts : CaptureOptions) (out : Path)
  (h0 : History) :
  exists new r,
    headless w opts out h0 = (new ++ h0, r)
    /\ forallb headless_event new = true
    /\ Forall (eq out) (targets new)
    /\ Forall (eq (exact_single_page opts)) (build_flags new)
    /\ match mode opts with
       | Screenshot => count print_engine new = 0%nat
       | Print => True
       end
    /\ (if exact_single_page opts then True else count measures new = 0%nat)
    /\ match r with
       | Returns p => p = out /\ wrote_file new = true
       | Raised _ => True
       | Blocked => False
       end.
Proof.
  destruct opts as [[] [] fn dir]; cbn [mode exact_single_page].
  all: run_block.
  all: give_new.
  all: leaf.
Qed.

Lemma after_solve_record (w : World) (opts : CaptureOptions) (out : Path)
  (h0 : History) :
  exists new r,
    after_solve w opts out h0 = (new ++ h0, r)
    /\ Forall (eq out) (targets new)
    /\ Forall (eq (exact_single_page opts)) (build_flags new)
    /\ match mode opts with
       | Screenshot => count print_engine new = 0%nat
                       /\ count navigates_primary new = 0%nat
       | Print => count navigates_primary new = 1%nat
       end
    /\ (if exact_single_page opts then True else count measures new = 0%nat)
    /\ count waits new = 0%nat
    /\ match r with
       | Returns (Some p) => p = out /\ wrote_file new = true
       | Returns None => True
       | _ => False
       end.
Proof.
  destruct opts as [[] [] fn dir]; cbn [mode exact_single_page].
  all: run_block.
  all: give_new.
  all: leaf.
Qed.

Lemma open_and_ask_record (w : World) (dlg : bool) (h0 : History) :
  exists new r,
    open_and_ask w dlg h0 = (new ++ h0, r)
    /\ targets new = []
    /\ build_flags new = []
    /\ count print_engine new = 0%nat
    /\ count measures new = 0%nat
    /\ count challenged new = 0%nat
    /\ count navigates_primary new = 0%nat
    /\ match r with
       | Returns _ => dlg = true
       | _ => True
       end.
Proof.
  destruct dlg.
  all: run_block.
  all: give_new.
  all: leaf.
Qed.

Lemma headless_calm (new : History) :
  forallb headless_event new = true ->
  count challenged new = 0%nat
  /\ count visible_call new = 0%nat
  /\ count waits new = 0%nat
  /\ count navigates_primary new = 0%nat.
Proof.
  intros H. repeat split.
  all: apply (headless_counts _ _ H).
  all: intros [[[]| | | | | |[]| | | |[]| | |] []| | | | |];
    try reflexivity; try discriminate.
Qed.

Ltac open_record :=
  match goal with
  | |- context [open_and_ask ?w ?d ?h] =>
      let new := fresh "asked" in
      let r := fresh "r" in
      let E := fresh "E" in
      destruct (open_and_ask_record w d h)
        as (new & r & E & ?Htg & ?Hfl & ?Hpe & ?Hms & ?Hch & ?Hnav & ?Hend);
      rewrite E; clear E; destruct r as [?action| |];
      cbv beta iota zeta
  | |- context [after_solve ?w ?o ?pth ?h] =>
      let new := fresh "solved" in
      let r := fresh "r" in
      let E := fresh "E" in
      destruct (after_solve_record w o pth h)
        as (new & r & E & ?Htg & ?Hfl & ?Hmode & ?Hms & ?Hwt & ?Hend);
      rewrite E; clear E; destruct r as [[?early|]| |]; try contradiction;
      cbv beta iota zeta
  | |- context [match ?e with PlaywrightTimeout => _ | _ => _ end] =>
      is_var e; destruct e
  | |- context [match Naming.host_of ?ok ?url with _ => _ end] =>
      let E := fresh "Ehost" in destruct (Naming.host_of ok url) eqn:E
  | |- context [match Naming.url_to_filename ?ok ?url with _ => _ end] =>
      let E := fresh "Ename" in destruct (Naming.url_to_filename ok url) eqn:E
  | |- context [str_eqb ?a (lit "continue")] =>
      let E := fresh "Eact" in destruct (str_eqb a (lit "continue")) eqn:E;
      cbv beta iota zeta
  end.

Ltac all_records :=
  lazymatch goal with
  | |- forall (h : History) (r : Res Path), ?run = (h, r) -> @?Q h r =>
      let P := fresh "P" in
      pose (P := Q);
      change (forall (h : History) (r : Res Path), run = (h, r) -> P h r);
      cbv [capture_one out_path_of after_navigation normal_path site_host
           handoff after_skip close_visible bind ret raise try_except
           try_except_timeout do log detect now filename_from_url output_dir];
      repeat (first [step | open_record]; cbv beta iota zeta);
      intros ? ? ?Hrun; subst P; cbv beta
  end.

Ltac close_record H :=
  lazymatch type of H with
  | headless ?w ?o ?p ?h0 = _ =>
      let new := fresh "tail" in
      let r := fresh "r" in
      let E := fresh "E" in
      destruct (headless_record w o p h0)
        as (new & r & E & ?Hhl & ?Htg & ?Hfl & ?Hmode & ?Hms & ?Hend);
      rewrite E in H; injection H as <- <-;
      destruct (headless_calm _ Hhl) as (? & ? & ? & ?);
      destruct r; try contradiction
  | _ => injection H as <- <-
  end.

Ltac finish_record :=
  repeat match goal with
         | H : targets ?l = [] |- context [targets ?l] => rewrite H
         | H : build_flags ?l = [] |- context [build_flags ?l] => rewrite H
         | H : wrote_file ?l = true |- context [wrote_file ?l] => rewrite H
         end;
  cbn [app orb];
  repeat split; intros;
  try discriminate; try congruence; try lia;
  try (repeat (apply Forall_app; split); first [assumption | constructor]);
  try (match goal with
       | H : Returns _ = Returns _ |- _ => injection H as <-
       end; first [assumption | reflexivity]).

(** Every run of [capture_one], summed up. *)
Lemma capture_one_record (w : World) (ok : str -> bool) (dlg : bool)
  (url : str) (opts : CaptureOptions) :
  forall (h : History) (r : Res Path),
  capture_one w ok dlg url opts [] = (h, r) ->
  Forall (eq (exact_single_page opts)) (build_flags h)
  /\ (mode opts = Screenshot -> count print_engine h = 0%nat)
  /\ (exact_single_page opts = false -> count measures h = 0%nat)
  /\ (count challenged h = 0%nat ->
      count visible_call h = 0%nat /\ count waits h = 0%nat)
  /\ (dlg = false -> count challenged h <> 0%nat -> forall p, r <> Returns p)
  /\ (r = Blocked -> count challenged h <> 0%nat)
  /\ (count navigates_primary h <= 2)%nat
  /\ match out_path_of w ok url opts [] with
     | (_, Returns out) =>
         Forall (eq out) (targets h)
         /\ forall p, r = Returns p -> p = out /\ wrote_file h = true
     | (_, Raised e) => h = [] /\ r = Raised e
     | (_, Blocked) => False
     end.
Proof.
  destruct opts as [m ex [] dir].
  all: all_records.
  all: close_record Hrun.
  all: cbv [out_path_of now bind ret raise filename_from_url output_dir];
    rewrite ?Ename.
  all: cbn [mode exact_single_page] in *.
  all: split_facts; tidy.
  all: destruct m, ex; cbv beta iota in *; split_facts.
  all: finish_record.
Qed.

(** The output path of a call lies in the output folder. *)
Lemma out_path_in_folder (w : World) (ok : str -> bool) (url : str)
  (opts : CaptureOptions) (h0 : History) (out : Path) :
  out_path_of w ok url opts [] = (h0, Returns out) ->
  folder out = output_dir opts.
Proof.
  unfold out_path_of. destruct (filename_from_url opts).
  - destruct (Naming.url_to_filename ok url); cbv [ret raise];
      intros [= _ <-] || discriminate. reflexivity.
  - cbv [bind now ret]. intros [= _ <-]. reflexivity.
Qed.

(** Every PDF a run of [capture_one] writes or tries to write, through
    [page.pdf] or through a PDF builder, on the normal path or in a
    fallback, is aimed at the one path computed at the start, inside
    [opts.output_dir]; a run that returns returns that path, after a call
    that wrote a PDF.  When the path cannot be computed ([urlparse] refuses
    the URL) the run raises before it logs or calls anything. *)
Theorem capture_one_single_target (w : World) (ok : str -> bool) (dlg : bool)
  (url : str) (opts : CaptureOptions) (h : History) (r : Res Path) :
  capture_one w ok dlg url opts [] = (h, r) ->
  (forall h0 out,
      out_path_of w ok url opts [] = (h0, Returns out) ->
      folder out = output_dir opts
      /\ Forall (eq out) (targets h)
      /\ forall p, r = Returns p -> p = out /\ wrote_file h = true)
  /\ (forall h0 e,
        out_path_of w ok url opts [] = (h0, Raised e) ->
        h = [] /\ r = Raised e).
Proof.
  intros Hrun.
  destruct (capture_one_record w ok dlg url opts h r Hrun)
    as (_ & _ & _ & _ & _ & _ & _ & Hout).
  split.
  - intros h0 out E. rewrite E in Hout. destruct Hout as [Ht Hr].
    split; [exact (out_path_in_folder _ _ _ _ _ _ E)|]. split; assumption.
  - intros h0 e E. rewrite E in Hout. exact Hout.
Qed.

Lemma capture_one_single_target_witness :
  Forall (eq sample_path) (targets (fst (sample_run slow_page_no_print Print)))
  /\ targets (fst (sample_run slow_page_no_print Print))
     = [sample_path; sample_path]
  /\ snd (sample_run slow_page_no_print Print) = Returns sample_path.
Proof.
  destruct (proj1 (capture_one_single_target slow_page_no_print (fun _ => true)
                     true sample_url (sample_options Print) _ _
                     (surjective_pairing (sample_run slow_page_no_print Print)))
              [] sample_path ltac:(vm_compute; reflexivity))
    as (_ & Ht & _).
  split; [exact Ht|]. split; vm_compute; reflexivity.
Defined.

(** The options of a call are honoured by every step of every run: in
    screenshot mode nothing of the print pipeline is called
    ([emulate_media], the height measurement, [page.pdf]), not even after
    a hand-off; the height is measured only for the single-page layout;
    and every PDF builder that runs is the one of the layout chosen. *)
Theorem capture_one_honours_options (w : World) (ok : str -> bool) (dlg : bool)
  (url : str) (opts : CaptureOptions) (h : History) (r : Res Path) :
  capture_one w ok dlg url opts [] = (h, r) ->
  (mode opts = Screenshot -> count print_engine h = 0%nat)
  /\ (exact_single_page opts = false -> count measures h = 0%nat)
  /\ Forall (eq (exact_single_page opts)) (build_flags h).
Proof.
  intros Hrun.
  destruct (capture_one_record w ok dlg url opts h r Hrun)
    as (Hfl & Hpe & Hms & _).
  split; [exact Hpe|]. split; [exact Hms|exact Hfl].
Qed.

Lemma capture_one_honours_options_witness :
  count print_engine (fst (sample_run human_skips Screenshot)) = 0%nat
  /\ build_flags (fst (sample_run human_skips Screenshot)) = [true].
Proof.
  split.
  - exact (proj1 (capture_one_honours_options human_skips (fun _ => true) true
                    sample_url (sample_options Screenshot) _ _
                    (surjective_pairing (sample_run human_skips Screenshot)))
             eq_refl).
  - vm_compute. reflexivity.
Defined.

(** Without a [prompt_captcha_dialog] nobody sets the event the hand-off
    waits for: once a challenge is detected the call never returns a
    path. *)
Theorem challenge_without_dialog_never_returns (w : World) (ok : str -> bool)
  (dlg : bool) (url : str) (opts : CaptureOptions) (h : History)
  (r : Res Path) :
  capture_one w ok dlg url opts [] = (h, r) ->
  dlg = false -> count challenged h <> 0%nat -> forall p, r <> Returns p.
Proof.
  intros Hrun.
  destruct (capture_one_record w ok dlg url opts h r Hrun)
    as (_ & _ & _ & _ & Hnd & _).
  exact Hnd.
Qed.

Lemma challenge_without_dialog_never_returns_witness :
  count challenged
    (fst (capture_one human_skips (fun _ => true) false sample_url
            (sample_options Print) [])) = 1%nat
  /\ snd (capture_one human_skips (fun _ => true) false sample_url
            (sample_options Print) []) = Blocked.
Proof.
  split; [vm_compute; reflexivity|].
  pose proof (challenge_without_dialog_never_returns human_skips
                (fun _ => true) false sample_url (sample_options Print)
                _ _ (surjective_pairing _)
                eq_refl ltac:(vm_compute; discriminate)) as Hnever.
  destruct (snd (capture_one human_skips (fun _ => true) false sample_url
                   (sample_options Print) [])) as [p|e|] eqn:E.
  - destruct (Hnever p eq_refl).
  - vm_compute in E. discriminate E.
  - reflexivity.
Defined.

(** When no challenge is detected, a run of [capture_one] never touches
    the visible session and never waits for the human; and no run loads
    the URL into the primary page more than twice. *)
Theorem no_challenge_no_visible_session (w : World) (ok : str -> bool)
  (dlg : bool) (url : str) (opts : CaptureOptions) (h : History)
  (r : Res Path) :
  capture_one w ok dlg url opts [] = (h, r) ->
  (count challenged h = 0%nat ->
   count visible_call h = 0%nat /\ count waits h = 0%nat)
  /\ (count navigates_primary h <= 2)%nat.
Proof.
  intros Hrun.
  destruct (capture_one_record w ok dlg url opts h r Hrun)
    as (_ & _ & _ & Hv & _ & _ & Hn & _).
  split; assumption.
Qed.

Lemma no_challenge_no_visible_session_witness :
  count challenged (fst (sample_run slow_page_no_print Print)) = 0%nat
  /\ count visible_call (fst (sample_run slow_page_no_print Print)) = 0%nat.
Proof.
  split; [vm_compute; reflexivity|].
  exact (proj1 (proj1 (no_challenge_no_visible_session slow_page_no_print
                         (fun _ => true) true sample_url (sample_options Print)
                         _ _ (surjective_pairing
                                (sample_run slow_page_no_print Print)))
                  ltac:(vm_compute; reflexivity))).
Defined.

End CaptureTraceFacts.

Module BatchFacts.
Import Text Capture Batch.

Lemma bcount_app (p : BatchEvent -> bool) (a b : BatchHistory) :
  bcount p (a ++ b) = (bcount p a + bcount p b)%nat.
Proof. unfold bcount. now rewrite filter_app, length_app. Qed.

Lemma bcount_nil (p : BatchEvent -> bool) : bcount p [] = 0%nat.
Proof. reflexivity. Qed.

Lemma bcount_cons (p : BatchEvent -> bool) (e : BatchEvent) (bh : BatchHistory) :
  bcount p (e :: bh) = ((if p e then 1 else 0) + bcount p bh)%nat.
Proof. unfold bcount. cbn [filter]. now destruct (p e). Qed.

Lemma bcount_pages (p : BatchEvent -> bool) (h : History) :
  (forall e, p (Page e) = false) -> bcount p (map Page h) = 0%nat.
Proof.
  intros Hp. induction h as [|e h IH]; [reflexivity|].
  cbn [map]. now rewrite bcount_cons, Hp, IH.
Qed.

Lemma announcement_pages (h : History) :
  flat_map announcement (map Page h) = [].
Proof. induction h as [|e h IH]; [reflexivity|exact IH]. Qed.

Lemma numbered_from_cons (i n : nat) (u : str) (l : list str) :
  numbered_from i n (u :: l) = (i, n, u) :: numbered_from (S i) n l.
Proof. reflexivity. Qed.

Lemma attempt_of_cons (bw : BatchWorld) (ok : str -> bool) (dlg : bool)
  (opts : CaptureOptions) (n i : nat) (url : str) (e : BatchEvent)
  (bh : BatchHistory) (r : Res Path) :
  attempt_of bw ok dlg opts n i url bh r ->
  attempt_of bw ok dlg opts n i url (e :: bh) r.
Proof.
  intros (before & after & h & -> & Hrun).
  exists before, (e :: after), h. split; [reflexivity|exact Hrun].
Qed.

(** The loop announces the URLs in order and runs [capture_one] on each
    of them, never raises, touches none of the batch's own calls, and
    stops early only where a capture waits for ever. *)
Lemma capture_all_spec (bw : BatchWorld) (ok : str -> bool) (dlg : bool)
  (opts : CaptureOptions) (urls : list str) :
  forall (i n : nat) (bh : BatchHistory),
  exists new r tried rest,
    capture_all bw ok dlg opts urls i n bh = (new ++ bh, r)
    /\ urls = tried ++ rest
    /\ rev (flat_map announcement new) = numbered_from i n tried
    /\ (forall op, bcount (did op) new = 0%nat)
    /\ (bcount reports new <= length tried)%nat
    /\ (forall k url,
          nth_error tried k = Some url ->
          exists r', attempt_of bw ok dlg opts n (i + k) url (new ++ bh) r'
                     /\ (r' = Blocked -> r = Blocked))
    /\ match r with
       | Returns _ => rest = []
       | Raised _ => False
       | Blocked => tried <> []
       end.
Proof.
  induction urls as [|url urls IH]; intros i n bh.
  - exists [], (Returns tt), [], []. repeat split; [cbn; lia|].
    intros [|k] u; discriminate.
  - cbn [capture_all].
    destruct (capture_one (page_world bw (Announced i n url :: bh)) ok dlg url
                opts []) as [h r] eqn:Erun.
    assert (Hpages : forall op, bcount (did op) (map Page h) = 0%nat).
    { intros op. apply bcount_pages. intros e. now destruct op. }
    destruct r as [p|e|].
    + destruct (IH (S i) n (map Page h ++ Announced i n url :: bh))
        as (new & r & tried & rest & E & Eu & Ea & Hd & Hr & Hatt & Hend).
      assert (Eh : (new ++ map Page h ++ [Announced i n url]) ++ bh
                   = new ++ map Page h ++ Announced i n url :: bh)
        by (repeat (cbn [app]; rewrite <- app_assoc); reflexivity).
      exists (new ++ map Page h ++ [Announced i n url]), r, (url :: tried), rest.
      split; [rewrite E, Eh; reflexivity|].
      split; [now rewrite Eu|].
      split.
      { rewrite !flat_map_app, announcement_pages, !rev_app_distr.
        cbn [flat_map announcement app rev]. now rewrite Ea, numbered_from_cons. }
      split.
      { intros op. rewrite !bcount_app, Hd, Hpages. now destruct op. }
      split.
      { rewrite !bcount_app, (bcount_pages reports) by reflexivity.
        cbn [bcount filter reports length app]. cbn [length]. lia. }
      split.
      { intros [|k] u Hu; rewrite Eh.
        - injection Hu as <-. rewrite Nat.add_0_r. exists (Returns p).
          split; [|discriminate].
          exists bh, new, h. split; [|exact Erun].
          unfold attempt_events. cbn [app]. now rewrite <- app_assoc.
        - cbn [nth_error] in Hu. destruct (Hatt k u Hu) as (r' & Ha & Hb).
          exists r'. replace (i + S k)%nat with (S i + k)%nat by lia.
          split; assumption. }
      destruct r; [exact Hend|exact Hend|discriminate].
    + destruct (IH (S i) n (Reported url e :: map Page h ++ Announced i n url :: bh))
        as (new & r & tried & rest & E & Eu & Ea & Hd & Hr & Hatt & Hend).
      assert (Eh : (new ++ Reported url e :: map Page h ++ [Announced i n url])
                   ++ bh
                   = new ++ Reported url e :: map Page h
                     ++ Announced i n url :: bh)
        by (repeat (cbn [app]; rewrite <- app_assoc); reflexivity).
      exists (new ++ Reported url e :: map Page h ++ [Announced i n url]), r,
        (url :: tried), rest.
      split; [rewrite E, Eh; reflexivity|].
      split; [now rewrite Eu|].
      split.
      { rewrite flat_map_app. cbn [flat_map announcement app].
        rewrite !flat_map_app, announcement_pages, !rev_app_distr.
        cbn [flat_map announcement app rev]. now rewrite Ea, numbered_from_cons. }
      split.
      { intros op. rewrite bcount_app, bcount_cons, bcount_app, Hd, Hpages.
        now destruct op. }
      split.
      { rewrite bcount_app, bcount_cons, bcount_app,
          (bcount_pages reports) by reflexivity.
        cbn [bcount filter reports length app]. cbn [length]. lia. }
      split.
      { intros [|k] u Hu; rewrite Eh.
        - injection Hu as <-. rewrite Nat.add_0_r. exists (Raised e).
          split; [|discriminate].
          exists bh, new, h. split; [|exact Erun].
          unfold attempt_events. cbn [app]. now rewrite <- app_assoc.
        - cbn [nth_error] in Hu. destruct (Hatt k u Hu) as (r' & Ha & Hb).
          exists r'. replace (i + S k)%nat with (S i + k)%nat by lia.
          split; assumption. }
      destruct r; [exact Hend|exact Hend|discriminate].
    + exists (map Page h ++ [Announced i n url]), Blocked, [url], urls.
      split; [rewrite <- app_assoc; reflexivity|].
      split; [reflexivity|].
      split.
      { rewrite flat_map_app, announcement_pages. reflexivity. }
      split.
      { intros op. rewrite bcount_app, Hpages. now destruct op. }
      split.
      { rewrite bcount_app, (bcount_pages reports) by reflexivity. cbn. lia. }
      split.
      { intros [|k] u Hu.
        - injection Hu as <-. rewrite Nat.add_0_r. exists Blocked.
          split; [|reflexivity].
          exists bh, [], h. split; [|exact Erun].
          unfold attempt_events. cbn [app]. now rewrite <- app_assoc.
        - destruct k; discriminate Hu. }
      discriminate.
Qed.

Lemma announcement_app (a b : BatchHistory) :
  flat_map announcement (a ++ b)
  = flat_map announcement a ++ flat_map announcement b.
Proof. apply flat_map_app. Qed.

Lemma announcement_cons (e : BatchEvent) (bh : BatchHistory) :
  flat_map announcement (e :: bh) = announcement e ++ flat_map announcement bh.
Proof. reflexivity. Qed.

Ltac bstep :=
  match goal with
  | |- context [match answer ?bw ?bh ?op with _ => _ end] =>
      lazymatch bh with
      | context [answer _ _ _] => fail
      | _ => let E := fresh "E" in destruct (answer bw bh op) eqn:E
      end
  | |- context [capture_all ?bw ?ok ?dlg ?o ?urls ?i ?n ?bh] =>
      let new := fresh "loop" in
      let r := fresh "r" in
      let E := fresh "E" in
      destruct (capture_all_spec bw ok dlg o urls i n bh)
        as (new & r & ?tried & ?rest & E & ?Eu & ?Ea & ?Hd & ?Hr & ?Hatt
            & ?Hend);
      rewrite E; clear E; destruct r; try contradiction
  end.

(** Every way [run_batch] can go. *)
Ltac all_batches :=
  lazymatch goal with
  | |- forall (bh : BatchHistory) (r : Res unit), ?run = (bh, r) -> @?Q bh r =>
      let P := fresh "P" in
      pose (P := Q);
      change (forall (bh : BatchHistory) (r : Res unit), run = (bh, r) -> P bh r);
      cbv [run_batch bbind finally bdo];
      repeat (bstep; cbv beta iota zeta);
      intros ? ? [= <- <-]; subst P; cbv beta
  end.

Lemma no_did_no_ok (l : BatchHistory) :
  (forall op, bcount (did op) l = 0%nat) ->
  forall op, bcount (did_ok op) l = 0%nat.
Proof.
  intros H op. specialize (H op). induction l as [|e l IH]; [reflexivity|].
  rewrite bcount_cons in *.
  assert (did_ok op e = true -> did op e = true)
    by (destruct e as [o []| | |]; cbn; congruence).
  destruct (did_ok op e), (did op e); try lia; try (now apply IH).
Qed.

Ltac btidy :=
  unfold announcements;
  repeat (rewrite ?bcount_app, ?bcount_cons, ?bcount_nil, ?announcement_app,
            ?announcement_cons in *);
  cbn [did did_ok reports announcement app Nat.add] in *;
  repeat match goal with
         | H : forall op : BatchOp, bcount (did op) ?l = 0%nat |- _ =>
             rewrite ?(H StartPlaywright), ?(H LaunchHeadless),
               ?(H NewPrimaryContext), ?(H NewPrimaryPage),
               ?(H ClosePrimaryContext), ?(H ClosePrimaryBrowser),
               ?(H StopPlaywright) in *;
             pose proof (no_did_no_ok _ H) as ?Hok; clear H
         | H : forall op : BatchOp, bcount (did_ok op) ?l = 0%nat |- _ =>
             rewrite ?(H StartPlaywright), ?(H LaunchHeadless),
               ?(H NewPrimaryContext), ?(H NewPrimaryPage),
               ?(H ClosePrimaryContext), ?(H ClosePrimaryBrowser),
               ?(H StopPlaywright) in *;
             clear H
         end.

(** Provided its own set-up succeeded and no capture waits for ever,
    [run_batch] announces the URLs of the list once each and in order, as
    [i/n] with [i] from 1, and attempts every one of them, whether the
    earlier captures returned or raised: the announcement of a URL is
    followed by the events of a whole run of [capture_one] on it and, if
    that run raised, by an error line for it.  There are at most as many
    error lines as URLs, and the context is closed once. *)
Theorem run_batch_attempts_every_url (bw : BatchWorld) (ok : str -> bool)
  (dlg : bool) (opts : CaptureOptions) (urls : list str) :
  forall (bh : BatchHistory) (r : Res unit),
  run_batch bw ok dlg opts urls [] = (bh, r) ->
  bcount (did_ok NewPrimaryPage) bh = 1%nat ->
  r <> Blocked ->
  announcements bh = numbered urls
  /\ (forall k url,
        nth_error urls k = Some url ->
        exists r', attempt_of bw ok dlg opts (length urls) (S k) url bh r'
                   /\ r' <> Blocked)
  /\ (bcount reports bh <= length urls)%nat
  /\ bcount (did ClosePrimaryContext) bh = 1%nat.
Proof.
  all_batches.
  all: intros Hset Hnb.
  all: match goal with
       | |- _ /\ _ /\ _ => split; [|split]
       end.
  all: try (btidy; try discriminate Hset; try (now destruct Hnb);
            subst rest; rewrite app_nil_r in *; subst tried;
            rewrite ?app_nil_r, ?Ea; repeat split; lia).
  all: try (btidy; discriminate Hset).
  all: try (now destruct Hnb).
  all: subst rest; rewrite app_nil_r in *; subst tried.
  all: intros k url Hk; destruct (Hatt k url Hk) as (r' & Ha & Hb).
  all: exists r'; split; [|intros ->; discriminate (Hb eq_refl)].
  all: repeat apply attempt_of_cons; exact Ha.
Qed.

(** Two URLs whose navigation fails: both are announced and attempted,
    and both errors are reported. *)
Lemma run_batch_attempts_every_url_witness :
  bcount reports
    (fst (run_batch (steady navigation_fails) (fun _ => true) true
            (sample_options Print) two_urls [])) = 2%nat
  /\ announcements
       (fst (run_batch (steady navigation_fails) (fun _ => true) true
               (sample_options Print) two_urls []))
     = [(1, 2, sample_url); (2, 2, lit "https://example.org/")]%nat
  /\ exists r',
       attempt_of (steady navigation_fails) (fun _ => true) true
         (sample_options Print) 2 2 (lit "https://example.org/")
         (fst (run_batch (steady navigation_fails) (fun _ => true) true
                 (sample_options Print) two_urls [])) r'
       /\ r' <> Blocked.
Proof.
  split; [vm_compute; reflexivity|].
  destruct (run_batch_attempts_every_url (steady navigation_fails)
              (fun _ => true) true (sample_options Print) two_urls
              _ _ (surjective_pairing _)
              ltac:(vm_compute; reflexivity)
              ltac:(vm_compute; discriminate))
    as (Ha & Hatt & _).
  split; [exact Ha|].
  exact (Hatt 1%nat (lit "https://example.org/") eq_refl).
Defined.

(** The teardown of [run_batch], for every run that does not wait for
    ever: [context.close()] is called if and only if the page was
    created, [browser.close()] if and only if [context.close()] returned,
    and playwright is stopped if and only if it was started.  So a
    failure of [new_context] or [new_page] leaves the browser to the
    stopping of playwright, and so does a failure of [context.close()]. *)
Theorem run_batch_teardown (bw : BatchWorld) (ok : str -> bool)
  (dlg : bool) (opts : CaptureOptions) (urls : list str) :
  forall (bh : BatchHistory) (r : Res unit),
  run_batch bw ok dlg opts urls [] = (bh, r) ->
  r <> Blocked ->
  bcount (did ClosePrimaryContext) bh = bcount (did_ok NewPrimaryPage) bh
  /\ bcount (did ClosePrimaryBrowser) bh
     = bcount (did_ok ClosePrimaryContext) bh
  /\ bcount (did StopPlaywright) bh = bcount (did_ok StartPlaywright) bh.
Proof.
  all_batches.
  all: intros Hnb; btidy; try (now destruct Hnb).
  all: repeat split; lia.
Qed.

Lemma run_batch_teardown_witness :
  bcount (did ClosePrimaryContext)
    (fst (run_batch (teardown_fails slow_page_no_print) (fun _ => true) true
            (sample_options Print) two_urls [])) = 1%nat
  /\ bcount (did ClosePrimaryBrowser)
       (fst (run_batch (teardown_fails slow_page_no_print) (fun _ => true)
               true (sample_options Print) two_urls [])) = 0%nat
  /\ snd (run_batch (teardown_fails slow_page_no_print) (fun _ => true) true
            (sample_options Print) two_urls []) = Raised PlaywrightError.
Proof.
  destruct (run_batch_teardown (teardown_fails slow_page_no_print)
              (fun _ => true) true (sample_options Print) two_urls
              _ _ (surjective_pairing _) ltac:(vm_compute; discriminate))
    as (Hc & Hb & _).
  split; [rewrite Hc; vm_compute; reflexivity|].
  split; [rewrite Hb; vm_compute; reflexivity|].
  vm_compute. reflexivity.
Defined.

Ltac find_raiser :=
  repeat first [left; reflexivity | apply in_or_app; right | right].

(** [run_batch] raises only what one of its own calls raised (starting
    playwright, the set-up, the teardown): an exception of [capture_one]
    never leaves it.  When its own calls all succeed it returns, unless a
    capture waits for ever. *)
Theorem run_batch_raises_only_its_own (bw : BatchWorld) (ok : str -> bool)
  (dlg : bool) (opts : CaptureOptions) (urls : list str) :
  forall (bh : BatchHistory) (r : Res unit),
  run_batch bw ok dlg opts urls [] = (bh, r) ->
  (forall e, r = Raised e -> raised_by_batch e bh)
  /\ ((forall bh' op, answer bw bh' op = Done) -> r <> Blocked ->
      r = Returns tt).
Proof.
  all_batches.
  all: split; [intros ? [= <-]; eexists; find_raiser|].
  all: intros Hdone Hnb; try (now destruct Hnb);
    try match goal with a : unit |- _ => destruct a; reflexivity end.
  all: match goal with H : answer _ _ _ = Raises _ |- _ =>
         rewrite Hdone in H; discriminate H end.
Qed.

Lemma run_batch_raises_only_its_own_witness :
  snd (run_batch (steady navigation_fails) (fun _ => true) true
         (sample_options Print) two_urls []) = Returns tt.
Proof.
  apply (proj2 (run_batch_raises_only_its_own (steady navigation_fails)
                  (fun _ => true) true (sample_options Print) two_urls
                  _ _ (surjective_pairing _))).
  - reflexivity.
  - vm_compute. discriminate.
Defined.

(** A capture that waits for ever keeps [run_batch] from closing
    anything: no [context.close()], no [browser.close()], playwright is not
    stopped. *)
Theorem run_batch_blocked_closes_nothing (bw : BatchWorld) (ok : str -> bool)
  (dlg : bool) (opts : CaptureOptions) (urls : list str) :
  forall (bh : BatchHistory) (r : Res unit),
  run_batch bw ok dlg opts urls [] = (bh, r) ->
  r = Blocked ->
  bcount (did ClosePrimaryContext) bh = 0%nat
  /\ bcount (did ClosePrimaryBrowser) bh = 0%nat
  /\ bcount (did StopPlaywright) bh = 0%nat
  /\ announcements bh <> [].
Proof.
  all_batches.
  all: intros Hb; try discriminate Hb; btidy.
  all: repeat split; try lia.
  all: rewrite app_nil_r, Ea.
  all: destruct tried; [now destruct Hend|discriminate].
Qed.

Lemma run_batch_blocked_closes_nothing_witness :
  snd (run_batch (steady human_skips) (fun _ => true) false
         (sample_options Print) two_urls []) = Blocked
  /\ bcount (did StopPlaywright)
       (fst (run_batch (steady human_skips) (fun _ => true) false
               (sample_options Print) two_urls [])) = 0%nat.
Proof.
  split; [vm_compute; reflexivity|].
  exact (proj1 (proj2 (proj2
           (run_batch_blocked_closes_nothing (steady human_skips)
              (fun _ => true) false (sample_options Print) two_urls
              _ _ (surjective_pairing _) ltac:(vm_compute; reflexivity))))).
Defined.

End BatchFacts.

Module UrlsFacts.
Import Text SiteRules Urls TextFacts SiteRulesFacts.

Lemma linebreak_space (c : ascii) : linebreak c = true -> isspace c = true.
Proof.
  destruct c as [[] [] [] [] [] [] [] []]; vm_compute; congruence.
Qed.

Lemma not_space_not_break (c : ascii) : isspace c = false -> linebreak c = false.
Proof.
  intros H. destruct (linebreak c) eqn:E; [|reflexivity].
  apply linebreak_space in E. congruence.
Qed.

(** No line holds a line boundary. *)
Lemma splitlines_from_unbroken (n : nat) :
  forall (s cur : str),
    (length s <= n)%nat -> unbroken cur ->
    Forall unbroken (splitlines_from cur s).
Proof.
  induction n as [|n IH]; intros s cur Hn Hcur.
  - destruct s; [|cbn in Hn; lia]. cbn.
    destruct cur; repeat constructor. now apply Forall_rev.
  - destruct s as [|c rest]; cbn [splitlines_from].
    + destruct cur; repeat constructor. now apply Forall_rev.
    + cbn [length] in Hn. destruct (linebreak c) eqn:Ec.
      * constructor; [now apply Forall_rev|].
        destruct rest as [|c' rest']; [constructor|].
        destruct (is_char CR c && is_char LF c').
        -- apply IH; [cbn [length] in Hn; lia|constructor].
        -- apply IH; [lia|constructor].
      * apply IH; [lia|]. now constructor.
Qed.

(** Characters that are no boundary are added to the line being read. *)
Lemma splitlines_from_run (w : str) :
  unbroken w ->
  forall cur rest, splitlines_from cur (w ++ rest) = splitlines_from (rev w ++ cur) rest.
Proof.
  induction 1 as [|c w Hc Hw IH]; intros cur rest; [reflexivity|].
  cbn [app splitlines_from]. rewrite Hc, IH. cbn [rev].
  now rewrite <- app_assoc.
Qed.

(** A line that has begun is the first line of the result. *)
Lemma splitlines_from_begun (s : str) :
  forall cur, cur <> [] ->
    exists l rest, splitlines_from cur s = (rev cur ++ l) :: rest.
Proof.
  induction s as [|c s IH]; intros cur Hcur; cbn [splitlines_from].
  - destruct cur; [congruence|]. exists [], []. now rewrite app_nil_r.
  - destruct (linebreak c).
    + eexists [], _. now rewrite app_nil_r.
    + destruct (IH (c :: cur) ltac:(discriminate)) as (l & rest & E).
      exists (c :: l), rest. rewrite E. cbn [rev]. now rewrite <- app_assoc.
Qed.

Lemma strip_idem (s : str) : strip (strip s) = strip s.
Proof.
  destruct (strip_parts s) as (_ & _ & _ & _ & _ & Ht & _).
  now apply strip_trimmed.
Qed.

Lemma nonempty_true (s : str) : nonempty s = true <-> s <> [].
Proof. destruct s; cbn; split; congruence. Qed.

(** Every URL collected is non-empty, has no white space at either end
    (it is its own [strip()]) and holds no line boundary. *)
Theorem collect_urls_shape (text : str) :
  Forall (fun u => u <> [] /\ strip u = u /\ unbroken u) (collect_urls text).
Proof.
  unfold collect_urls. cbv zeta. apply Forall_map, Forall_forall.
  intros l Hl. apply filter_In in Hl as [Hin Hne].
  split; [now apply nonempty_true|]. split; [apply strip_idem|].
  apply Forall_strip_of.
  pose proof (splitlines_from_unbroken (length (strip text)) (strip text) []
                (le_n _) (Forall_nil _)) as Hall.
  rewrite Forall_forall in Hall. now apply Hall.
Qed.

(** The list is empty exactly when the text is blank. *)
Theorem collect_urls_empty_iff_blank (text : str) :
  collect_urls text = [] <-> strip text = [].
Proof.
  unfold collect_urls. cbv zeta. split.
  - intros H. destruct (strip text) as [|c0 mid] eqn:Eraw; [reflexivity|].
    exfalso.
    assert (Hc0 : isspace c0 = false).
    { destruct (strip_parts text) as (_ & _ & _ & _ & _ & Ht & _).
      rewrite Eraw in Ht.
      destruct Ht as [Ht | (c & m & _ & _ & [= <- <-] & Hc & _)];
        [discriminate|exact Hc]. }
    unfold splitlines in H. cbn [splitlines_from] in H.
    rewrite (not_space_not_break _ Hc0) in H.
    destruct (splitlines_from_begun mid [c0] ltac:(discriminate))
      as (l & rest & E).
    rewrite E in H. cbn [rev app filter] in H.
    pose proof (strip_nonempty c0 l Hc0) as Hne.
    apply nonempty_true in Hne. rewrite Hne in H. discriminate H.
  - intros ->. reflexivity.
Qed.

(** A text on one line is one URL, whatever white space it holds inside:
    the list is never split at spaces or tabs. *)
Theorem collect_urls_single_line (text : str) :
  unbroken text -> strip text <> [] ->
  collect_urls text = [strip text].
Proof.
  intros Hu Hne. unfold collect_urls, splitlines. cbv zeta.
  pose proof (Forall_strip_of _ isspace text Hu) as Hraw. fold (strip text) in Hraw.
  rewrite <- (app_nil_r (strip text)) at 1.
  rewrite (splitlines_from_run _ Hraw). cbn [splitlines_from].
  rewrite app_nil_r.
  destruct (rev (strip text)) eqn:Er.
  - apply (f_equal (@rev ascii)) in Er. rewrite rev_involutive in Er.
    now destruct Hne.
  - rewrite <- Er, rev_involutive. cbn [filter].
    rewrite strip_idem. apply nonempty_true in Hne. rewrite Hne.
    cbn [map]. now rewrite strip_idem.
Qed.

Lemma collect_urls_single_line_witness :
  collect_urls (lit "  https://a.example/x  https://b.example/y ")
  = [lit "https://a.example/x  https://b.example/y"].
Proof.
  exact (collect_urls_single_line
           (lit "  https://a.example/x  https://b.example/y ")
           ltac:(repeat constructor) ltac:(discriminate)).
Defined.

Lemma word_unbroken (u : str) : word u -> unbroken u.
Proof.
  intros [_ H]. eapply Forall_impl; [|exact H].
  intros c. apply not_space_not_break.
Qed.

Lemma join_edges (l : list str) :
  Forall word l -> l <> [] ->
  exists c0 mid front z,
    join newline l = c0 :: mid /\ isspace c0 = false
    /\ join newline l = front ++ [z] /\ isspace z = false.
Proof.
  induction 1 as [|u l Hu Hl IH]; intros Hne; [congruence|].
  destruct (word_trimmed u Hu)
    as [-> | (c0 & mid & front & z & E0 & H0 & Ez & Hz)];
    [now destruct Hu|].
  destruct l as [|v l].
  - cbn [join]. now exists c0, mid, front, z.
  - destruct (IH ltac:(discriminate))
      as (c1 & mid1 & front1 & z1 & E1 & H1 & Ez1 & Hz1).
    change (join newline (u :: v :: l))
      with (u ++ newline ++ join newline (v :: l)).
    exists c0, (mid ++ newline ++ join newline (v :: l)),
      (u ++ newline ++ front1), z1.
    repeat split; auto.
    + now rewrite E0.
    + rewrite Ez1. now rewrite <- !app_assoc.
Qed.

Lemma splitlines_join (l : list str) :
  Forall word l -> splitlines (join newline l) = l.
Proof.
  unfold splitlines. induction 1 as [|u l Hu Hl IH]; [reflexivity|].
  pose proof (word_unbroken u Hu) as Hb.
  destruct l as [|v l].
  - cbn [join]. rewrite <- (app_nil_r u) at 1.
    rewrite (splitlines_from_run u Hb). cbn [splitlines_from].
    rewrite app_nil_r. destruct (rev u) eqn:Er.
    + apply (f_equal (@rev ascii)) in Er. rewrite rev_involutive in Er.
      destruct Hu as [Hu _]. now destruct Hu.
    + now rewrite <- Er, rev_involutive.
  - change (join newline (u :: v :: l))
      with (u ++ newline ++ join newline (v :: l)).
    rewrite (splitlines_from_run u Hb), app_nil_r.
    destruct (join_edges (v :: l) Hl ltac:(discriminate))
      as (c1 & mid1 & _ & _ & E1 & _ & _ & _).
    unfold newline at 1. cbn [app splitlines_from].
    change (linebreak (ascii_of_N 10)) with true. cbv iota.
    rewrite rev_involutive. rewrite E1 at 1.
    change (is_char CR (ascii_of_N 10)) with false. cbn [andb].
    now rewrite IH.
Qed.

Lemma words_kept (l : list str) :
  Forall word l ->
  map strip (filter (fun u => nonempty (strip u)) l) = l.
Proof.
  induction 1 as [|u l Hu Hl IH]; [reflexivity|].
  cbn [filter]. rewrite (strip_trimmed u (word_trimmed u Hu)).
  destruct Hu as [Hne Hu]. rewrite (proj2 (nonempty_true u) Hne).
  cbn [map]. now rewrite IH, (strip_trimmed u (word_trimmed u (conj Hne Hu))).
Qed.

(** Writing a list of URLs one per line and collecting them gives the
    list back, provided every URL is non-empty and free of white space. *)
Theorem collect_urls_round_trip (urls : list str) :
  Forall word urls -> collect_urls (join newline urls) = urls.
Proof.
  intros Hw. unfold collect_urls. cbv zeta.
  assert (Es : strip (join newline urls) = join newline urls).
  { apply strip_trimmed. destruct urls as [|u l]; [now left|]. right.
    destruct (join_edges (u :: l) Hw ltac:(discriminate))
      as (c0 & mid & front & z & H). now exists c0, mid, front, z. }
  rewrite Es, (splitlines_join urls Hw). now apply words_kept.
Qed.

Lemma collect_urls_round_trip_witness :
  collect_urls (lit "https://example.com/a" ++ newline ++ lit "http://b.example/")
  = [lit "https://example.com/a"; lit "http://b.example/"].
Proof.
  exact (collect_urls_round_trip
           [lit "https://example.com/a"; lit "http://b.example/"]
           ltac:(repeat constructor; discriminate)).
Defined.

End UrlsFacts.

Module RuleTextFacts.
Import Text Regex SiteRules RuleText TextFacts RegexFacts SiteRulesFacts.

(** Both sections: the CSS text runs up to the white space before [JS:]. *)
Lemma both_parts (R : Type) (g : groups)
  (lead cssb ws2 lead2 jsb trail tail : str)
  (k : groups -> str -> option R) (x : R) :
  spaces lead -> trimmed cssb -> cssb <> [] ->
  spaces ws2 -> ws2 <> [] -> spaces lead2 -> spaces trail ->
  trimmed jsb -> (jsb = [] -> trail = []) ->
  contains_ci (lit "@end") cssb = false ->
  contains_ci (lit "js:") cssb = false ->
  contains_ci (lit "@end") jsb = false ->
  k (("js"%string, jsb) :: ("css"%string, cssb) :: g) tail = Some x ->
  exec true (Cat (Opt css_section) block_end) g
       (lit "CSS:" ++ lead ++ cssb ++ ws2 ++ lit "JS:" ++ lead2 ++ jsb
        ++ trail ++ lit "@end" ++ tail) k
  = Some x.
Proof.
  intros Hlead Hcss Hcne Hws2 Hne2 Hlead2 Htrail Hjsb Hempty Hend Hjs Hend2 Hk.
  set (Y := ws2 ++ lit "JS:" ++ lead2 ++ jsb ++ trail ++ lit "@end" ++ tail).
  assert (HY : exists y0 Y', Y = y0 :: Y' /\ (isspace y0 = true \/ y0 = "@"%char)).
  { unfold Y. destruct Hws2 as [|c ws2 Hc _]; [congruence|]. cbn; eauto. }
  cbn [exec]. unfold css_section at 1. cbn [exec]. rewrite chars_app.
  match goal with
  | |- orelse ?a _ = _ => assert (E : a = Some x); [|now rewrite E]
  end.
  apply rep_greedy_first; [|  |exact Hlead|cbn; lia].
  { destruct Hcss as [-> | (c0 & mid & _ & _ & -> & Hc & _)];
      [congruence|exact Hc]. }
  apply rep_lazy_first.
  - rewrite consumed_app. fold Y. unfold Y.
    now apply block_end_js.
  - intros i Hi.
    destruct Hcss as [-> | (c0 & mid & front & z & _ & _ & Eb & Hz)];
      [cbn in Hi; lia|].
    destruct HY as (y0 & Y' & EY & Hy0). fold Y. rewrite EY.
    assert (Hlen : (i <= length front)%nat).
    { rewrite Eb, length_app in Hi. cbn in Hi. lia. }
    assert (Eskip : skipn i cssb = skipn i front ++ [z]).
    { rewrite Eb, skipn_app.
      replace (i - length front)%nat with O by lia. reflexivity. }
    rewrite Eskip.
    apply block_end_inside with (body := cssb); auto.
    exists (firstn i front). rewrite app_assoc, firstn_skipn. exact Eb.
Qed.

(** The first match of a block with both sections. *)
Lemma full_block_match (ws0 d ws1 lead cssb ws2 lead2 jsb trail tail : str) :
  spaces ws0 -> ws0 <> [] -> word d -> spaces ws1 -> ws1 <> [] ->
  spaces lead -> trimmed cssb -> cssb <> [] ->
  spaces ws2 -> ws2 <> [] -> spaces lead2 -> spaces trail ->
  trimmed jsb -> (jsb = [] -> trail = []) ->
  contains_ci (lit "@end") cssb = false ->
  contains_ci (lit "js:") cssb = false ->
  contains_ci (lit "@end") jsb = false ->
  let block := lit "@domain" ++ ws0 ++ d ++ ws1
               ++ lit "CSS:" ++ lead ++ cssb ++ ws2
               ++ lit "JS:" ++ lead2 ++ jsb ++ trail ++ lit "@end" in
  match_here true pattern (block ++ tail)
  = Some (mkMatch block
            [("js"%string, jsb); ("css"%string, cssb); ("domain"%string, d)]
            tail).
Proof.
  intros Hws0 Hne0 [Hned Hd] Hws1 Hne1 Hlead Hcss Hcne Hws2 Hne2 Hlead2 Htrail
    Hjsb Hempty Hend Hjs Hend2 block.
  unfold match_here, pattern.
  assert (Eblock : block ++ tail
                   = lit "@domain" ++ ws0 ++ d ++ ws1
                     ++ lit "CSS:" ++ lead ++ cssb ++ ws2
                     ++ lit "JS:" ++ lead2 ++ jsb ++ trail ++ lit "@end" ++ tail).
  { unfold block. now rewrite <- !app_assoc. }
  set (k0 := fun (g : groups) (rest : str) =>
               Some (mkMatch (consumed (block ++ tail) rest) g rest)).
  rewrite Eblock at 1. cbn [exec]. rewrite chars_app.
  apply rep_greedy_first;
    [now apply head_word| |exact Hws0|now apply length_nonempty].
  apply rep_greedy_first;
    [now apply head_space| |now apply word_not_space|now apply length_nonempty].
  rewrite consumed_app.
  apply rep_greedy_first;
    [reflexivity| |exact Hws1|now apply length_nonempty].
  apply (both_parts _ _ lead cssb ws2 lead2 jsb trail tail); auto.
  unfold k0. now rewrite consumed_app.
Qed.

(** A block with both sections, however it is spaced: one rule, with the
    lower-cased domain and both texts stripped. *)
Theorem parse_full_block (ws0 d ws1 c ws2 j tail : str) :
  spaces ws0 -> ws0 <> [] -> word d -> spaces ws1 -> ws1 <> [] ->
  strip c <> [] -> spaces ws2 -> ws2 <> [] ->
  contains_ci (lit "@end") c = false ->
  contains_ci (lit "js:") c = false ->
  contains_ci (lit "@end") j = false ->
  contains_ci (lit "@end") tail = false ->
  parse_site_rules
    (lit "@domain" ++ ws0 ++ d ++ ws1 ++ lit "CSS:" ++ c ++ ws2
     ++ lit "JS:" ++ j ++ lit "@end" ++ tail)
  = [mkRule (lower d) (strip c) (strip j)].
Proof.
  intros Hws0 Hne0 Hd Hws1 Hne1 Hcne Hws2 Hne2 Hend Hjs Hend2 Htail.
  destruct (strip_parts c) as (lead & trailc & Ec & Hlead & Htrailc & Hcss & _).
  destruct (strip_parts j) as (lead2 & trail & Ej & Hlead2 & Htrail & Hjsb & Hempty).
  assert (Hws2' : spaces (trailc ++ ws2)) by (apply Forall_app; now split).
  assert (Hne2' : trailc ++ ws2 <> []) by (destruct trailc; [exact Hne2|discriminate]).
  rewrite Ec in Hend, Hjs. rewrite Ej in Hend2.
  pose proof (full_block_match ws0 d ws1 lead (strip c) (trailc ++ ws2) lead2
                (strip j) trail tail Hws0 Hne0 Hd Hws1 Hne1 Hlead Hcss Hcne
                Hws2' Hne2' Hlead2 Htrail Hjsb Hempty
                (contains_ci_part _ _ _ _ Hend) (contains_ci_part _ _ _ _ Hjs)
                (contains_ci_part _ _ _ _ Hend2)) as Hm.
  cbv zeta in Hm.
  set (block := lit "@domain" ++ ws0 ++ d ++ ws1
                ++ lit "CSS:" ++ lead ++ strip c ++ (trailc ++ ws2)
                ++ lit "JS:" ++ lead2 ++ strip j ++ trail ++ lit "@end") in *.
  assert (Etext : lit "@domain" ++ ws0 ++ d ++ ws1 ++ lit "CSS:" ++ c ++ ws2
                  ++ lit "JS:" ++ j ++ lit "@end" ++ tail = block ++ tail).
  { unfold block. rewrite Ec at 1. rewrite Ej at 1. now rewrite <- !app_assoc. }
  rewrite Etext. unfold parse_site_rules.
  destruct (strip (block ++ tail)) eqn:Es;
    [exfalso; revert Es; apply strip_nonempty; reflexivity|].
  unfold finditer. cbn [finditer_from]. rewrite Hm. cbn [matched after].
  change block with ("@"%char :: tl block) at 1. cbv iota.
  rewrite (finditer_no_end tail Htail). cbn [map].
  unfold rule_of_match, group_or_empty. cbn [bindings].
  change (group "domain" [("js"%string, strip j); ("css"%string, strip c);
                          ("domain"%string, d)])
    with (Some d).
  change (group "css" [("js"%string, strip j); ("css"%string, strip c);
                       ("domain"%string, d)])
    with (Some (strip c)).
  change (group "js" [("js"%string, strip j); ("css"%string, strip c);
                      ("domain"%string, d)])
    with (Some (strip j)).
  cbv iota.
  now rewrite (strip_trimmed d (word_trimmed d Hd)), (strip_trimmed _ Hcss),
    (strip_trimmed _ Hjsb).
Qed.

Lemma parse_full_block_witness :
  parse_site_rules
    (lit "@domain" ++ lit "  " ++ lit "Example.COM" ++ newline
     ++ lit "CSS:" ++ lit " a{}  b{} " ++ newline
     ++ lit "JS:" ++ (lit "  go(); " ++ newline) ++ lit "@end"
     ++ (newline ++ lit "rest"))
  = [mkRule (lower (lit "Example.COM")) (strip (lit " a{}  b{} "))
            (strip (lit "  go(); " ++ newline))].
Proof.
  apply parse_full_block.
  all: try (repeat constructor; fail).
  all: try discriminate.
  all: try (vm_compute; reflexivity).
  all: try (split; [discriminate|repeat constructor]).
  all: vm_compute; discriminate.
Defined.

(** *** A blank CSS section *)

(** The CSS text runs to the terminator when the block can end nowhere
    inside it. *)
Lemma css_runs_to_end (R : Type) (g : groups) (lead body trail tail : str)
  (k : groups -> str -> option R) (x : R) :
  spaces lead -> spaces trail ->
  match body with [] => False | c :: _ => isspace c = false end ->
  (forall g' i, (i < length body)%nat ->
     exec true block_end g' (skipn i body ++ trail ++ lit "@end" ++ tail) k
     = None) ->
  k (("css"%string, body) :: g) tail = Some x ->
  exec true (Cat (Opt css_section) block_end) g
       (lit "CSS:" ++ lead ++ body ++ trail ++ lit "@end" ++ tail) k
  = Some x.
Proof.
  intros Hlead Htrail Hhead Hinside Hk.
  cbn [exec]. unfold css_section at 1. cbn [exec]. rewrite chars_app.
  match goal with
  | |- orelse ?a _ = _ => assert (E : a = Some x); [|now rewrite E]
  end.
  apply rep_greedy_first; [|  |exact Hlead|cbn; lia].
  { destruct body; [contradiction|exact Hhead]. }
  apply rep_lazy_first.
  - rewrite consumed_app, block_end_here by exact Htrail. exact Hk.
  - intros i Hi. now apply Hinside.
Qed.

Lemma contains_ci_skip (p : str) (a c : ascii) (s : str) :
  same_char true a c = false ->
  contains_ci (a :: p) (c :: s) = contains_ci (a :: p) s.
Proof.
  intros H. unfold contains_ci. cbn [lower map contains startswith].
  unfold same_char in H. now rewrite H.
Qed.

(** A block whose CSS section is blank loses its JS section: the CSS text
    of the rule is the JS section, marker included, and the JS text is
    empty. *)
Theorem parse_blank_css_swallows_js (ws0 d ws1 lead j tail : str) :
  spaces ws0 -> ws0 <> [] -> word d -> spaces ws1 -> ws1 <> [] ->
  spaces lead ->
  contains_ci (lit "@end") j = false ->
  contains_ci (lit "js:") j = false ->
  contains_ci (lit "@end") tail = false ->
  parse_site_rules
    (lit "@domain" ++ ws0 ++ d ++ ws1 ++ lit "CSS:" ++ lead
     ++ lit "JS:" ++ j ++ lit "@end" ++ tail)
  = [mkRule (lower d) (strip (lit "JS:" ++ j)) []].
Proof.
  intros Hws0 Hne0 Hd Hws1 Hne1 Hlead Hend Hjs Htail.
  set (c := lit "JS:" ++ j).
  destruct (strip_parts c) as (lead' & trail & Ec & Hlead' & Htrail & Hbody & Hempty).
  assert (El : lead' = []).
  { destruct lead' as [|a l]; [reflexivity|]. exfalso.
    inversion Hlead' as [|? ? Ha _]; subst.
    unfold c in Ec. cbn [lit app] in Ec. injection Ec as <- _. discriminate Ha. }
  subst lead'. cbn [app] in Ec.
  assert (Hhead : exists rest0, strip c = "J"%char :: rest0).
  { destruct (strip c) as [|a rest0] eqn:Es.
    - exfalso. revert Es. unfold c. apply strip_nonempty. reflexivity.
    - unfold c in Ec. cbn [lit app] in Ec. injection Ec as <- _. eauto. }
  destruct Hhead as (rest0 & Ebody).
  assert (Hend_c : contains_ci (lit "@end") c = false).
  { unfold c.
    change (lit "JS:" ++ j) with ("J"%char :: "S"%char :: ":"%char :: j).
    change (lit "@end") with ("@"%char :: lit "end") in *.
    now rewrite (contains_ci_skip _ "@" "J" _ eq_refl),
      (contains_ci_skip _ "@" "S" _ eq_refl),
      (contains_ci_skip _ "@" ":" _ eq_refl). }
  assert (Hjs_t : contains_ci (lit "js:") (tl c) = false).
  { unfold c.
    change (tl (lit "JS:" ++ j)) with ("S"%char :: ":"%char :: j).
    change (lit "js:") with ("j"%char :: lit "s:") in *.
    now rewrite (contains_ci_skip _ "j" "S" _ eq_refl),
      (contains_ci_skip _ "j" ":" _ eq_refl). }
  assert (Hend_b : contains_ci (lit "@end") (strip c) = false).
  { rewrite Ec in Hend_c.
    exact (contains_ci_part _ [] _ _ Hend_c). }
  assert (Etl : tl c = rest0 ++ trail) by (rewrite Ec, Ebody; reflexivity).
  assert (Hjs_b : contains_ci (lit "js:") rest0 = false).
  { rewrite Etl in Hjs_t. exact (contains_ci_part _ [] _ _ Hjs_t). }
  assert (Hend_r : contains_ci (lit "@end") rest0 = false).
  { rewrite Ebody in Hend_b.
    change (lit "@end") with ("@"%char :: lit "end") in *.
    now rewrite (contains_ci_skip _ "@" "J" _ eq_refl) in Hend_b. }
  set (block := lit "@domain" ++ ws0 ++ d ++ ws1
                ++ lit "CSS:" ++ lead ++ strip c ++ trail ++ lit "@end").
  assert (Etext : lit "@domain" ++ ws0 ++ d ++ ws1 ++ lit "CSS:" ++ lead
                  ++ lit "JS:" ++ j ++ lit "@end" ++ tail = block ++ tail).
  { unfold block. rewrite <- !app_assoc. do 4 f_equal.
    change (lit "JS:" ++ j ++ lit "@end" ++ tail)
      with (c ++ lit "@end" ++ tail) at 1.
    rewrite Ec at 1. now rewrite <- !app_assoc. }
  assert (Hm : match_here true pattern (block ++ tail)
               = Some (mkMatch block
                         [("css"%string, strip c); ("domain"%string, d)] tail)).
  { unfold match_here, pattern.
    assert (Eblock : block ++ tail
                     = lit "@domain" ++ ws0 ++ d ++ ws1 ++ lit "CSS:" ++ lead
                       ++ strip c ++ trail ++ lit "@end" ++ tail).
    { unfold block. now rewrite <- !app_assoc. }
    rewrite Eblock at 1. cbn [exec]. rewrite chars_app.
    destruct Hd as [Hned Hd].
    apply rep_greedy_first;
      [apply head_word; now split| |exact Hws0|now apply length_nonempty].
    apply rep_greedy_first;
      [now apply head_space| |now apply word_not_space|now apply length_nonempty].
    rewrite consumed_app.
    apply rep_greedy_first;
      [reflexivity| |exact Hws1|now apply length_nonempty].
    apply (css_runs_to_end _ _ lead (strip c) trail tail); auto.
    - now rewrite Ebody.
    - intros g' i Hi. rewrite Ebody in *. destruct i as [|i].
      + cbn [skipn app]. unfold block_end. cbn [exec].
        rewrite exec_js_section, exec_terminator. reflexivity.
      + cbn [skipn]. cbn [length] in Hi.
        destruct Hbody as [Hb | (c0 & mid & front & z & _ & _ & Eb & Hz)];
          [discriminate Hb|].
        destruct front as [|f0 front];
          [cbn in Eb; injection Eb as _ ->; cbn in Hi; lia|].
        cbn [app] in Eb. injection Eb as _ Er.
        assert (HY : exists y0 Y', trail ++ lit "@end" ++ tail = y0 :: Y'
                                   /\ (isspace y0 = true \/ y0 = "@"%char)).
        { destruct Htrail as [|a trail Ha _]; cbn; eauto. }
        destruct HY as (y0 & Y' & EY & Hy0). rewrite EY.
        assert (Hlen : (i <= length front)%nat).
        { rewrite Er, length_app in Hi. cbn in Hi. lia. }
        assert (Eskip : skipn i rest0 = skipn i front ++ [z]).
        { rewrite Er, skipn_app.
          replace (i - length front)%nat with O by lia. reflexivity. }
        rewrite Eskip.
        apply block_end_inside with (body := rest0); auto.
        exists (firstn i front). rewrite app_assoc, firstn_skipn. exact Er.
    - now rewrite consumed_app. }
  rewrite Etext. unfold parse_site_rules.
  destruct (strip (block ++ tail)) eqn:Es;
    [exfalso; revert Es; apply strip_nonempty; reflexivity|].
  unfold finditer. cbn [finditer_from]. rewrite Hm. cbn [matched after].
  change block with ("@"%char :: tl block) at 1. cbv iota.
  rewrite (finditer_no_end tail Htail). cbn [map].
  unfold rule_of_match, group_or_empty. cbn [bindings].
  change (group "domain" [("css"%string, strip c); ("domain"%string, d)])
    with (Some d).
  change (group "css" [("css"%string, strip c); ("domain"%string, d)])
    with (Some (strip c)).
  change (group "js" [("css"%string, strip c); ("domain"%string, d)])
    with (@None str).
  cbv iota.
  now rewrite (strip_trimmed d (word_trimmed d Hd)), (strip_trimmed _ Hbody).
Qed.

Lemma parse_blank_css_swallows_js_witness :
  parse_site_rules
    (lit "@domain" ++ lit " " ++ lit "a.com" ++ newline ++ lit "CSS:" ++ newline
     ++ lit "JS:" ++ (newline ++ lit "alert(1)" ++ newline) ++ lit "@end"
     ++ newline)
  = [mkRule (lit "a.com") (lit "JS:" ++ newline ++ lit "alert(1)") []].
Proof.
  exact (parse_blank_css_swallows_js (lit " ") (lit "a.com") newline newline
           (newline ++ lit "alert(1)" ++ newline) newline
           ltac:(repeat constructor) ltac:(discriminate)
           ltac:(split; [discriminate|repeat constructor])
           ltac:(repeat constructor) ltac:(discriminate)
           ltac:(repeat constructor) eq_refl eq_refl eq_refl).
Defined.

(** *** Writing rules out and reading them back *)

Lemma stripped_trimmed (s : str) : strip s = s -> trimmed s.
Proof.
  intros E. destruct (strip_parts s) as (_ & _ & _ & _ & _ & Ht & _).
  now rewrite E in Ht.
Qed.

Lemma render_block (r : SiteRule) : render r = block_of r ++ newline.
Proof. unfold render, block_of. now rewrite <- !app_assoc. Qed.

Lemma block_match (r : SiteRule) (rest : str) :
  well_formed r ->
  match_here true pattern (block_of r ++ rest)
  = Some (mkMatch (block_of r)
            [("js"%string, js r); ("css"%string, css r);
             ("domain"%string, domain r)]
            rest).
Proof.
  intros (Hd & _ & Hcss & Hcne & Hjs & Hend & Hnojs & Hend2).
  assert (Hnl : spaces newline) by (repeat constructor).
  destruct (js r) as [|j0 jrest] eqn:Ej.
  - pose proof (full_block_match (lit " ") (domain r) newline newline (css r)
                  newline (newline ++ newline) [] [] rest
                  ltac:(repeat constructor) ltac:(discriminate) Hd Hnl
                  ltac:(discriminate) Hnl Hcss Hcne Hnl ltac:(discriminate)
                  ltac:(repeat constructor) ltac:(constructor)
                  ltac:(now left) ltac:(reflexivity) Hend Hnojs eq_refl) as Hm.
    cbv zeta in Hm. unfold block_of. rewrite Ej.
    etransitivity; [|etransitivity; [exact Hm|]].
    + f_equal; unfold newline; cbn [app]; rewrite <- ?app_assoc; reflexivity.
    + do 2 f_equal; unfold newline; cbn [app]; rewrite <- ?app_assoc;
        reflexivity.
  - rewrite <- Ej in *.
    pose proof (full_block_match (lit " ") (domain r) newline newline (css r)
                  newline newline (js r) newline rest
                  ltac:(repeat constructor) ltac:(discriminate) Hd Hnl
                  ltac:(discriminate) Hnl Hcss Hcne Hnl ltac:(discriminate)
                  Hnl Hnl Hjs ltac:(rewrite Ej; discriminate)
                  Hend Hnojs Hend2) as Hm.
    cbv zeta in Hm. unfold block_of.
    etransitivity; [|etransitivity; [exact Hm|]].
    + f_equal; cbn [app]; rewrite <- ?app_assoc; reflexivity.
    + do 2 f_equal; cbn [app]; rewrite <- ?app_assoc; reflexivity.
Qed.

Lemma rule_of_block (r : SiteRule) (rest : str) :
  well_formed r ->
  rule_of_match
    (mkMatch (block_of r)
       [("js"%string, js r); ("css"%string, css r); ("domain"%string, domain r)]
       rest) = r.
Proof.
  intros (Hd & Hlow & Hcss & _ & Hjs & _).
  unfold rule_of_match, group_or_empty. cbn [bindings].
  change (group "domain" [("js"%string, js r); ("css"%string, css r);
                          ("domain"%string, domain r)])
    with (Some (domain r)).
  change (group "css" [("js"%string, js r); ("css"%string, css r);
                       ("domain"%string, domain r)])
    with (Some (css r)).
  change (group "js" [("js"%string, js r); ("css"%string, css r);
                      ("domain"%string, domain r)])
    with (Some (js r)).
  cbv iota.
  rewrite (strip_trimmed _ (word_trimmed _ Hd)), (strip_trimmed _ Hcss),
    (strip_trimmed _ Hjs), Hlow.
  now destruct r.
Qed.

Lemma finditer_render (rules : list SiteRule) :
  Forall well_formed rules ->
  forall fuel,
    (length (render_all rules) < fuel)%nat ->
    map rule_of_match (finditer_from fuel true pattern (render_all rules))
    = rules.
Proof.
  induction 1 as [|r rules Hr Hrules IH]; intros fuel Hfuel.
  - destruct fuel; [reflexivity|]. reflexivity.
  - unfold render_all in *. cbn [map concat] in *.
    fold (render_all rules) in *.
    rewrite render_block, <- app_assoc in *.
    rewrite !length_app in Hfuel.
    assert (Hlen : (1 <= length (block_of r))%nat) by (cbn; lia).
    change (length newline) with 1%nat in Hfuel.
    destruct fuel as [|[|fuel]]; [lia|lia|].
    cbn [finditer_from]. rewrite (block_match r _ Hr). cbn [matched after].
    change (block_of r) with ("@"%char :: tl (block_of r)) at 1. cbv iota.
    cbn [map]. rewrite (rule_of_block r _ Hr). f_equal.
    unfold newline at 1. cbn [app].
    rewrite (match_here_not_at (ascii_of_N 10) _ eq_refl).
    apply IH. lia.
Qed.

(** Rules written out in the documented layout, one block after the
    other, are read back as they were. *)
Theorem parse_render_round_trip (rules : list SiteRule) :
  Forall well_formed rules ->
  parse_site_rules (render_all rules) = rules.
Proof.
  intros H. unfold parse_site_rules.
  destruct (strip (render_all rules)) eqn:Es.
  - destruct rules as [|r rules]; [reflexivity|]. exfalso. revert Es.
    unfold render_all. cbn [map concat]. unfold render. cbn [lit app].
    apply strip_nonempty. reflexivity.
  - unfold finditer. apply finditer_render; [exact H|lia].
Qed.

Lemma parse_render_round_trip_witness :
  parse_site_rules (render_all two_rules) = two_rules.
Proof.
  apply parse_render_round_trip.
  repeat (apply Forall_cons || apply Forall_nil).
  all: unfold well_formed; cbn [domain css js].
  all: repeat match goal with
              | |- _ /\ _ => split
              | |- trimmed _ => apply stripped_trimmed; reflexivity
              | |- word _ => split; [discriminate|repeat constructor]
              | |- _ <> _ => discriminate
              | |- _ = _ => reflexivity
              end.
Defined.

End RuleTextFacts.

Module NameShapeFacts.
Import Text Regex Naming NameShape TextFacts RegexFacts NamingFacts.

Lemma paired_app_l (p : ascii -> bool) (a b : str) :
  paired p (a ++ b) = false -> paired p a = false.
Proof.
  induction a as [|x a IH]; [reflexivity|]. cbn [app paired].
  destruct a as [|y a].
  - reflexivity.
  - cbn [app]. intros H. apply orb_false_iff in H as [H1 H2].
    rewrite H1. cbn [orb]. apply IH. exact H2.
Qed.

Lemma paired_app_r (p : ascii -> bool) (a b : str) :
  paired p (a ++ b) = false -> paired p b = false.
Proof.
  induction a as [|x a IH]; [auto|]. cbn [app paired].
  destruct (a ++ b) as [|y t] eqn:E.
  - destruct a; [|discriminate E]. cbn in E. now subst b.
  - intros H. apply orb_false_iff in H as [_ H]. apply IH.
    exact H.
Qed.

(** [s.strip(chars)] cuts a text in three. *)
Lemma strip_of_parts (p : ascii -> bool) (s : str) :
  exists lead trail,
    s = lead ++ strip_of p s ++ trail
    /\ match strip_of p s with [] => True | c :: _ => p c = false end
    /\ match rev (strip_of p s) with [] => True | c :: _ => p c = false end.
Proof.
  set (s1 := dropwhile p s).
  exists (takewhile p s), (rev (takewhile p (rev s1))).
  assert (E1 : s1 = strip_of p s ++ rev (takewhile p (rev s1))).
  { unfold strip_of, rstrip_of, lstrip_of. fold s1.
    rewrite <- rev_app_distr, takewhile_dropwhile. now rewrite rev_involutive. }
  split; [rewrite <- E1; symmetry; apply takewhile_dropwhile|].
  assert (Hlast : match rev (strip_of p s) with
                  | [] => True | c :: _ => p c = false end).
  { unfold strip_of, rstrip_of, lstrip_of. fold s1. rewrite rev_involutive.
    destruct (dropwhile p (rev s1)) as [|z t] eqn:Ed; [exact I|].
    revert Ed. clear. generalize (rev s1). intros l.
    induction l as [|a l IH]; cbn; [discriminate|].
    destruct (p a) eqn:Ea; [exact IH|]. now intros [= <- _]. }
  split; [|exact Hlast].
  destruct (strip_of p s) as [|c0 mid] eqn:Es; [exact I|].
  assert (Hhead : forall a t, s1 = a :: t -> p a = false).
  { unfold s1. clear. induction s as [|x s IH]; cbn; [discriminate|].
    destruct (p x) eqn:Ex; [exact IH|]. now intros a t [= <- _]. }
  eapply Hhead. rewrite E1. reflexivity.
Qed.

(** After [re.sub(cls+, r, s)] with [r] in the class, no two neighbours are
    in the class. *)
Lemma sub_run_unpaired (ic : bool) (cls : ascii -> bool) (r : ascii) :
  forall (fuel : nat) (s : str),
    (length s < fuel)%nat ->
    paired cls (sub_from fuel ic (Rep true 1 cls) [r] s) = false
    /\ match s with
       | [] => sub_from fuel ic (Rep true 1 cls) [r] s = []
       | c :: _ => cls c = false ->
                   exists t, sub_from fuel ic (Rep true 1 cls) [r] s = c :: t
       end.
Proof.
  induction fuel as [|fuel IH]; intros s Hlen; [lia|].
  cbn [sub_from]. rewrite match_here_run.
  destruct (takewhile cls s) as [|c run] eqn:E.
  - destruct s as [|c s]; [split; reflexivity|].
    pose proof (takewhile_nil_head _ _ _ E) as Hc.
    destruct (IH s ltac:(cbn in Hlen; lia)) as [Hp Hh].
    split; [|intros _; eauto].
    cbn [paired].
    destruct (sub_from fuel ic (Rep true 1 cls) [r] s) as [|b t] eqn:Eo;
      [reflexivity|].
    now rewrite Hc, Hp.
  - cbn [matched after app].
    assert (Hlen' : (length (dropwhile cls s) < fuel)%nat).
    { pose proof (takewhile_dropwhile cls s) as Es. rewrite E in Es.
      apply (f_equal (@length ascii)) in Es. rewrite length_app in Es.
      cbn in Es. lia. }
    destruct (IH (dropwhile cls s) Hlen') as [Hp Hh].
    split.
    + cbn [paired].
      destruct (dropwhile cls s) as [|d rest] eqn:Ed.
      * now rewrite Hh.
      * assert (Hd : cls d = false).
        { revert Ed. clear. induction s as [|x s IHs]; cbn; [discriminate|].
          destruct (cls x) eqn:Ex; [exact IHs|]. now intros [= <- _]. }
        destruct (Hh Hd) as (t & Et). rewrite Et in *.
        now rewrite Hd, andb_false_r, Hp.
    + destruct s as [|x s]; [discriminate E|].
      intros Hx. cbn in E. rewrite Hx in E. discriminate E.
Qed.

Lemma paired_inside (p : ascii -> bool) (pre post : str) (a b : ascii) :
  paired p (pre ++ a :: b :: post) = false -> p a && p b = false.
Proof.
  intros H. apply paired_app_r in H. cbn [paired] in H.
  now apply orb_false_iff in H as [H _].
Qed.

Lemma sanitize_nonempty (s : str) : sanitize_filename_component s <> [].
Proof.
  unfold sanitize_filename_component. cbv zeta.
  destruct (strip_of underscore _); discriminate.
Qed.

(** The shape of every sanitized name: it is not empty, it holds none of
    the characters of the sanitizer's class, it neither starts nor ends
    with an underscore, and no two underscores follow each other. *)
Theorem sanitize_shape (s : str) :
  sanitize_filename_component s <> []
  /\ legal_name (sanitize_filename_component s)
  /\ (forall t, sanitize_filename_component s <> "_"%char :: t)
  /\ (forall t, sanitize_filename_component s <> t ++ lit "_")
  /\ (forall pre post, sanitize_filename_component s <> pre ++ lit "__" ++ post).
Proof.
  split; [apply sanitize_nonempty|split; [apply sanitize_legal|]].
  unfold sanitize_filename_component. cbv zeta.
    set (X := sub false (Rep true 1 underscore) (lit "_") _).
    assert (HX : paired underscore X = false).
    { unfold X, sub. apply sub_run_unpaired. lia. }
    destruct (strip_of_parts underscore X) as (lead & trail & EX & Hhead & Hlast).
    destruct (strip_of underscore X) as [|c0 m] eqn:Em.
    + cbn [or_else]. repeat split.
      * intros t. discriminate.
      * intros t E. apply (f_equal (@rev ascii)) in E.
        rewrite rev_app_distr in E. discriminate E.
      * intros pre post E.
        assert (H : paired underscore (lit "file") = false) by reflexivity.
        rewrite E in H. apply paired_inside in H. discriminate H.
    + cbn [or_else]. repeat split.
      * intros t [= -> _]. discriminate Hhead.
      * intros t E. rewrite E, rev_app_distr in Hlast. discriminate Hlast.
      * intros pre post E.
        rewrite EX in HX. apply paired_app_r, paired_app_l in HX.
        rewrite E in HX. apply paired_inside in HX. discriminate HX.
Qed.

(** A URL that [urlparse] accepts is named [base.pdf] with a base that is
    not empty and holds no full stop: the suffix is always added, and the
    extension of the page (also [.pdf]) has become part of the base. *)
Theorem url_to_filename_one_stop (ok : str -> bool) (url : str)
  (parsed : ParseResult) :
  urlparse ok url = Ret parsed ->
  exists base,
    url_to_filename ok url = Ret (base ++ lit ".pdf")
    /\ base <> [] /\ no_stop base /\ legal_name base.
Proof.
  intros E. unfold url_to_filename. rewrite E. cbn [obind].
  unfold filename_of. cbv zeta.
  pose proof (base_no_stop (netloc parsed) (path parsed)) as Hb. cbv zeta in Hb.
  set (base := sanitize_filename_component _) in *.
  rewrite (no_stop_not_pdf _ Hb).
  exists base. split; [reflexivity|].
  split; [apply sanitize_nonempty|]. split; [exact Hb|apply sanitize_legal].
Qed.

Lemma url_to_filename_one_stop_witness :
  exists base,
    url_to_filename any_bracketed_host (lit "https://example.com/docs/report.pdf")
    = Ret (base ++ lit ".pdf")
    /\ base <> [] /\ no_stop base /\ legal_name base.
Proof.
  exact (url_to_filename_one_stop any_bracketed_host
           (lit "https://example.com/docs/report.pdf")
           (mkParse (lit "https") (lit "example.com")
              (lit "/docs/report.pdf") [] [] [])
           ltac:(vm_compute; reflexivity)).
Defined.

(** *** Names that need no cleaning *)

Lemma sub_run_id (ic : bool) (cls : ascii -> bool) (repl : str) :
  forall (fuel : nat) (s : str),
    Forall (fun c => cls c = false) s ->
    sub_from fuel ic (Rep true 1 cls) repl s = s.
Proof.
  induction fuel as [|fuel IH]; intros s Hs; [reflexivity|].
  cbn [sub_from]. rewrite match_here_run.
  destruct Hs as [|c s Hc Hs]; [reflexivity|].
  cbn [takewhile]. rewrite Hc. now rewrite IH.
Qed.

Lemma dropwhile_id (p : ascii -> bool) (s : str) :
  Forall (fun c => p c = false) s -> dropwhile p s = s.
Proof. intros [|c s' Hc _]; cbn; [reflexivity|now rewrite Hc]. Qed.

Lemma strip_of_id (p : ascii -> bool) (s : str) :
  Forall (fun c => p c = false) s -> strip_of p s = s.
Proof.
  intros H. unfold strip_of, rstrip_of, lstrip_of.
  rewrite (dropwhile_id p s H), (dropwhile_id p (rev s)) by now apply Forall_rev.
  apply rev_involutive.
Qed.

(** A name that is not empty, has no white space at either end and holds
    neither a character of the sanitizer's class nor an underscore is
    kept as it is. *)
Theorem sanitize_keeps_plain (s : str) :
  s <> [] -> strip s = s -> Forall (fun c => plain c = true) s ->
  sanitize_filename_component s = s.
Proof.
  intros Hne Hs Hp. unfold sanitize_filename_component. cbv zeta.
  assert (Hi : Forall (fun c => illegal c = false) s).
  { eapply Forall_impl; [|exact Hp]. intros c H. unfold plain in H.
    apply andb_true_iff in H as [H _]. now apply negb_true_iff in H. }
  assert (Hu : Forall (fun c => underscore c = false) s).
  { eapply Forall_impl; [|exact Hp]. intros c H. unfold plain in H.
    apply andb_true_iff in H as [_ H]. now apply negb_true_iff in H. }
  rewrite Hs. unfold sub. rewrite (sub_run_id _ _ _ _ s Hi).
  rewrite (sub_run_id _ _ _ _ s Hu), (strip_of_id _ s Hu).
  now destruct s.
Qed.

Lemma sanitize_keeps_plain_witness :
  sanitize_filename_component (lit "report 2024-final.v2")
  = lit "report 2024-final.v2".
Proof.
  apply sanitize_keeps_plain;
    [discriminate|reflexivity|repeat constructor].
Defined.

(** The timestamped name is built for every URL string, also one that
    [urlparse] refuses; with a time stamp free of the characters of the
    sanitizer's class it holds none of them and ends with [.pdf]. *)
Theorem default_timestamped_name_ok (ts url : str) :
  legal_name ts ->
  legal_name (default_timestamped_name ts url)
  /\ endswith (lit ".pdf") (default_timestamped_name ts url) = true
  /\ exists base,
       base <> []
       /\ default_timestamped_name ts url = base ++ lit "_" ++ ts ++ lit ".pdf".
Proof.
  intros Hts. unfold default_timestamped_name. split; [|split].
  - apply Forall_app. split; [apply sanitize_legal|].
    apply Forall_app. split; [repeat constructor|].
    apply Forall_app. split; [exact Hts|repeat constructor].
  - rewrite !app_assoc. apply endswith_app.
  - exists (sanitize_filename_component url).
    split; [apply sanitize_nonempty|reflexivity].
Qed.

Lemma default_timestamped_name_ok_witness :
  legal_name (default_timestamped_name (lit "20250101_000000") (lit "http://["))
  /\ default_timestamped_name (lit "20250101_000000") (lit "http://[")
     = lit "http_[_20250101_000000.pdf".
Proof.
  split; [|vm_compute; reflexivity].
  exact (proj1 (default_timestamped_name_ok (lit "20250101_000000")
                  (lit "http://[") ltac:(repeat constructor))).
Defined.

End NameShapeFacts.

Module VerdictFacts.
Import Text Captcha CaptchaFacts.

(** The verdict of [detect_captcha], whatever [page.evaluate] gave:
    nothing is found exactly when no signal was collected, the provider is
    "unknown" exactly when nothing is found, and it is always one of the
    five names. *)
Theorem detection_verdict (e : Evaluation) :
  (found (detect_captcha e) = false <-> signals (detect_captcha e) = [])
  /\ (provider (detect_captcha e) = lit "unknown"
      <-> found (detect_captcha e) = false)
  /\ In (provider (detect_captcha e))
        [lit "cloudflare"; lit "recaptcha"; lit "hcaptcha"; lit "generic";
         lit "unknown"].
Proof.
  destruct e as [d|]; cbn [detect_captcha].
  - cbn [classify found provider signals].
    destruct (collect_signals d) as [|s l] eqn:E.
    + cbn. repeat split; auto 10.
    + cbn [length Nat.ltb Nat.leb].
      destruct (some_includes (lit "cloudflare") (s :: l));
        [repeat split; intros; try discriminate; cbn; auto 10|].
      destruct (some_includes (lit "recaptcha") (s :: l));
        [repeat split; intros; try discriminate; cbn; auto 10|].
      destruct (some_includes (lit "hcaptcha") (s :: l));
        repeat split; intros; try discriminate; cbn; auto 10.
  - cbn. repeat split; auto 10.
Qed.

(** The provider of a page, read off the three provider conditions of the
    script (a selector of the provider, or its name in the body text):
    Cloudflare goes before reCAPTCHA, reCAPTCHA before hCaptcha, and
    "generic" is the verdict when only texts or titles gave a signal. *)
Theorem provider_table (d : Document) :
  (provider (detect_captcha (Evaluated d)) = lit "cloudflare"
   <-> cloudflare_marks (querySelector d) (lower (body_text d)) = true)
  /\ (provider (detect_captcha (Evaluated d)) = lit "recaptcha"
      <-> cloudflare_marks (querySelector d) (lower (body_text d)) = false
          /\ recaptcha_marks (querySelector d) (lower (body_text d)) = true)
  /\ (provider (detect_captcha (Evaluated d)) = lit "hcaptcha"
      <-> cloudflare_marks (querySelector d) (lower (body_text d)) = false
          /\ recaptcha_marks (querySelector d) (lower (body_text d)) = false
          /\ hcaptcha_marks (querySelector d) (lower (body_text d)) = true)
  /\ (provider (detect_captcha (Evaluated d)) = lit "generic"
      <-> cloudflare_marks (querySelector d) (lower (body_text d)) = false
          /\ recaptcha_marks (querySelector d) (lower (body_text d)) = false
          /\ hcaptcha_marks (querySelector d) (lower (body_text d)) = false
          /\ found (detect_captcha (Evaluated d)) = true).
Proof.
  cbn [detect_captcha].
  destruct (provider_words d) as (W1 & W2 & W3). cbv zeta in *.
  rewrite <- W1, <- W2, <- W3. cbn [classify provider found signals].
  destruct (some_includes (lit "cloudflare") (collect_signals d));
    destruct (some_includes (lit "recaptcha") (collect_signals d));
    destruct (some_includes (lit "hcaptcha") (collect_signals d));
    destruct (0 <? length (collect_signals d))%nat;
    repeat split; intros; try discriminate; try reflexivity;
    repeat match goal with H : _ /\ _ |- _ => destruct H end;
    try discriminate.
Qed.

End VerdictFacts.

Module BandsFacts.
Import Raster Bands RasterFacts.
Local Open Scope Z_scope.

Lemma slice_step_draw (img : Image) (g : Layout) (y : Z) (c : Canvas) :
  pending c = [] ->
  exists d,
    snd (slice_step img g y c)
      = mkCanvas (pagesize c) [] (emitted c ++ [mkPage (pagesize c) [d]])
    /\ drawn d = crop img (0, y, width_px img, next_top img g y)
    /\ placed g d.
Proof.
  intros Hp. unfold slice_step, showPage, drawImage.
  cbn -[crop csspx_to_pdfpt]. rewrite Hp. eexists.
  split; [reflexivity|]. split; [reflexivity|].
  repeat split.
Qed.

(** The pages the loop adds from row [y] on: page [j] shows the rows from
    [y + j * B]. *)
Lemma slice_loop_bands (fuel : nat) (img : Image) (g : Layout) :
  1 <= native_px_per_page g ->
  forall (y : Z) (c : Canvas),
    y <= height_px img ->
    (Z.to_nat (height_px img - y) <= fuel)%nat ->
    pending c = [] ->
    exists new,
      slice_loop fuel img g y c = Some (mkCanvas (pagesize c) [] (emitted c ++ new))
      /\ forall (j : nat) (p : Page),
           nth_error new j = Some p ->
           exists d,
             page_content p = [d]
             /\ drawn d
                = crop img (0, y + Z.of_nat j * native_px_per_page g,
                            width_px img,
                            Z.min (height_px img)
                              (y + (Z.of_nat j + 1) * native_px_per_page g))
             /\ placed g d.
Proof.
  intros HB. set (H := height_px img). set (B := native_px_per_page g) in *.
  induction fuel as [|fuel IH]; intros y c Hy Hfuel Hp.
  - assert (y = H) by lia. subst y. cbn. rewrite Z.ltb_irrefl.
    exists []. rewrite app_nil_r. destruct c; cbn in *; subst.
    split; [reflexivity|]. intros [|j] p; discriminate.
  - cbn [slice_loop]. fold H. destruct (Z.ltb_spec y H) as [Hlt|Hge].
    + destruct (slice_step img g y c) as [y' c'] eqn:E.
      pose proof (slice_step_top img g y c) as Ey.
      destruct (slice_step_draw img g y c Hp) as (d & Ec & Ed & Hpl).
      rewrite E in Ey, Ec. cbn in Ey, Ec. subst y' c'.
      unfold next_top in *. fold H B in Ed |- *.
      destruct (IH (Z.min H (y + B))
                   (mkCanvas (pagesize c) [] (emitted c ++ [mkPage (pagesize c) [d]])))
        as (new & Erun & Hnew); [lia|lia|reflexivity|].
      cbn [pagesize emitted] in *.
      exists (mkPage (pagesize c) [d] :: new).
      split; [rewrite Erun, <- app_assoc; reflexivity|].
      intros [|j] p Hj.
      * cbn in Hj. injection Hj as <-. exists d. split; [reflexivity|].
        split; [|exact Hpl]. rewrite Ed. cbn [Z.of_nat].
        replace (y + 0 * B) with y by lia.
        replace (y + (0 + 1) * B) with (y + B) by lia. reflexivity.
      * cbn [nth_error] in Hj. destruct (Hnew j p Hj) as (d' & Hc & Hd & Hpl').
        exists d'. split; [exact Hc|]. split; [|exact Hpl'].
        rewrite Hd.
        assert (Hfull : Z.min H (y + B) = y + B).
        { destruct (Z.le_ge_cases H (y + B)) as [Hle|]; [|lia].
          exfalso. rewrite Z.min_l in Erun by lia.
          destruct fuel; cbn [slice_loop] in Erun;
            rewrite Z.ltb_irrefl in Erun; injection Erun as Erun;
            apply (f_equal (@length Page)) in Erun;
            rewrite !length_app in Erun; cbn in Erun;
            assert (Hlen : (j < length new)%nat)
              by (apply nth_error_Some; congruence); lia. }
        rewrite Hfull, Nat2Z.inj_succ. unfold Z.succ.
        replace (y + B + Z.of_nat j * B) with (y + (Z.of_nat j + 1) * B) by lia.
        replace (y + B + (Z.of_nat j + 1) * B)
          with (y + (Z.of_nat j + 1 + 1) * B) by lia.
        reflexivity.
    + assert (y = H) by lia. subst y.
      exists []. rewrite app_nil_r. destruct c; cbn in *; subst.
      split; [reflexivity|]. intros [|j] p; discriminate.
Qed.

(** Paginated mode, page by page: page [i] (from 0) holds exactly one
    image, the rows [i * B .. min (H, (i + 1) * B)) of the bitmap at full
    width, drawn from the left margin over the whole content width and
    hanging from the top margin. *)
Theorem paginated_bands (img : Image) (margin_in : float) (g : Layout)
    (fuel : nat) :
  0 <= height_px img ->
  layout (width_px img) margin_in = Ret g ->
  (Z.to_nat (height_px img) <= fuel)%nat ->
  exists pages,
    screenshot_to_paginated_letter_pdf fuel img margin_in = Some (Ret pages)
    /\ forall (i : nat) (p : Page),
         nth_error pages i = Some p ->
         exists d,
           page_content p = [d]
           /\ drawn d = band_of img (native_px_per_page g) i
           /\ placed g d.
Proof.
  intros HH Hg Hfuel. unfold screenshot_to_paginated_letter_pdf. rewrite Hg.
  destruct (slice_loop_bands fuel img g (layout_band_positive _ _ _ Hg) 0
              (new_canvas letter)) as (new & Erun & Hnew).
  - exact HH.
  - rewrite Z.sub_0_r. exact Hfuel.
  - reflexivity.
  - rewrite Erun. cbn. exists new. split; [reflexivity|].
    intros i p Hi. destruct (Hnew i p Hi) as (d & Hc & Hd & Hpl).
    exists d. split; [exact Hc|]. split; [|exact Hpl].
    rewrite Hd. unfold band_of. reflexivity.
Qed.

(** The 1366 x 5000 px bitmap: the third page shows rows 3642 to 5000. *)
Lemma paginated_bands_witness :
  exists pages p d,
    screenshot_to_paginated_letter_pdf 5000 tall_screenshot default_margin_in
      = Some (Ret pages)
    /\ nth_error pages 2 = Some p
    /\ page_content p = [d]
    /\ drawn d = crop tall_screenshot (0, 3642, 1366, 5000).
Proof.
  destruct tall_layout as [g|e] eqn:Eg; [|discriminate Eg].
  assert (Hg : layout (width_px tall_screenshot) default_margin_in = Ret g)
    by (rewrite <- Eg; exact tall_layout_eq).
  assert (HB : native_px_per_page g = 1821)
    by (vm_compute in Eg; injection Eg as <-; reflexivity).
  destruct (paginated_bands tall_screenshot default_margin_in g 5000)
    as (pages & Erun & Hpages); [cbn; lia|exact Hg|cbn; lia|].
  destruct (paginated_shape tall_screenshot default_margin_in g 5000)
    as (pages' & Erun' & Elen & _); [cbn; lia|exact Hg|cbn; lia|].
  rewrite Erun in Erun'. injection Erun' as <-.
  rewrite HB in Elen. change (ceil_div (height_px tall_screenshot) 1821) with 3 in Elen.
  destruct pages as [|p0 [|p1 [|p2 rest]]]; cbn in Elen; try lia.
  destruct (Hpages 2%nat p2 eq_refl) as (d & Hc & Hd & _).
  exists (p0 :: p1 :: p2 :: rest), p2, d.
  split; [exact Erun|]. split; [reflexivity|]. split; [exact Hc|].
  rewrite Hd. unfold band_of. rewrite HB. reflexivity.
Defined.

(** With the default margin and a bitmap 1 to 4096 px wide, the layout is
    computed without an exception and a page shows [4 * width / 3] rows of
    the bitmap (integer division), or one row less. *)
Theorem band_height_upto_4096 (w : Z) :
  1 <= w <= 4096 ->
  exists g,
    layout w default_margin_in = Ret g
    /\ 4 * w / 3 - 1 <= native_px_per_page g <= 4 * w / 3.
Proof.
  intros Hw.
  assert (Hall : forallb (fun n => band_height_near (Z.of_nat n)) (seq 1 4096) = true)
    by (vm_compute; reflexivity).
  rewrite forallb_forall in Hall.
  specialize (Hall (Z.to_nat w)).
  rewrite Z2Nat.id in Hall by lia.
  assert (Hin : In (Z.to_nat w) (seq 1 4096)) by (apply in_seq; lia).
  specialize (Hall Hin). unfold band_height_near in Hall.
  destruct (layout w default_margin_in) as [g|e]; [|discriminate].
  exists g. split; [reflexivity|].
  apply andb_true_iff in Hall. destruct Hall as [H1 H2].
  apply Z.leb_le in H1, H2. lia.
Qed.

(** A 1366 px wide bitmap: 1821 rows a page, the integer quotient of
    [4 * 1366] by 3. *)
Lemma band_height_upto_4096_witness :
  exists g,
    layout 1366 default_margin_in = Ret g
    /\ 4 * 1366 / 3 - 1 <= native_px_per_page g <= 4 * 1366 / 3.
Proof. apply (band_height_upto_4096 1366). lia. Defined.

End BandsFacts.

Module PrepareFacts.
Import Text Prepare.
Local Open Scope Z_scope.

(** *** Histories *)

Lemma count_app_events (p : Event -> bool) (a b : History) :
  count p (a ++ b) = (count p a + count p b)%nat.
Proof. induction a as [|e a IH]; cbn; [reflexivity|]. rewrite IH. lia. Qed.

Lemma slept_app (a b : History) : slept (a ++ b) = slept a + slept b.
Proof.
  induction a as [|e a IH]; cbn; [reflexivity|].
  destruct e as [[] ?|]; rewrite ?IH; lia.
Qed.

Lemma clicks_follow_visible_app (a b : History) :
  clicks_follow_visible a = true ->
  clicks_follow_visible b = true ->
  clicks_follow_visible (a ++ b) = true.
Proof.
  intros Ha Hb. induction a as [|e a IH]; [exact Hb|].
  cbn [app]. destruct e as [c ans|l]; cbn [clicks_follow_visible] in *;
    [|now apply IH].
  destruct c; try (now apply IH).
  apply andb_true_iff in Ha. destruct Ha as [Hhead Ha].
  apply andb_true_iff. split; [|now apply IH].
  destruct a as [|e' a']; [discriminate Hhead|exact Hhead].
Qed.

Lemma wait_failed_app (e : Capture.Error) (a b : History) :
  wait_failed e a -> wait_failed e (a ++ b).
Proof. intros (ms & rest & ->). exists ms, (rest ++ b). reflexivity. Qed.

(** *** Running the monad *)

Section Runs.

Variable w : World.

Lemma bind_returns {A B : Type} (m : M A) (k : A -> M B) (h h' : History)
    (b : B) :
  bind m k h = (h', Returns b) ->
  exists h1 a, m h = (h1, Returns a) /\ k a h1 = (h', Returns b).
Proof.
  unfold bind. destruct (m h) as [h1 [a|e|]]; intros E; try discriminate.
  exists h1, a. split; [reflexivity|exact E].
Qed.

Lemma sat_ret {A : Type} (a : A) (P : History -> Res A -> Prop) :
  P [] (Returns a) -> sat (ret a) P.
Proof. intros HP h0. exists [], (Returns a). split; [reflexivity|exact HP]. Qed.

Lemma sat_log (l : LogLine) (P : History -> Res unit -> Prop) :
  P [Logged l] (Returns tt) -> sat (log l) P.
Proof. intros HP h0. exists [Logged l], (Returns tt). split; [reflexivity|exact HP]. Qed.

Lemma sat_call (c : Call) (P : History -> Res Z -> Prop) :
  (forall v, P [Called c (Gives v)] (Returns v)) ->
  (forall e, P [Called c (Fails e)] (Raised e)) ->
  sat (call w c) P.
Proof.
  intros Hv He h0. unfold call. destruct (w h0 c) as [v|e].
  - exists [Called c (Gives v)], (Returns v). split; [reflexivity|apply Hv].
  - exists [Called c (Fails e)], (Raised e). split; [reflexivity|apply He].
Qed.

Lemma sat_bind {A B : Type} (m : M A) (k : A -> M B)
    (P : History -> Res A -> Prop) (Q : A -> History -> Res B -> Prop)
    (R : History -> Res B -> Prop) :
  sat m P ->
  (forall a, sat (k a) (Q a)) ->
  (forall n1 a n2 r, P n1 (Returns a) -> Q a n2 r -> R (n2 ++ n1) r) ->
  (forall n e, P n (Raised e) -> R n (Raised e)) ->
  (forall n, P n Unfinished -> R n Unfinished) ->
  sat (bind m k) R.
Proof.
  intros Hm Hk Hseq Hraise Hout h0. unfold bind.
  destruct (Hm h0) as (n1 & r1 & E1 & HP). rewrite E1.
  destruct r1 as [a|e|].
  - destruct (Hk a (n1 ++ h0)) as (n2 & r2 & E2 & HQ). rewrite E2.
    exists (n2 ++ n1), r2. rewrite <- app_assoc. split; [reflexivity|].
    now apply (Hseq n1 a).
  - exists n1, (Raised e). split; [reflexivity|now apply Hraise].
  - exists n1, Unfinished. split; [reflexivity|now apply Hout].
Qed.

Lemma sat_try {A : Type} (m : M A) (handler : Capture.Error -> M A)
    (P : History -> Res A -> Prop) (Q : Capture.Error -> History -> Res A -> Prop)
    (R : History -> Res A -> Prop) :
  sat m P ->
  (forall e, sat (handler e) (Q e)) ->
  (forall n1 e n2 r, P n1 (Raised e) -> Q e n2 r -> R (n2 ++ n1) r) ->
  (forall n a, P n (Returns a) -> R n (Returns a)) ->
  (forall n, P n Unfinished -> R n Unfinished) ->
  sat (try_except m handler) R.
Proof.
  intros Hm Hh Hseq Hret Hout h0. unfold try_except.
  destruct (Hm h0) as (n1 & r1 & E1 & HP). rewrite E1.
  destruct r1 as [a|e|].
  - exists n1, (Returns a). split; [reflexivity|now apply Hret].
  - destruct (Hh e (n1 ++ h0)) as (n2 & r2 & E2 & HQ). rewrite E2.
    exists (n2 ++ n1), r2. rewrite <- app_assoc. split; [reflexivity|].
    now apply (Hseq n1 e).
  - exists n1, Unfinished. split; [reflexivity|now apply Hout].
Qed.

Lemma sat_weaken {A : Type} (m : M A) (P Q : History -> Res A -> Prop) :
  sat m P -> (forall n r, P n r -> Q n r) -> sat m Q.
Proof.
  intros Hm HPQ h0. destruct (Hm h0) as (n & r & E & HP).
  exists n, r. split; [exact E|now apply HPQ].
Qed.

Lemma call_run (c : Call) (h : History) :
  call w c h
  = (Called c (w h c) :: h,
     match w h c with Gives v => Returns v | Fails e => Raised e end).
Proof. unfold call. destruct (w h c); reflexivity. Qed.

Lemma attempt_call_run (c : Call) (h : History) :
  attempt (call w c) h
  = (Called c (w h c) :: h,
     Returns (match w h c with Gives v => Some v | Fails _ => None end)).
Proof.
  unfold attempt, try_except, bind, call, ret. destruct (w h c); reflexivity.
Qed.

(** One call of the program text, answered. *)
Ltac answer :=
  first [ rewrite attempt_call_run | rewrite call_run ];
  match goal with
  | |- context [w ?h ?c] =>
      let v := fresh "v" in let e := fresh "e" in
      destruct (w h c) as [v|e]
  end;
  cbv beta iota zeta.

(** *** The loop of [gentle_autoscroll] *)

Lemma rounds_step (stall_ms max_ms elapsed : Z) :
  1 <= stall_ms -> elapsed < max_ms ->
  rounds stall_ms (max_ms - elapsed)
  = S (rounds stall_ms (max_ms - (elapsed + stall_ms))).
Proof.
  intros Hs He. unfold rounds.
  replace (max_ms - elapsed + stall_ms - 1)
    with (max_ms - (elapsed + stall_ms) + stall_ms - 1 + 1 * stall_ms) by lia.
  rewrite Z.div_add by lia.
  rewrite Z2Nat.inj_add; [change (Z.to_nat 1) with 1%nat; lia| |lia].
  apply Z.div_pos; lia.
Qed.

Section Scroll.

Variables step stall_ms max_ms : Z.

Ltac shape_leaf :=
  split;
  [ cbn; rewrite ?Z.eqb_refl, ?orb_true_r; reflexivity
  | intros ? [=]; subst; eexists _, _; reflexivity ].

Ltac bound_leaf :=
  let Hs := fresh "Hs" in let Hf := fresh "Hf" in
  intros Hs Hf; unfold scroll_bound;
  try match goal with
  | Hlt : ?el < max_ms |- _ =>
      rewrite (rounds_step stall_ms max_ms el Hs Hlt) in *;
      rewrite Nat2Z.inj_succ, Z.mul_succ_l
  end;
  match goal with
  | |- context [Z.of_nat ?k * stall_ms] =>
      assert (0 <= Z.of_nat k * stall_ms) by (apply Z.mul_nonneg_nonneg; lia)
  end;
  split; [discriminate || lia|]; cbn [slept count scrolls Nat.add]; lia.

Ltac loop_leaf :=
  split; [reflexivity|];
  split; [shape_leaf|]; split; [reflexivity|]; bound_leaf.

Lemma scroll_loop_spec (fuel : nat) :
  forall (last_h : option Z) (elapsed : Z),
    sat (scroll_loop w fuel step stall_ms max_ms last_h elapsed)
        (loop_spec step stall_ms max_ms fuel elapsed).
Proof.
  induction fuel as [|fuel IH]; intros last_h elapsed h0; cbn [scroll_loop].
  - destruct (Z.ltb_spec elapsed max_ms) as [Hlt|Hge].
    + exists [], Unfinished. loop_leaf.
    + exists [], (Returns tt). loop_leaf.
  - destruct (Z.ltb_spec elapsed max_ms) as [Hlt|Hge];
      [|exists [], (Returns tt); loop_leaf].
    unfold bind at 1. answer.
    2:{ eexists [_], _. loop_leaf. }
    unfold bind at 1. answer.
    2:{ eexists [_; _], _. loop_leaf. }
    unfold bind at 1. answer.
    2:{ eexists [_; _; _], _. loop_leaf. }
    destruct (match last_h with Some l => v1 <=? l | None => false end).
    + unfold bind at 1. answer.
      * eexists [_; _; _; _], _. loop_leaf.
      * eexists [_; _; _; _], _. loop_leaf.
    + match goal with
      | |- context [scroll_loop w fuel step stall_ms max_ms ?l ?el ?h] =>
          destruct (IH l el h) as (new & r & E & [Hall Hraise] & Htop & Hbound)
      end.
      exists (new ++ [Called ScrollHeight (Gives v1);
                      Called (WaitForTimeout stall_ms) (Gives v0);
                      Called (ScrollBy step) (Gives v)]), r.
      split; [rewrite <- app_assoc; exact E|].
      split; [split|split].
      * rewrite forallb_app, Hall. cbn.
        rewrite ?Z.eqb_refl, ?orb_true_r. reflexivity.
      * intros e Hr. apply wait_failed_app. now apply Hraise.
      * rewrite count_app_events, Htop. reflexivity.
      * intros Hs Hf.
        rewrite (rounds_step stall_ms max_ms elapsed Hs Hlt) in *.
        destruct Hbound as (Hfin & Hcount & Hslept); [exact Hs|lia|].
        split; [exact Hfin|].
        rewrite count_app_events, slept_app, Nat2Z.inj_succ, Z.mul_succ_l.
        cbn [slept count scrolls Nat.add]. split; lia.
Qed.

Lemma swallow_call_run (c : Call) (h : History) :
  swallow (bind (call w c) (fun _ => ret tt)) h
  = (Called c (w h c) :: h, Returns tt).
Proof.
  unfold swallow, try_except, bind, call, ret. destruct (w h c); reflexivity.
Qed.

Lemma gentle_autoscroll_spec (fuel : nat) :
  sat (gentle_autoscroll w fuel step stall_ms max_ms)
      (fun new r =>
         forallb (scroll_event step stall_ms) new = true
         /\ back_at_top new r
         /\ (1 <= stall_ms ->
             (rounds stall_ms max_ms <= fuel)%nat ->
             scroll_bound stall_ms (rounds stall_ms max_ms) new r)).
Proof.
  intros h0. unfold gentle_autoscroll. unfold bind at 1.
  rewrite attempt_call_run. cbv beta iota zeta.
  set (first := Called ScrollHeight (w h0 ScrollHeight)).
  unfold bind at 1.
  match goal with
  | |- context [scroll_loop w fuel step stall_ms max_ms ?l 0 ?h] =>
      destruct (scroll_loop_spec fuel l 0 h)
        as (new & r & E & [Hall Hraise] & Htop & Hbound)
  end.
  rewrite Z.sub_0_r in Hbound.
  rewrite E.
  assert (Hfirst : forallb (scroll_event step stall_ms) (new ++ [first]) = true)
    by (rewrite forallb_app, Hall; reflexivity).
  assert (Htop' : count to_top (new ++ [first]) = O)
    by (rewrite count_app_events, Htop; reflexivity).
  destruct r as [[]|e|].
  - rewrite swallow_call_run.
    exists (Called ScrollToTop (w (new ++ first :: h0) ScrollToTop)
              :: new ++ [first]), (Returns tt).
    split; [cbn [app]; rewrite <- app_assoc; reflexivity|].
    split; [cbn [forallb scroll_event]; exact Hfirst|].
    split; [eexists _, _; split; [reflexivity|exact Htop']|].
    intros Hs Hf. destruct (Hbound Hs Hf) as (_ & Hcount & Hslept).
    split; [discriminate|]. subst first. cbn [count scrolls slept Nat.add].
    rewrite count_app_events, slept_app. cbn [count scrolls slept Nat.add].
    lia.
  - exists (new ++ [first]), (Raised e).
    split; [rewrite <- app_assoc; reflexivity|].
    split; [exact Hfirst|].
    split; [split; [apply wait_failed_app; now apply Hraise|exact Htop']|].
    intros Hs Hf. destruct (Hbound Hs Hf) as (_ & Hcount & Hslept).
    split; [discriminate|]. subst first.
    rewrite count_app_events, slept_app. cbn [count scrolls slept Nat.add].
    lia.
  - exists (new ++ [first]), Unfinished.
    split; [rewrite <- app_assoc; reflexivity|].
    split; [exact Hfirst|]. split; [exact Htop'|].
    intros Hs Hf. destruct (Hbound Hs Hf) as (Hfin & _). now elim Hfin.
Qed.

End Scroll.

(** *** Runs within the options *)

Section Tidy.

Variable opts : CaptureOptions.

Lemma ends_app (pol : Policy) {A : Type} (n2 n1 : History) (r : Res A) :
  ends pol n2 r -> ends pol (n2 ++ n1) r.
Proof.
  destruct r as [a|e|]; cbn; try trivial.
  destruct pol; try trivial. apply wait_failed_app.
Qed.

Lemma tidy_app (pol : Policy) (a b c a' b' c' : nat) {A B : Type}
    (n1 n2 : History) (x : A) (r : Res B) :
  tidy opts pol a b c n1 (Returns x) ->
  tidy opts pol a' b' c' n2 r ->
  tidy opts pol (a + a') (b + b') (c + c') (n2 ++ n1) r.
Proof.
  intros (H1 & H2 & H3 & H4 & H5 & _) (K1 & K2 & K3 & K4 & K5 & K6).
  unfold tidy. rewrite forallb_app, H1, K1, !count_app_events.
  split; [reflexivity|]. split; [now apply clicks_follow_visible_app|].
  split; [lia|]. split; [lia|]. split; [lia|]. now apply ends_app.
Qed.

Lemma tidy_bind (pol : Policy) (a b c a' b' c' : nat) {A B : Type}
    (m : M A) (k : A -> M B) :
  sat m (tidy opts pol a b c) ->
  (forall x, sat (k x) (tidy opts pol a' b' c')) ->
  sat (bind m k) (tidy opts pol (a + a') (b + b') (c + c')).
Proof.
  intros Hm Hk. apply (sat_bind m k _ _ _ Hm Hk).
  - intros n1 x n2 r. apply tidy_app.
  - intros n e (H1 & H2 & H3 & H4 & H5 & H6).
    repeat split; try assumption; lia.
  - intros n (_ & _ & _ & _ & _ & []).
Qed.

Lemma tidy_try (pol : Policy) (a b c a' b' c' : nat) {A : Type}
    (m : M A) (handler : Capture.Error -> M A) :
  sat m (tidy opts AnyRaise a b c) ->
  (forall e, sat (handler e) (tidy opts pol a' b' c')) ->
  sat (try_except m handler) (tidy opts pol (a + a') (b + b') (c + c')).
Proof.
  intros Hm Hh. apply (sat_try m handler _ _ _ Hm Hh).
  - intros n1 e n2 r (H1 & H2 & H3 & H4 & H5 & _)
      (K1 & K2 & K3 & K4 & K5 & K6).
    unfold tidy. rewrite forallb_app, H1, K1, !count_app_events.
    split; [reflexivity|]. split; [now apply clicks_follow_visible_app|].
    split; [lia|]. split; [lia|]. split; [lia|]. now apply ends_app.
  - intros n x (H1 & H2 & H3 & H4 & H5 & _).
    repeat split; try assumption; lia.
  - intros n (_ & _ & _ & _ & _ & []).
Qed.

Lemma tidy_ret (pol : Policy) {A : Type} (x : A) :
  sat (ret x) (tidy opts pol 0 0 0).
Proof. apply sat_ret. repeat split; cbn; lia. Qed.

Lemma tidy_log (pol : Policy) (l : LogLine) :
  sat (log l) (tidy opts pol 0 0 0).
Proof. apply sat_log. repeat split; cbn; lia. Qed.

Lemma tidy_swallow (pol : Policy) (a b c : nat) (m : M unit) :
  sat m (tidy opts AnyRaise a b c) ->
  sat (swallow m) (tidy opts pol a b c).
Proof.
  intros Hm. unfold swallow.
  eapply sat_weaken;
    [exact (tidy_try pol a b c 0 0 0 m _ Hm (fun _ => tidy_ret pol tt))|].
  intros n r (H1 & H2 & H3 & H4 & H5 & H6). repeat split; try assumption; lia.
Qed.

Lemma tidy_relax (pol : Policy) (a b c a' b' c' : nat) {A : Type} (m : M A) :
  sat m (tidy opts NoRaise a b c) ->
  (a <= a')%nat -> (b <= b')%nat -> (c <= c')%nat ->
  sat m (tidy opts pol a' b' c').
Proof.
  intros Hm Ha Hb Hc. eapply sat_weaken; [exact Hm|].
  intros n r (H1 & H2 & H3 & H4 & H5 & H6).
  repeat split; try assumption; try lia.
  destruct r; cbn in *; try trivial. contradiction.
Qed.

(** A call other than a click, which the options allow. *)
Lemma tidy_call (c : Call) :
  (forall a, allowed opts (Called c a) = true) ->
  match c with Click _ _ => False | _ => True end ->
  sat (call w c)
      (tidy opts AnyRaise (count scrolls [Called c (Gives 0)])
                          (count styles [Called c (Gives 0)])
                          (count scripts [Called c (Gives 0)])).
Proof.
  intros Hall Hc.
  apply sat_call; intros x;
    (repeat split;
     [ cbn [forallb]; rewrite Hall; reflexivity
     | destruct c; try reflexivity; contradiction
     | destruct c; cbn; lia .. ]).
Qed.

Lemma tidy_wait (ms : Z) :
  (forall a, allowed opts (Called (WaitForTimeout ms) a) = true) ->
  sat (call w (WaitForTimeout ms)) (tidy opts WaitRaise 0 0 0).
Proof.
  intros Hall.
  apply sat_call; intros x;
    (split; [cbn [forallb]; rewrite Hall; reflexivity|]);
    (split; [reflexivity|]); cbn [count scrolls styles scripts];
    (repeat split; try lia); eexists _, _; reflexivity.
Qed.

(** *** The cookie helper *)

Ltac give_events :=
  first [ eexists [], _; split; [reflexivity|]
        | eexists [_], _; split; [reflexivity|]
        | eexists [_; _], _; split; [reflexivity|]
        | eexists [_; _; _], _; split; [reflexivity|]
        | eexists [_; _; _; _], _; split; [reflexivity|] ].

Lemma press_spec (xp : str) (i : nat) :
  hide_cookie_banners opts = true ->
  existsb (str_eqb xp) BUTTON_XPATHS = true ->
  sat (press w xp i) (tidy opts NoRaise 0 0 0).
Proof.
  intros Hhide Hxp h0.
  assert (Hxx : str_eqb xp xp = true) by now apply TextFacts.str_eqb_eq.
  unfold press, swallow, try_except, bind, log, ret.
  answer.
  2:{ give_events. repeat split; cbn [forallb allowed]; rewrite ?Hhide, ?Hxp;
      cbn; trivial. }
  destruct (truthy v) eqn:Hv.
  2:{ give_events. repeat split; cbn [forallb allowed]; rewrite ?Hhide, ?Hxp;
      cbn; trivial. }
  answer.
  2:{ give_events.
      repeat split; cbn [forallb allowed clicks_follow_visible];
        rewrite ?Hhide, ?Hxp, ?Hxx, ?Nat.eqb_refl, ?Hv; cbn; trivial. }
  answer;
    (give_events;
     repeat split; cbn [forallb allowed clicks_follow_visible];
       rewrite ?Hhide, ?Hxp, ?Hxx, ?Nat.eqb_refl, ?Hv; cbn; trivial).
Qed.

Lemma press_all_spec (xp : str) (n : nat) :
  hide_cookie_banners opts = true ->
  existsb (str_eqb xp) BUTTON_XPATHS = true ->
  forall i, sat (press_all w xp i n) (tidy opts NoRaise 0 0 0).
Proof.
  intros Hhide Hxp. induction n as [|n IH]; intros i; cbn [press_all].
  - apply tidy_ret.
  - apply (tidy_bind NoRaise 0 0 0 0 0 0).
    + now apply press_spec.
    + intros _. apply IH.
Qed.

Lemma press_xpath_spec (xp : str) :
  hide_cookie_banners opts = true ->
  existsb (str_eqb xp) BUTTON_XPATHS = true ->
  sat (press_xpath w xp) (tidy opts NoRaise 0 0 0).
Proof.
  intros Hhide Hxp. unfold press_xpath. apply tidy_swallow.
  apply (tidy_bind AnyRaise 0 0 0 0 0 0).
  - apply (tidy_call (LocatorAll xp)); [|exact I].
    intros a. cbn [allowed]. rewrite Hhide, Hxp. reflexivity.
  - intros n. apply (tidy_relax AnyRaise 0 0 0); try lia.
    now apply press_all_spec.
Qed.

Lemma press_xpaths_spec (xps : list str) :
  hide_cookie_banners opts = true ->
  forallb (fun xp => existsb (str_eqb xp) BUTTON_XPATHS) xps = true ->
  sat (press_xpaths w xps) (tidy opts NoRaise 0 0 0).
Proof.
  intros Hhide. induction xps as [|xp xps IH]; intros Hin; cbn [press_xpaths].
  - apply tidy_ret.
  - cbn [forallb] in Hin. apply andb_true_iff in Hin. destruct Hin as [Hxp Hin].
    apply (tidy_bind NoRaise 0 0 0 0 0 0).
    + now apply press_xpath_spec.
    + intros _. now apply IH.
Qed.

Lemma dismiss_cookie_banners_spec :
  hide_cookie_banners opts = true ->
  sat (dismiss_cookie_banners w) (tidy opts NoRaise 0 0 0).
Proof.
  intros Hhide. unfold dismiss_cookie_banners.
  apply (tidy_bind NoRaise 0 0 0 0 0 0).
  - apply press_xpaths_spec; [exact Hhide|reflexivity].
  - intros _. apply tidy_swallow.
    apply (tidy_bind AnyRaise 0 0 0 0 0 0).
    + apply (tidy_call RemoveOverlays); [|exact I].
      intros a. cbn [allowed]. exact Hhide.
    + intros removed. destruct (truthy removed);
        [apply tidy_log|apply tidy_ret].
Qed.

(** *** The other helpers *)

Lemma unstick_headers_and_footers_spec (pol : Policy) :
  unstick_bars opts = true ->
  sat (unstick_headers_and_footers w) (tidy opts pol 0 0 0).
Proof.
  intros Hun. unfold unstick_headers_and_footers. apply tidy_swallow.
  apply (tidy_bind AnyRaise 0 0 0 0 0 0).
  - apply (tidy_call Unstick); [|exact I]. intros a. exact Hun.
  - intros n. destruct (truthy n); [apply tidy_log|apply tidy_ret].
Qed.

Lemma wait_for_fonts_and_images_spec (pol : Policy) :
  sat (wait_for_fonts_and_images w (Z.min 15000 (timeout_ms opts)))
      (tidy opts pol 0 0 0).
Proof.
  unfold wait_for_fonts_and_images.
  apply (tidy_bind pol 0 0 0 0 0 0).
  - apply tidy_swallow. apply (tidy_bind AnyRaise 0 0 0 0 0 0).
    + apply (tidy_call (FontsReady _)); [|exact I].
      intros a. cbn [allowed]. apply Z.eqb_refl.
    + intros _. apply tidy_ret.
  - intros _. apply tidy_swallow. apply (tidy_bind AnyRaise 0 0 0 0 0 0).
    + apply (tidy_call (ImagesComplete _)); [|exact I].
      intros a. cbn [allowed]. apply Z.eqb_refl.
    + intros _. apply tidy_ret.
Qed.

Lemma scroll_event_allowed (e : Event) :
  scroll_event default_step default_stall_ms e = true ->
  allowed opts e = true
  /\ scrolls e = scrolls e /\ styles e = false /\ scripts e = false
  /\ match e with Called (Click _ _) _ => False | _ => True end.
Proof.
  destruct e as [[] a|l]; cbn [scroll_event allowed]; try discriminate;
    intros H; repeat split; try exact H.
  apply orb_true_iff in H. destruct H as [H|H]; rewrite H;
    rewrite ?orb_true_r; reflexivity.
Qed.

Lemma scroll_events_tidy (new : History) :
  forallb (scroll_event default_step default_stall_ms) new = true ->
  forallb (allowed opts) new = true
  /\ clicks_follow_visible new = true
  /\ count styles new = O /\ count scripts new = O.
Proof.
  induction new as [|e new IH]; [repeat split|].
  cbn [forallb]. intros H. apply andb_true_iff in H. destruct H as [He H].
  destruct (IH H) as (I1 & I2 & I3 & I4).
  destruct (scroll_event_allowed e He) as (A1 & _ & A3 & A4 & A5).
  cbn [forallb count]. rewrite A1, I1, A3, A4, I3, I4.
  repeat split. destruct e as [[] a|l]; try exact I2. contradiction.
Qed.

Lemma gentle_autoscroll_tidy (fuel : nat) :
  (50 <= fuel)%nat ->
  sat (gentle_autoscroll w fuel default_step default_stall_ms default_max_ms)
      (tidy opts WaitRaise 50 0 0).
Proof.
  intros Hfuel.
  eapply sat_weaken; [apply gentle_autoscroll_spec|].
  intros new r (Hall & Htop & Hbound).
  destruct (scroll_events_tidy new Hall) as (I1 & I2 & I3 & I4).
  destruct Hbound as (Hfin & Hcount & _);
    [unfold default_stall_ms; lia|exact Hfuel|].
  change (rounds default_stall_ms default_max_ms) with 50%nat in Hcount.
  unfold tidy. rewrite I1, I2, I3, I4.
  repeat split; try lia.
  destruct r as [x|e|]; cbn; [trivial|exact (proj1 Htop)|now apply Hfin].
Qed.

Lemma inject_css_spec (pol : Policy) :
  nonblank (global_css opts) = true ->
  sat (try_except
         (bind (call w (AddStyleTag (global_css opts)))
               (fun _ => log LogAppliedCss))
         (fun e => log (LogCssFailed e)))
      (tidy opts pol 0 1 0).
Proof.
  intros Hcss.
  apply (tidy_try pol 0 1 0 0 0 0).
  - apply (tidy_bind AnyRaise 0 1 0 0 0 0).
    + apply (tidy_call (AddStyleTag _)); [|exact I].
      intros a. cbn [allowed]. rewrite Hcss.
      now apply TextFacts.str_eqb_eq.
    + intros _. apply tidy_log.
  - intros e. apply tidy_log.
Qed.

Lemma inject_js_spec (pol : Policy) :
  nonblank (global_js opts) = true ->
  sat (try_except
         (bind (call w (Evaluate (global_js opts)))
               (fun _ => log LogExecutedJs))
         (fun e => log (LogJsFailed e)))
      (tidy opts pol 0 0 1).
Proof.
  intros Hjs.
  apply (tidy_try pol 0 0 1 0 0 0).
  - apply (tidy_bind AnyRaise 0 0 1 0 0 0).
    + apply (tidy_call (Evaluate _)); [|exact I].
      intros a. cbn [allowed]. rewrite Hjs.
      now apply TextFacts.str_eqb_eq.
    + intros _. apply tidy_log.
  - intros e. apply tidy_log.
Qed.

(** *** The whole preparation *)

Lemma prepared_bind (a b c a' b' c' : nat) {A : Type} (m : M A)
    (k : A -> M unit) :
  sat m (tidy opts WaitRaise a b c) ->
  (forall x, sat (k x) (prepared opts WaitRaise a' b' c')) ->
  sat (bind m k) (prepared opts WaitRaise (a + a') (b + b') (c + c')).
Proof.
  intros Hm Hk. apply (sat_bind m k _ _ _ Hm Hk).
  - intros n1 x n2 r H1 [H2 Hset]. split; [now apply (tidy_app _ _ _ _ _ _ _ _ _ x)|].
    intros Hr. destruct (Hset Hr) as (v & rest & Hshape).
    exists v, (rest ++ n1). destruct (0 <? delay_ms opts).
    + destruct Hshape as (b0 & ->). exists b0. reflexivity.
    + rewrite Hshape. reflexivity.
  - intros n e (H1 & H2 & H3 & H4 & H5 & H6). split; [|discriminate].
    repeat split; try assumption; lia.
  - intros n (_ & _ & _ & _ & _ & []).
Qed.

Lemma final_waits_spec :
  sat (bind (call w (WaitForTimeout 250))
         (fun _ =>
            if 0 <? delay_ms opts
            then bind (log (LogDelay (delay_ms opts)))
                   (fun _ => bind (call w (WaitForTimeout (delay_ms opts)))
                               (fun _ => ret tt))
            else ret tt))
      (prepared opts WaitRaise 0 0 0).
Proof.
  intros h0. unfold bind, log, ret. answer.
  2:{ give_events. split; [|discriminate].
      repeat split; try (cbn; lia). eexists _, _; reflexivity. }
  destruct (0 <? delay_ms opts) eqn:Hd.
  - answer; give_events.
    + split.
      * repeat split; cbn; lia.
      * intros _. exists v, []. rewrite Hd. exists v0. reflexivity.
    + split; [|discriminate].
      repeat split; try (cbn; lia). eexists _, _; reflexivity.
  - give_events. split.
    + repeat split; cbn; lia.
    + intros _. exists v, []. rewrite Hd. reflexivity.
Qed.

Lemma prepare_page_for_capture_spec (fuel : nat) :
  (50 <= fuel)%nat ->
  sat (prepare_page_for_capture w fuel opts) (prepared opts WaitRaise 50 1 1).
Proof.
  intros Hfuel. unfold prepare_page_for_capture.
  apply (prepared_bind 0 0 0 50 1 1); [apply tidy_log|intros _].
  apply (prepared_bind 0 0 0 50 1 1);
    [apply wait_for_fonts_and_images_spec|intros _].
  apply (prepared_bind 0 0 0 50 1 1); [apply tidy_log|intros _].
  apply (prepared_bind 50 0 0 0 1 1);
    [now apply gentle_autoscroll_tidy|intros _].
  apply (prepared_bind 0 0 0 0 1 1).
  { destruct (hide_cookie_banners opts) eqn:Hhide; [|apply tidy_ret].
    apply (tidy_bind WaitRaise 0 0 0 0 0 0); [apply tidy_log|intros _].
    apply (tidy_relax WaitRaise 0 0 0); try lia.
    now apply dismiss_cookie_banners_spec. }
  intros _. apply (prepared_bind 0 1 0 0 0 1).
  { destruct (nonblank (global_css opts)) eqn:Hcss.
    - now apply inject_css_spec.
    - apply (tidy_relax WaitRaise 0 0 0); try lia. apply tidy_ret. }
  intros _. apply (prepared_bind 0 0 1 0 0 0).
  { destruct (nonblank (global_js opts)) eqn:Hjs.
    - now apply inject_js_spec.
    - apply (tidy_relax WaitRaise 0 0 0); try lia. apply tidy_ret. }
  intros _. apply (prepared_bind 0 0 0 0 0 0).
  { destruct (unstick_bars opts) eqn:Hun; [|apply tidy_ret].
    apply (tidy_bind WaitRaise 0 0 0 0 0 0); [apply tidy_log|intros _].
    now apply unstick_headers_and_footers_spec. }
  intros _. apply final_waits_spec.
Qed.

End Tidy.

End Runs.

(** With a pause of at least 1 ms between scroll steps and a budget of
    [ceil(max_ms / stall_ms)] iterations, [gentle_autoscroll] ends on every
    page: it makes at most [ceil(max_ms / stall_ms)] scroll steps and asks
    [page.wait_for_timeout] for at most that many pauses plus 500 ms. *)
Theorem gentle_autoscroll_bounded (w : World) (fuel : nat)
    (step stall_ms max_ms : Z) (h0 h : History) (r : Res unit) :
  1 <= stall_ms ->
  (rounds stall_ms max_ms <= fuel)%nat ->
  gentle_autoscroll w fuel step stall_ms max_ms h0 = (h, r) ->
  exists new,
    h = new ++ h0
    /\ r <> Unfinished
    /\ (count scrolls new <= rounds stall_ms max_ms)%nat
    /\ slept new <= Z.of_nat (rounds stall_ms max_ms) * stall_ms + 500.
Proof.
  intros Hs Hf Hrun.
  destruct (gentle_autoscroll_spec w step stall_ms max_ms fuel h0)
    as (new & r' & E & _ & _ & Hbound).
  rewrite Hrun in E. injection E as -> ->.
  exists new. split; [reflexivity|]. exact (Hbound Hs Hf).
Qed.

(** On a page that keeps growing, the defaults give the full 50 steps and
    20 seconds of pauses. *)
Lemma gentle_autoscroll_bounded_witness :
  exists h r new,
    gentle_autoscroll growing_page 50 default_step default_stall_ms
      default_max_ms [] = (h, r)
    /\ h = new ++ []
    /\ r <> Unfinished
    /\ (count scrolls new <= rounds default_stall_ms default_max_ms)%nat
    /\ slept new
       <= Z.of_nat (rounds default_stall_ms default_max_ms) * default_stall_ms
          + 500
    /\ count scrolls h = 50%nat
    /\ slept h = 20000.
Proof.
  destruct (gentle_autoscroll growing_page 50 default_step default_stall_ms
              default_max_ms []) as [h r] eqn:E.
  destruct (gentle_autoscroll_bounded growing_page 50 default_step
              default_stall_ms default_max_ms [] h r)
    as (new & Eh & Hfin & Hcount & Hslept);
    [unfold default_stall_ms; lia|vm_compute; lia|exact E|].
  exists h, r, new. split; [reflexivity|].
  split; [exact Eh|]. split; [exact Hfin|]. split; [exact Hcount|].
  split; [exact Hslept|].
  vm_compute in E. injection E as <- <-. split; vm_compute; reflexivity.
Defined.

(** However [gentle_autoscroll] is called: it only reads the scroll
    height, scrolls by [step], pauses for [stall_ms] or 500 ms and scrolls
    to the top.  A run that returns has asked for the top of the page as
    its last call, and only then; an exception can only come from
    [page.wait_for_timeout], and then the page is left where the scrolling
    stopped. *)
Theorem gentle_autoscroll_ends_at_top (w : World) (fuel : nat)
    (step stall_ms max_ms : Z) (h0 h : History) (r : Res unit) :
  gentle_autoscroll w fuel step stall_ms max_ms h0 = (h, r) ->
  exists new,
    h = new ++ h0
    /\ forallb (scroll_event step stall_ms) new = true
    /\ back_at_top new r.
Proof.
  intros Hrun.
  destruct (gentle_autoscroll_spec w step stall_ms max_ms fuel h0)
    as (new & r' & E & Hall & Htop & _).
  rewrite Hrun in E. injection E as -> ->.
  exists new. split; [reflexivity|]. split; assumption.
Qed.

(** A page whose [wait_for_timeout] fails: one scroll step, the exception,
    and no scroll back to the top. *)
Lemma gentle_autoscroll_ends_at_top_witness :
  exists h new,
    gentle_autoscroll stuck_clock 50 default_step default_stall_ms
      default_max_ms [] = (h, Raised Capture.PlaywrightError)
    /\ h = new ++ []
    /\ forallb (scroll_event default_step default_stall_ms) new = true
    /\ back_at_top new (Raised (A:=unit) Capture.PlaywrightError)
    /\ count scrolls h = 1%nat.
Proof.
  assert (E : gentle_autoscroll stuck_clock 50 default_step default_stall_ms
                default_max_ms []
              = ([Called (WaitForTimeout 400) (Fails Capture.PlaywrightError);
                  Called (ScrollBy 1200) (Gives 1);
                  Called ScrollHeight (Gives 0)],
                 Raised Capture.PlaywrightError))
    by (vm_compute; reflexivity).
  destruct (gentle_autoscroll_ends_at_top stuck_clock 50 default_step
              default_stall_ms default_max_ms [] _ _ E)
    as (new & Eh & Hall & Htop).
  eexists _, new. split; [exact E|].
  split; [exact Eh|]. split; [exact Hall|]. split; [exact Htop|].
  reflexivity.
Defined.

(** On a budget of 50 loop iterations [prepare_page_for_capture] ends on
    every page and with every option set.  It raises only what a
    [page.wait_for_timeout] raised, as its last call: a failure of any
    other page call is swallowed.  When it returns, its last calls were the
    250 ms pause and then, if [delay_ms > 0], the extra delay. *)
Theorem prepare_fails_only_on_wait (w : World) (opts : CaptureOptions)
    (fuel : nat) (h0 h : History) (r : Res unit) :
  (50 <= fuel)%nat ->
  prepare_page_for_capture w fuel opts h0 = (h, r) ->
  exists new,
    h = new ++ h0
    /\ r <> Unfinished
    /\ (forall e, r = Raised e -> wait_failed e new)
    /\ (r = Returns tt -> settled opts new).
Proof.
  intros Hfuel Hrun.
  destruct (prepare_page_for_capture_spec w opts fuel Hfuel h0)
    as (new & r' & E & (_ & _ & _ & _ & _ & Hend) & Hset).
  rewrite Hrun in E. injection E as -> ->.
  exists new. split; [reflexivity|].
  split; [intros ->; exact Hend|]. split; [|exact Hset].
  intros e ->. exact Hend.
Qed.

(** A page whose [wait_for_timeout] fails: the preparation raises that
    error from the first pause of the scrolling. *)
Lemma prepare_fails_only_on_wait_witness :
  exists h new,
    prepare_page_for_capture stuck_clock 50 sample_options [] 
      = (h, Raised Capture.PlaywrightError)
    /\ h = new ++ []
    /\ wait_failed Capture.PlaywrightError new.
Proof.
  destruct (prepare_page_for_capture stuck_clock 50 sample_options [])
    as [h r] eqn:E.
  destruct (prepare_fails_only_on_wait stuck_clock sample_options 50 [] h r)
    as (new & Eh & _ & Hraise & _); [lia|exact E|].
  assert (Er : r = Raised Capture.PlaywrightError)
    by (vm_compute in E; injection E as _ <-; reflexivity).
  exists h, new. rewrite <- Er. split; [reflexivity|].
  split; [exact Eh|]. apply Hraise. exact Er.
Defined.

(** What a preparation does stays within the options: the font and image
    waits use [min(15000, timeout_ms)]; cookie buttons are looked up and
    clicked, and overlays removed, only with [hide_cookie_banners], and
    only handles just seen visible are clicked; bars are unstuck only with
    [unstick_bars]; the only style tag added has [global_css] as content,
    the only script of the options evaluated is [global_js], each at most
    once and only when it is not blank; and there are at most 50 scroll
    steps. *)
Theorem prepare_honours_options (w : World) (opts : CaptureOptions)
    (fuel : nat) (h0 h : History) (r : Res unit) :
  (50 <= fuel)%nat ->
  prepare_page_for_capture w fuel opts h0 = (h, r) ->
  exists new,
    h = new ++ h0
    /\ forallb (allowed opts) new = true
    /\ clicks_follow_visible new = true
    /\ (count scrolls new <= 50)%nat
    /\ (count styles new <= 1)%nat
    /\ (count scripts new <= 1)%nat.
Proof.
  intros Hfuel Hrun.
  destruct (prepare_page_for_capture_spec w opts fuel Hfuel h0)
    as (new & r' & E & (H1 & H2 & H3 & H4 & H5 & _) & _).
  rewrite Hrun in E. injection E as -> ->.
  exists new. repeat split; assumption.
Qed.

(** On a page where nothing moves, with the global CSS of the sample
    options: one style tag, no script. *)
Lemma prepare_honours_options_witness :
  exists h r new,
    prepare_page_for_capture still_page 50 sample_options [] = (h, r)
    /\ h = new ++ []
    /\ forallb (allowed sample_options) new = true
    /\ clicks_follow_visible new = true
    /\ (count scrolls new <= 50)%nat
    /\ (count styles new <= 1)%nat
    /\ (count scripts new <= 1)%nat
    /\ count styles h = 1%nat
    /\ count scripts h = O.
Proof.
  destruct (prepare_page_for_capture still_page 50 sample_options [])
    as [h r] eqn:E.
  destruct (prepare_honours_options still_page sample_options 50 [] h r)
    as (new & Eh & H1 & H2 & H3 & H4 & H5); [lia|exact E|].
  exists h, r, new. split; [reflexivity|].
  repeat (split; [assumption|]).
  vm_compute in E. injection E as <- _. split; reflexivity.
Defined.

(** The three clean-up helpers never raise, whatever the page does:
    [wait_for_fonts_and_images] makes its two calls and returns,
    [dismiss_cookie_banners] returns having clicked only handles it had
    just seen visible, and [unstick_headers_and_footers] makes its one call
    and returns. *)
Theorem cleanup_helpers_never_raise (w : World) (h0 : History) :
  (forall timeout,
     exists a1 a2,
       wait_for_fonts_and_images w timeout h0
       = ([Called (ImagesComplete timeout) a2;
           Called (FontsReady timeout) a1] ++ h0, Returns tt))
  /\ (exists new,
        dismiss_cookie_banners w h0 = (new ++ h0, Returns tt)
        /\ clicks_follow_visible new = true
        /\ count scrolls new = O)
  /\ (exists new,
        unstick_headers_and_footers w h0 = (new ++ h0, Returns tt)
        /\ (count (fun e => match e with
                            | Called Unstick _ => true
                            | _ => false
                            end) new = 1)%nat).
Proof.
  split; [|split].
  - intros timeout. unfold wait_for_fonts_and_images. unfold bind at 1.
    rewrite swallow_call_run. cbv beta iota zeta. rewrite swallow_call_run.
    eexists _, _. reflexivity.
  - destruct (dismiss_cookie_banners_spec w cookie_options eq_refl h0)
      as (new & r & E & _ & Hcfv & Hscroll & _ & _ & Hend).
    destruct r as [[]|e|]; try contradiction.
    exists new. split; [exact E|]. split; [exact Hcfv|]. lia.
  - unfold unstick_headers_and_footers, swallow, try_except, bind, log, ret.
    rewrite call_run. destruct (w h0 Unstick) as [v|e]; cbv beta iota zeta.
    + destruct (truthy v).
      * eexists [_; _]. split; [reflexivity|]. reflexivity.
      * eexists [_]. split; [reflexivity|]. reflexivity.
    + eexists [_]. split; [reflexivity|]. reflexivity.
Qed.

End PrepareFacts.
